(** * Narrator Expressions: presence resolver and roster engine

    A shallow embedding of the core of [src/index.js]: the bracket-span
    scanner, the word-bounded presence counter, the presence resolver
    ([getPresentOrderedNames]), the roster refresh ([updateMembers]), the
    history-derived ordering ([getOrderFromText]) and the debounced restart
    ([debounceAsync], [restart]); then the desired names of a refresh
    ([getOrder] and the head of [updateMembers]), the name fields of the
    settings form and the render pass of [messageRendered].

    Conventions.  A JavaScript string is a sequence of code units; the
    development covers the strings whose code units are below 256, one
    [ascii] for each code unit: the scanners work on [list ascii] and the
    rest carries [string] values, converted with [list_ascii_of_string].
    Case folding, the word class and the white-space class are those of
    these code units, the accented letters included.  Array indices and
    lengths are [nat]; the capacities [numLeft] and [numRight], which use
    the sentinel [-1], are [Z].

    The counter and the resolver come in two layers: the loop for the
    regex of a name ([PresenceCounter], [PresenceResolver]), and the
    functions with the cache lookup of [makeWordRegex], which can throw
    ([RegexCache]).  Likewise [updateMembers] is the refresh in which
    every awaited image lookup resolves, and [updateMembers_with] the
    refresh with lookups that reject. *)

From Stdlib Require Import Ascii String.
From Stdlib Require Import List Arith Bool Lia ZArith Permutation Sorted.
Import ListNotations.

Set Implicit Arguments.

(** * Part I: the embedding *)

(** ** SpanScanner *)

Module SpanScanner.

Record Span := mkSpan { start : nat; end_ : nat }.

Definition dquote : ascii := Eval cbv in ascii_of_nat 34.
Definition asterisk : ascii := "*"%char.

(** [tokens.has(ch)]: the set [tokens] holds the double quote and the
    asterisk. *)
Definition is_token (ch : ascii) : bool :=
  Ascii.eqb ch dquote || Ascii.eqb ch asterisk.

(** First position at or after [pos] holding [ch], scanning the suffix [l]
    that starts at absolute position [pos]. *)
Fixpoint indexOf_aux (ch : ascii) (l : list ascii) (pos : nat) : option nat :=
  match l with
  | [] => None
  | c :: r => if Ascii.eqb c ch then Some pos else indexOf_aux ch r (S pos)
  end.

(** [text.indexOf(ch, from)]; [None] stands for [-1]. *)
Definition indexOf (ch : ascii) (text : list ascii) (from : nat) : option nat :=
  indexOf_aux ch (skipn from text) from.

(** The [for] loop of [parseBracketSpans], entered with loop variable [i].
    Every iteration advances [i], so [length text] iterations are enough
    (see [parse_loop_fuel]). *)
Fixpoint parse_loop (fuel : nat) (text : list ascii) (i : nat) : list Span :=
  match fuel with
  | O => []
  | S fuel' =>
    match nth_error text i with
    | None => []
    | Some ch =>
      if is_token ch then
        match indexOf ch text (i + 1) with
        | None => [mkSpan i (length text)]
        | Some j => mkSpan i (j + 1) :: parse_loop fuel' text (j + 1)
        end
      else parse_loop fuel' text (i + 1)
    end
  end.

Definition parseBracketSpans (text : list ascii) : list Span :=
  parse_loop (length text) text 0.

(** The [for (const b of brackets)] loop of [getNonBracketSpans]: the
    state is the array [spans] and the variable [cursor]. *)
Fixpoint complement_loop (brackets : list Span) (spans : list Span) (cursor : nat)
  : list Span * nat :=
  match brackets with
  | [] => (spans, cursor)
  | b :: bs =>
    let spans' := if cursor <? start b then spans ++ [mkSpan cursor (start b)] else spans in
    complement_loop bs spans' (Nat.max cursor (end_ b))
  end.

Definition getNonBracketSpans (text : list ascii) : list Span :=
  match parseBracketSpans text with
  | [] => [mkSpan 0 (length text)]
  | brackets =>
    let '(spans, cursor) := complement_loop brackets [] 0 in
    if cursor <? length text then spans ++ [mkSpan cursor (length text)] else spans
  end.

(** Index [k] lies in the half-open span [s]. *)
Definition covers (k : nat) (s : Span) : bool :=
  (start s <=? k) && (k <? end_ s).

(** Number of spans of [l] that contain index [k]. *)
Definition cover_count (k : nat) (l : list Span) : nat :=
  length (filter (covers k) l).

(** Spans listed in ascending order without overlap: each one ends no
    later than every later one starts. *)
Definition ascending (l : list Span) : Prop :=
  ForallOrdPairs (fun a b => end_ a <= start b) l.

(** [chain lo l hi]: the spans of [l] are non-empty, lie in [[lo, hi]] and
    follow one another from left to right. *)
Fixpoint chain (lo : nat) (l : list Span) (hi : nat) : Prop :=
  match l with
  | [] => lo <= hi
  | b :: bs => lo <= start b /\ start b < end_ b /\ chain (end_ b) bs hi
  end.

End SpanScanner.

Import SpanScanner.

(** ** PresenceCounter *)

Module PresenceCounter.

(** A plain span as [getPresentOrderedNames] passes it on: the span with
    the slice [text.slice(start, end)] attached. *)
Record PlainSpan := mkPlain { p_start : nat; p_end : nat; p_text : list ascii }.

Definition in_range (lo hi : nat) (c : ascii) : bool :=
  (lo <=? nat_of_ascii c) && (nat_of_ascii c <=? hi).

(** The class [\w]: letters, digits and the underscore. *)
Definition isWordChar (c : ascii) : bool :=
  in_range 48 57 c || in_range 65 90 c || in_range 97 122 c
  || Nat.eqb (nat_of_ascii c) 95.

(** Case folding of the [i] flag, on the code units below 256: the
    upper-case form of the character, for the letters a to z and for the
    accented letters 224 to 254 (247, the division sign, is no letter).
    The sharp s (223), whose upper-case form is two characters, stands
    for itself; so do the micro sign (181) and the y with diaeresis
    (255), whose upper-case forms lie beyond 255 and are those of no
    other code unit below 256. *)
Definition canonicalize (c : ascii) : ascii :=
  if in_range 97 122 c
     || (in_range 224 254 c && negb (Nat.eqb (nat_of_ascii c) 247))
  then ascii_of_nat (nat_of_ascii c - 32) else c.

(** [String.prototype.toLowerCase] on one code unit below 256: the
    letters A to Z and the accented capitals 192 to 222 (215, the
    multiplication sign, is no letter). *)
Definition toLowerCase_char (c : ascii) : ascii :=
  if in_range 65 90 c
     || (in_range 192 222 c && negb (Nat.eqb (nat_of_ascii c) 215))
  then ascii_of_nat (nat_of_ascii c + 32) else c.

Definition toLowerCase (s : list ascii) : list ascii := map toLowerCase_char s.

Definition ci_eqb (a b : ascii) : bool :=
  Ascii.eqb (canonicalize a) (canonicalize b).

(** Comparison of a pattern character with a text character, with or
    without the [i] flag. *)
Definition char_eqb (ignoreCase : bool) (a b : ascii) : bool :=
  if ignoreCase then ci_eqb a b else Ascii.eqb a b.

(** Modelled from the spec: [escapeRegex] (imported from [utils.js], which
    is not part of the sources) escapes every regex metacharacter of the
    name, so the capture group of the pattern matches the characters of
    the name one by one.  [prefix_match ignoreCase name l] consumes the
    name at the head of [l] and returns what follows. *)
Fixpoint prefix_match (ignoreCase : bool) (name l : list ascii)
  : option (list ascii) :=
  match name with
  | [] => Some l
  | n :: ns =>
    match l with
    | [] => None
    | c :: r => if char_eqb ignoreCase n c then prefix_match ignoreCase ns r else None
    end
  end.

(** The closing group [(?:$|\W)]: the end of the input, tried first, or
    one non-word character.  The result is the number of characters
    consumed. *)
Definition trailing (l : list ascii) : option nat :=
  match l with
  | [] => Some 0
  | c :: _ => if isWordChar c then None else Some 1
  end.

(** The name followed by the closing group, at the head of [l]; the
    result is the number of characters consumed. *)
Definition name_then_trailing (ignoreCase : bool) (name l : list ascii)
  : option nat :=
  match prefix_match ignoreCase name l with
  | Some r => option_map (fun t => length name + t) (trailing r)
  | None => None
  end.

(** One attempt of the pattern [(?:^|\W)(name)(?:$|\W)] at a position
    whose suffix is [l]; [atStart] says whether the position is 0, where
    [^] holds (the pattern has no [m] flag).  The alternative [^] is
    tried first and the engine backtracks into [\W] when the rest fails
    after it.  The result is the length of the match. *)
Definition matchAt (ignoreCase atStart : bool) (name l : list ascii) : option nat :=
  let viaNonWord :=
    match l with
    | c :: r =>
      if isWordChar c then None
      else option_map S (name_then_trailing ignoreCase name r)
    | [] => None
    end in
  if atStart then
    match name_then_trailing ignoreCase name l with
    | Some len => Some len
    | None => viaNonWord
    end
  else viaNonWord.

(** A search of the regex from position [s], whose suffix is [l]: the
    first position at or after [s] where the pattern matches, with the
    length of the match there. *)
Fixpoint exec_from (ignoreCase : bool) (name l : list ascii) (s : nat)
  : option (nat * nat) :=
  match matchAt ignoreCase (Nat.eqb s 0) name l with
  | Some len => Some (s, len)
  | None =>
    match l with
    | [] => None
    | _ :: r => exec_from ignoreCase name r (S s)
    end
  end.

(** [matchAll] on the regex of [makeWordRegex], flags [gi]: repeated
    searches, each from the [lastIndex] the previous match left, which is
    the end of that match (one further when the match is empty).  The
    list holds [m.index] of each match.  [lastIndex] grows at every
    iteration, so [length hay + 2] iterations are enough (see
    [matchAll_loop_fuel]).  This is the scan for the regex built from
    [name]; the cache of [makeWordRegex], from which the regex comes, and
    the values it can give that are no regex, are in [RegexCache]
    below. *)
Fixpoint matchAll_loop (fuel : nat) (name hay : list ascii) (lastIndex : nat)
  : list nat :=
  match fuel with
  | O => []
  | S fuel' =>
    match exec_from true name (skipn lastIndex hay) lastIndex with
    | None => []
    | Some (idx, len) =>
      idx :: matchAll_loop fuel' name hay
               (if Nat.eqb len 0 then idx + 1 else idx + len)
    end
  end.

Definition matchAll (name hay : list ascii) : list nat :=
  matchAll_loop (length hay + 2) name hay 0.

Record Occurrences := mkOcc { count : nat; firstIndex : option nat }.

(** The body of [for (const m of matches)]. *)
Definition count_match (spanStart : nat) (acc : Occurrences) (index : nat)
  : Occurrences :=
  let absIndex := spanStart + index in
  mkOcc (S (count acc))
        (match firstIndex acc with
         | None => Some absIndex
         | Some f => if absIndex <? f then Some absIndex else Some f
         end).

(** The match offsets the loop body sees for one span: none when the
    span text is empty ([if (!hay) continue]). *)
Definition span_matches (name : list ascii) (span : PlainSpan) : list nat :=
  match p_text span with
  | [] => []
  | hay => matchAll name hay
  end.

(** The body of [for (const span of nonBracketSpans)]. *)
Definition count_span (name : list ascii) (acc : Occurrences) (span : PlainSpan)
  : Occurrences :=
  fold_left (count_match (p_start span)) (span_matches name span) acc.

Definition countOccurrencesOutsideBrackets (name : list ascii)
  (nonBracketSpans : list PlainSpan) : Occurrences :=
  fold_left (count_span name) nonBracketSpans (mkOcc 0 None).

(** *** The counting rule in the words of the specification *)

(** The name occurs at position [p] of [hay], compared without case,
    preceded and followed by a non-word character or the boundary of
    [hay]. *)
Definition occursBoundedAt (name hay : list ascii) (p : nat) : bool :=
  match p with
  | O => true
  | S q => match nth_error hay q with
           | Some c => negb (isWordChar c)
           | None => false
           end
  end
  && match prefix_match true name (skipn p hay) with
     | Some [] => true
     | Some (c :: _) => negb (isWordChar c)
     | None => false
     end.

Definition boundedOccurrences (name hay : list ascii) : list nat :=
  filter (occursBoundedAt name hay) (seq 0 (S (length hay))).

(** The count as the specification words it: the number of bounded
    occurrences over all spans. *)
Definition spec_count (name : list ascii) (spans : list PlainSpan) : nat :=
  list_sum (map (fun sp => length (boundedOccurrences name (p_text sp))) spans).

(** All absolute match positions, span by span. *)
Definition abs_matches (name : list ascii) (spans : list PlainSpan) : list nat :=
  flat_map (fun sp => map (Nat.add (p_start sp)) (span_matches name sp)) spans.

(** [greedy name hay from l]: [l] lists, from left to right, the first
    position at or after [from] where the pattern matches, then the first
    one at or after the end of that match, and so on until no position is
    left. *)
Fixpoint greedy (name hay : list ascii) (from : nat) (l : list nat) : Prop :=
  match l with
  | [] => forall p, from <= p <= length hay ->
                    matchAt true (Nat.eqb p 0) name (skipn p hay) = None
  | s :: l' =>
    from <= s <= length hay /\
    (forall p, from <= p < s -> matchAt true (Nat.eqb p 0) name (skipn p hay) = None) /\
    exists len, matchAt true (Nat.eqb s 0) name (skipn s hay) = Some len /\
                greedy name hay (if Nat.eqb len 0 then s + 1 else s + len) l'
  end.

(** The position of the name inside a match that starts at [s]: [s]
    itself when the match begins with [^], one further when it begins
    with a non-word character. *)
Definition name_pos (name hay : list ascii) (s : nat) : nat :=
  match s, name_then_trailing true name hay with
  | O, Some _ => O
  | _, _ => S s
  end.

(** The running minimum kept in [firstIndex]. *)
Definition min_step (o : option nat) (a : nat) : option nat :=
  match o with
  | None => Some a
  | Some f => if a <? f then Some a else Some f
  end.

End PresenceCounter.

Import PresenceCounter.

(** ** PresenceResolver *)

Module PresenceResolver.

(** A chat message.  The source reads the text from the first defined of
    the fields [mes], [message] and [text]; the record holds that text. *)
Record Message := mkMessage {
  mes : string;
  msg_name : string;
  is_user : bool;
  is_system : bool
}.

(** The per-chat settings the resolver reads: [csettings.members] and
    [csettings.exclude]. *)
Record ChatSettings := mkChatSettings {
  members : list string;
  exclude : list string
}.

Record Item := mkItem {
  i_name : string;
  i_count : nat;
  i_firstIndex : option nat;
  i_masterIndex : nat;
  i_forced : bool
}.

(** Truthiness of a value that is a string, [null] or [undefined]. *)
Definition truthy (v : option string) : bool :=
  match v with
  | Some s => negb (String.eqb s EmptyString)
  | None => false
  end.

(** [lastMes?.mes ?? ... ?? ''] for a message that may be missing. *)
Definition message_text (lastMes : option Message) : string :=
  match lastMes with
  | Some m => mes m
  | None => EmptyString
  end.

(** [lastMes?.is_user], as a condition. *)
Definition from_user (lastMes : option Message) : bool :=
  match lastMes with
  | Some m => is_user m
  | None => false
  end.

Definition USER_NAME (cs : ChatSettings) (nameList : list string) : option string :=
  match members cs with
  | m :: _ => Some m
  | [] => hd_error nameList
  end.

Definition lower (s : string) : string :=
  string_of_list_ascii (toLowerCase (list_ascii_of_string s)).

(** [csettings?.exclude?.indexOf(name.toLowerCase()) > -1]. *)
Definition excluded (cs : ChatSettings) (name : string) : bool :=
  existsb (String.eqb (lower name)) (exclude cs).

(** [getNonBracketSpans(text).map(s => ({ ...s, text: text.slice(s.start, s.end) }))]. *)
Definition plain_spans (text : list ascii) : list PlainSpan :=
  map (fun s => mkPlain (start s) (end_ s)
                        (firstn (end_ s - start s) (skipn (start s) text)))
      (getNonBracketSpans text).

(** The loop [for (let i = 0; i < nameList.length; i++)], on the names
    from index [i] on, with the array [items] built so far. *)
Fixpoint collect_loop (cs : ChatSettings) (spans : list PlainSpan)
  (names : list string) (i : nat) (items : list Item) : list Item :=
  match names with
  | [] => items
  | name :: rest =>
    if excluded cs name then collect_loop cs spans rest (S i) items
    else
      let occ := countOccurrencesOutsideBrackets (list_ascii_of_string name) spans in
      collect_loop cs spans rest (S i)
        (if 0 <? count occ
         then items ++ [mkItem name (count occ) (firstIndex occ) i false]
         else items)
  end.

Definition named (u : string) (it : Item) : bool := String.eqb (i_name it) u.

(** [exists.forced = true] on the first item named [u]. *)
Fixpoint mark_forced (u : string) (items : list Item) : list Item :=
  match items with
  | [] => []
  | it :: r =>
    if named u it
    then mkItem (i_name it) (i_count it) (i_firstIndex it) (i_masterIndex it) true :: r
    else it :: mark_forced u r
  end.

(** The block [if (lastMes?.is_user) { if (USER_NAME) ... }]. *)
Definition ensure_user (user_msg : bool) (user : option string) (items : list Item)
  : list Item :=
  match user with
  | Some u =>
    if user_msg && truthy user then
      if existsb (named u) items then mark_forced u items
      else items ++ [mkItem u 1 (Some 0) 0 true]
    else items
  | None => items
  end.

(** The comparator of [items.sort]: [Lt] for a negative result, [Gt] for
    a positive one, [Eq] for zero.  A null [firstIndex] counts as
    [Infinity]. *)
Definition compare_items (a b : Item) : comparison :=
  if negb (Nat.eqb (i_count b) (i_count a)) then Nat.compare (i_count b) (i_count a)
  else
    match i_firstIndex a, i_firstIndex b with
    | Some ai, Some bi =>
      if negb (Nat.eqb ai bi) then Nat.compare ai bi
      else Nat.compare (i_masterIndex a) (i_masterIndex b)
    | None, Some _ => Gt
    | Some _, None => Lt
    | None, None => Nat.compare (i_masterIndex a) (i_masterIndex b)
    end.

(** [Array.prototype.sort] is a stable sort; it is modelled by the stable
    insertion sort. *)
Fixpoint insert_item (x : Item) (l : list Item) : list Item :=
  match l with
  | [] => [x]
  | y :: r =>
    match compare_items x y with
    | Gt => y :: insert_item x r
    | _ => x :: l
    end
  end.

Definition sort_items (items : list Item) : list Item :=
  fold_right insert_item [] items.

Fixpoint findIndex {A : Type} (p : A -> bool) (l : list A) : option nat :=
  match l with
  | [] => None
  | x :: r => if p x then Some 0 else option_map S (findIndex p r)
  end.

(** The demotion block [if (!lastMes?.is_user && USER_NAME)]. *)
Definition demote (user_msg : bool) (user : option string) (items : list Item)
  : list Item :=
  match user with
  | Some u =>
    if negb user_msg && truthy user then
      match findIndex (named u) items, items with
      | Some 0, a :: b :: r => b :: a :: r
      | _, _ => items
      end
    else items
  | None => items
  end.

(** The forcing block [if (lastMes?.is_user && USER_NAME)]: the item is
    spliced out and put back in front. *)
Definition force (user_msg : bool) (user : option string) (items : list Item)
  : list Item :=
  match user with
  | Some u =>
    if user_msg && truthy user then
      match findIndex (named u) items with
      | Some idx =>
        match nth_error items idx with
        | Some it => it :: firstn idx items ++ skipn (S idx) items
        | None => items
        end
      | None => items
      end
    else items
  | None => items
  end.

(** The items collected from the name list, before the user block. *)
Definition collected_items (cs : ChatSettings) (lastMes : option Message)
  (nameList : list string) : list Item :=
  collect_loop cs (plain_spans (list_ascii_of_string (message_text lastMes)))
               nameList 0 [].

(** The array [items] right after [items.sort]. *)
Definition sorted_items (cs : ChatSettings) (lastMes : option Message)
  (nameList : list string) : list Item :=
  sort_items (ensure_user (from_user lastMes) (USER_NAME cs nameList)
                          (collected_items cs lastMes nameList)).

Definition getPresentOrderedNames (cs : ChatSettings) (lastMes : option Message)
  (nameList : list string) : list string :=
  let user := USER_NAME cs nameList in
  if String.eqb (message_text lastMes) EmptyString && from_user lastMes then
    match user with
    | Some u => if truthy user then [u] else []
    | None => []
    end
  else
    map i_name
        (force (from_user lastMes) user
               (demote (from_user lastMes) user
                       (sorted_items cs lastMes nameList))).

(** The test a name passes to get an item: not excluded, counted at
    least once. *)
Definition present_in (cs : ChatSettings) (spans : list PlainSpan) (name : string)
  : bool :=
  negb (excluded cs name)
  && (0 <? count (countOccurrencesOutsideBrackets (list_ascii_of_string name) spans)).

End PresenceResolver.

Import PresenceResolver.

(** ** RosterEngine *)

Module RosterEngine.

(** The two capacities of [settings]; [-1] means unbounded. *)
Record Settings := mkSettings { numLeft : Z; numRight : Z }.

(** The module-level roster variables.  [imgs] is the array of wrapper
    elements, each represented by its [data-character] attribute. *)
Record Roster := mkRoster {
  nameList : list string;
  left : list string;
  right : list string;
  current : option string;
  imgs : list string
}.

(** What a refresh does to the wrappers: one is created for an added
    name, one is taken out of the document for a removed or evicted
    name. *)
Inductive Effect :=
| WrapperCreated (name : string)
| WrapperRemoved (name : string).

(** The roster after [end()]. *)
Definition empty_roster : Roster := mkRoster [] [] [] None [].

Definition set_left (l : list string) (st : Roster) : Roster :=
  mkRoster (nameList st) l (right st) (current st) (imgs st).
Definition set_right (r : list string) (st : Roster) : Roster :=
  mkRoster (nameList st) (left st) r (current st) (imgs st).
Definition set_current (c : option string) (st : Roster) : Roster :=
  mkRoster (nameList st) (left st) (right st) c (imgs st).
Definition set_nameList (l : list string) (st : Roster) : Roster :=
  mkRoster l (left st) (right st) (current st) (imgs st).
Definition set_imgs (l : list string) (st : Roster) : Roster :=
  mkRoster (nameList st) (left st) (right st) (current st) l.

(** [l.indexOf(name)]; [None] stands for [-1]. *)
Fixpoint indexOf_name (name : string) (l : list string) : option nat :=
  match l with
  | [] => None
  | x :: r => if String.eqb x name then Some 0 else option_map S (indexOf_name name r)
  end.

Definition includes (name : string) (l : list string) : bool :=
  match indexOf_name name l with Some _ => true | None => false end.

(** [l.splice(idx, 1)]: the array without the element at [idx]; with
    [idx = -1] the last element is the one removed. *)
Definition splice1 (idx : option nat) (l : list string) : list string :=
  match idx with
  | Some i => firstn i l ++ skipn (S i) l
  | None => removelast l
  end.

(** The element [l.splice(idx, 1)[0]] takes out, if any. *)
Definition spliced (idx : option nat) (l : list string) : option string :=
  match idx with
  | Some i => nth_error l i
  | None => last (map Some l) None
  end.

(** The body of [for (const name of removed)].  The boolean is false when
    the wrapper taken from [imgs] is undefined, where [img.classList]
    throws and the [catch] ends the refresh. *)
Definition remove_one (name : string) (st : Roster) : Roster * list Effect * bool :=
  let st1 := set_nameList (splice1 (indexOf_name name (nameList st)) (nameList st)) st in
  let idx := indexOf_name name (imgs st1) in
  let img := spliced idx (imgs st1) in
  let st2 := set_imgs (splice1 idx (imgs st1)) st1 in
  let st3 :=
    match indexOf_name name (left st2) with
    | Some i => set_left (splice1 (Some i) (left st2)) st2
    | None =>
      match indexOf_name name (right st2) with
      | Some i => set_right (splice1 (Some i) (right st2)) st2
      | None => set_current None st2
      end
    end in
  match img with
  | Some w => (st3, [WrapperRemoved w], true)
  | None => (st3, [], false)
  end.

Fixpoint remove_loop (removed : list string) (st : Roster)
  : Roster * list Effect * bool :=
  match removed with
  | [] => (st, [], true)
  | name :: rest =>
    match remove_one name st with
    | (st', eff, true) =>
      let '(st'', eff', ok) := remove_loop rest st' in (st'', eff ++ eff', ok)
    | (st', eff, false) => (st', eff, false)
    end
  end.

(** One of the two loops [while (cap != -1 && side.length > cap)
    purgatory.push(side.pop())], on the side in reverse order, so that
    [pop] takes the head.  For [cap < -1] the source never leaves the
    loop; the settings form keeps the capacities at [-1] or above. *)
Fixpoint pop_loop (cap : Z) (rside : list string) (purgatory : list string)
  : list string * list string :=
  match rside with
  | [] => ([], purgatory)
  | x :: r =>
    if negb (Z.eqb cap (-1)) && Z.gtb (Z.of_nat (length rside)) cap
    then pop_loop cap r (purgatory ++ [x])
    else (rside, purgatory)
  end.

Definition shrink (s : Settings) (st : Roster) : Roster * list string :=
  let '(rl, p1) := pop_loop (numLeft s) (rev (left st)) [] in
  let '(rr, p2) := pop_loop (numRight s) (rev (right st)) p1 in
  (set_right (rev rr) (set_left (rev rl) st), p2).

(** Where the side-selection chain, which the source repeats in its
    three placement loops, sends a name. *)
Inductive Placement := AsCurrent | ToLeft | ToRight | Nowhere.

Definition side_for (s : Settings) (st : Roster) : Placement :=
  let l := Z.of_nat (length (left st)) in
  let r := Z.of_nat (length (right st)) in
  if negb (truthy (current st)) then AsCurrent
  else if (Z.ltb l (numLeft s) || Z.eqb (numLeft s) (-1))
          && (Z.leb l r || Z.geb r (numRight s)) then ToLeft
  else if Z.ltb r (numRight s) || Z.eqb (numRight s) (-1) then ToRight
  else Nowhere.

Definition place (s : Settings) (name : string) (st : Roster) : Roster :=
  match side_for s st with
  | AsCurrent => set_current (Some name) st
  | ToLeft => set_left (left st ++ [name]) st
  | ToRight => set_right (right st ++ [name]) st
  | Nowhere => st
  end.

(** The body of [for (const name of added)]. *)
Definition add_one (s : Settings) (name : string) (st : Roster) : Roster :=
  let st1 := set_nameList (nameList st ++ [name]) st in
  let st2 := place s name st1 in
  set_imgs (imgs st2 ++ [name]) st2.

Definition add_loop (s : Settings) (added : list string) (st : Roster)
  : Roster * list Effect :=
  (fold_left (fun st name => add_one s name st) added st, map WrapperCreated added).

(** The body of [for (const name of purgatory)]: a name that finds no
    place has its wrapper, if there is one, taken out of the document. *)
Definition replace_one (s : Settings) (acc : Roster * list Effect) (name : string)
  : Roster * list Effect :=
  let '(st, eff) := acc in
  match side_for s st with
  | Nowhere =>
    (st, if includes name (imgs st) then eff ++ [WrapperRemoved name] else eff)
  | _ => (place s name st, eff)
  end.

(** [it != current] for a name [it]. *)
Definition is_current (st : Roster) (it : string) : bool :=
  match current st with
  | Some c => String.eqb it c
  | None => false
  end.

(** The array [queue] of the backfill pass. *)
Definition backfill_queue (st : Roster) : list string :=
  filter (fun it => negb (includes it (left st)) && negb (includes it (right st))
                    && negb (is_current st it))
         (nameList st).

(** The condition of the backfill loop, apart from [queue.length > 0]. *)
Definition room (s : Settings) (st : Roster) : bool :=
  Z.eqb (numLeft s) (-1) || Z.eqb (numRight s) (-1)
  || Z.ltb (Z.of_nat (length (left st))) (numLeft s)
  || Z.ltb (Z.of_nat (length (right st))) (numRight s)
  || negb (truthy (current st)).

(** The backfill loop on the queue in reverse order, so that [pop] takes
    the head. *)
Fixpoint backfill_loop (s : Settings) (rqueue : list string) (st : Roster) : Roster :=
  match rqueue with
  | [] => st
  | name :: rest => if room s st then backfill_loop s rest (place s name st) else st
  end.

(** [updateMembers] from the computation of [removed] and [added] on,
    for the desired list [names], in a run where every awaited image
    lookup resolves; calls do not overlap (the [busy] guard only drops a
    call made while another is under way).  [updateMembers_with] below is
    the function with the lookups that reject. *)
Definition updateMembers (s : Settings) (names : list string) (st : Roster)
  : Roster * list Effect :=
  let removed := filter (fun it => negb (includes it names)) (nameList st) in
  let added := filter (fun it => negb (includes it (nameList st))) names in
  match remove_loop removed st with
  | (st1, eff1, false) => (st1, eff1)
  | (st1, eff1, true) =>
    let '(st2, purgatory) := shrink s st1 in
    let '(st3, eff3) := add_loop s added st2 in
    let '(st4, eff4) := fold_left (replace_one s) purgatory (st3, []) in
    (backfill_loop s (rev (backfill_queue st4)) st4, eff1 ++ eff3 ++ eff4)
  end.

(** The loop [for (const name of added)] with its awaited image lookup.
    [resolves name] says whether [await findImage(...)] in the iteration
    for [name] resolves; when the lookup rejects (the [fetch] failed) the
    exception leaves the loop for the [catch] of [updateMembers], after
    the name was pushed, placed and given its wrapper.  The boolean is
    false when the loop was left in this way. *)
Fixpoint add_loop_with (resolves : string -> bool) (s : Settings)
  (added : list string) (st : Roster) : Roster * list Effect * bool :=
  match added with
  | [] => (st, [], true)
  | name :: rest =>
    let st1 := add_one s name st in
    if resolves name then
      let '(st2, eff, ok) := add_loop_with resolves s rest st1 in
      (st2, WrapperCreated name :: eff, ok)
    else (st1, [WrapperCreated name], false)
  end.

(** The added names the loop reaches: all of them up to and including
    the first one whose lookup rejects. *)
Fixpoint attempted (resolves : string -> bool) (added : list string) : list string :=
  match added with
  | [] => []
  | name :: rest => name :: (if resolves name then attempted resolves rest else [])
  end.

(** [updateMembers] from the computation of [removed] and [added] on: an
    exception in the removal loop or a rejected lookup in the add loop
    ends the refresh at the [catch], and the passes that follow are not
    run. *)
Definition updateMembers_with (resolves : string -> bool) (s : Settings)
  (names : list string) (st : Roster) : Roster * list Effect :=
  let removed := filter (fun it => negb (includes it names)) (nameList st) in
  let added := filter (fun it => negb (includes it (nameList st))) names in
  match remove_loop removed st with
  | (st1, eff1, false) => (st1, eff1)
  | (st1, eff1, true) =>
    let '(st2, purgatory) := shrink s st1 in
    match add_loop_with resolves s added st2 with
    | (st3, eff3, false) => (st3, eff1 ++ eff3)
    | (st3, eff3, true) =>
      let '(st4, eff4) := fold_left (replace_one s) purgatory (st3, []) in
      (backfill_loop s (rev (backfill_queue st4)) st4, eff1 ++ eff3 ++ eff4)
    end
  end.

(** A name has a place: it is on a side or is the current one. *)
Definition assigned (st : Roster) (n : string) : Prop :=
  In n (left st) \/ In n (right st) \/ current st = Some n.

(** [l.splice(l.indexOf(name), 1)]. *)
Definition remove_first (name : string) (l : list string) : list string :=
  splice1 (indexOf_name name l) l.

(** Both sides respect their capacity, when it is bounded. *)
Definition within_caps (s : Settings) (st : Roster) : Prop :=
  (numLeft s <> (-1)%Z -> (Z.of_nat (length (left st)) <= numLeft s)%Z) /\
  (numRight s <> (-1)%Z -> (Z.of_nat (length (right st)) <= numRight s)%Z).

End RosterEngine.

Import RosterEngine.

(** ** Order from the chat history *)

Module HistoryOrder.

(** The index of the first match of the pattern for [name] in [text]:
    [regex.test(text)] followed by [regex.exec(text).index], for a regex
    without the [g] flag, which always searches from the start. *)
Definition first_match (ignoreCase : bool) (name text : string) : option nat :=
  option_map fst
    (exec_from ignoreCase (list_ascii_of_string name) (list_ascii_of_string text) 0).

(** The loop [for (const m of members)] that fills [mesmem] with the
    names found in the message and the index of their match. *)
Fixpoint collect_mesmem (ignoreCase : bool) (members : list string) (text : string)
  : list (string * nat) :=
  match members with
  | [] => []
  | m :: rest =>
    match first_match ignoreCase m text with
    | Some index => (m, index) :: collect_mesmem ignoreCase rest text
    | None => collect_mesmem ignoreCase rest text
    end
  end.

(** [mesmem.sort((a, b) => a[1].index - b[1].index)], a stable sort. *)
Fixpoint insert_by_index (x : string * nat) (l : list (string * nat))
  : list (string * nat) :=
  match l with
  | [] => [x]
  | y :: r => if snd y <? snd x then y :: insert_by_index x r else x :: l
  end.

Definition sort_by_index (l : list (string * nat)) : list (string * nat) :=
  fold_right insert_by_index [] l.

(** [list.filter((it, idx, list) => idx == list.indexOf(it))], on the
    elements [l] of the array [whole] from index [idx] on. *)
Fixpoint filter_first (whole l : list string) (idx : nat) : list string :=
  match l with
  | [] => []
  | it :: r =>
    if match indexOf_name it whole with
       | Some k => Nat.eqb idx k
       | None => false
       end
    then it :: filter_first whole r (S idx)
    else filter_first whole r (S idx)
  end.

Definition first_occurrences (whole : list string) : list string :=
  filter_first whole whole 0.

(** The loop [for (const m of mesmem) members.splice(members.indexOf(m[0]), 1)]. *)
Definition drop_found (mesmem : list (string * nat)) (members : list string)
  : list string :=
  fold_left (fun ms m => splice1 (indexOf_name (fst m) ms) ms) mesmem members.

(** The loop [for (const mes of mesList)], with the variables [members]
    and [o]. *)
Fixpoint order_loop (ignoreCase : bool) (mesList : list Message)
  (members o : list string) : list string :=
  match mesList with
  | [] => o
  | m :: rest =>
    let mesmem := sort_by_index (collect_mesmem ignoreCase members (mes m)) in
    order_loop ignoreCase rest (drop_found mesmem members)
               (o ++ first_occurrences (map fst mesmem))
  end.

(** [chat.filter(it => !it.is_system && !it.is_user).toReversed()]. *)
Definition mesList_of (chat : list Message) : list Message :=
  rev (filter (fun it => negb (is_system it) && negb (is_user it)) chat).

Definition order_from_text (ignoreCase : bool) (chat : list Message)
  (members : list string) : list string :=
  order_loop ignoreCase (mesList_of chat) members [].

(** The regexes of [getOrderFromText] are built without flags. *)
Definition getOrderFromText (chat : list Message) (members : list string)
  : list string :=
  order_from_text false chat members.

(** The ordering with the matching rule of the presence counter, as the
    specification words it: the same loop with the [i] flag. *)
Definition order_from_text_spec (chat : list Message) (members : list string)
  : list string :=
  order_from_text true chat members.

(** [before a b l]: [a] and [b] are in [l] and [a] comes first. *)
Definition before (a b : string) (l : list string) : Prop :=
  exists i j, indexOf_name a l = Some i /\ indexOf_name b l = Some j /\ i < j.

(** The pattern for the name [m] matches in [text]. *)
Definition found (ignoreCase : bool) (text : string) (m : string) : bool :=
  match first_match ignoreCase m text with Some _ => true | None => false end.

(** Sorted by index: every entry is no greater than the later ones. *)
Fixpoint index_sorted (l : list (string * nat)) : Prop :=
  match l with
  | [] => True
  | x :: r => (forall y, In y r -> snd x <= snd y) /\ index_sorted r
  end.

End HistoryOrder.

Import HistoryOrder.

(** ** RestartGuard *)

Module RestartGuard.

Section Debounce.

(** The wrapped function acts on the rest of the program, the [World],
    and returns a value. *)
Variables Args Result World : Type.
Variable func : Args -> World -> World * Result.
Variable timeout : nat.

(** The closure variables of [debounceAsync] with what the event loop
    holds for it.  [timer] is the pending timeout, with the time it is
    due and the arguments its callback captured; promises are numbered
    in the order of their creation; [settled] lists the promises resolved
    so far with their values and [executed] the calls of [func]. *)
Record State := mkState {
  timer : option (nat * Args);
  debouncePromise : option nat;
  debounceResolver : option nat;
  created : nat;
  settled : list (nat * Result);
  executed : list Args;
  world : World
}.

(** The timer callback:
    [debounceResolver(func.apply(this, args)); debouncePromise = null]. *)
Definition fire (args : Args) (st : State) : State :=
  let '(w, r) := func args (world st) in
  mkState None None (debounceResolver st) (created st)
          (match debounceResolver st with
           | Some p => settled st ++ [(p, r)]
           | None => settled st
           end)
          (executed st ++ [args]) w.

(** The event loop reaching time [now]: a timer that is due runs. *)
Definition advance (now : nat) (st : State) : State :=
  match timer st with
  | Some (due, args) => if due <=? now then fire args st else st
  | None => st
  end.

(** A call of the debounced function at time [now]: [clearTimeout], the
    promise created when there is none, the new timer.  The result is
    the promise returned to the caller. *)
Definition invoke (now : nat) (args : Args) (st : State) : State * nat :=
  let st := advance now st in
  match debouncePromise st with
  | Some p =>
    (mkState (Some (now + timeout, args)) (Some p) (debounceResolver st)
             (created st) (settled st) (executed st) (world st), p)
  | None =>
    let p := created st in
    (mkState (Some (now + timeout, args)) (Some p) (Some p)
             (S p) (settled st) (executed st) (world st), p)
  end.

(** Calls one after the other, each at its time, with the promises they
    return. *)
Fixpoint invoke_all (calls : list (nat * Args)) (st : State) : State * list nat :=
  match calls with
  | [] => (st, [])
  | (now, args) :: rest =>
    let '(st1, p) := invoke now args st in
    let '(st2, ps) := invoke_all rest st1 in
    (st2, p :: ps)
  end.

(** Every call comes before the timer of the previous one is due. *)
Fixpoint within_window (prev : nat) (calls : list (nat * Args)) : Prop :=
  match calls with
  | [] => True
  | (now, _) :: rest => prev <= now < prev + timeout /\ within_window now rest
  end.

Definition idle (st : State) : Prop :=
  timer st = None /\ debouncePromise st = None.

End Debounce.

(** The state [restart] guards: the flag [restarting] and the number of
    restart sequences begun so far (each runs [end()], waits, then runs
    [start()]). *)
Record Engine := mkEngine { restarting : bool; restarts : nat }.

(** The function handed to [debounceAsync], up to its first [await]:
    it returns at once when a sequence is under way, else it raises the
    flag and begins one.  The value says whether a sequence began. *)
Definition restart_body (_ : unit) (e : Engine) : Engine * bool :=
  if restarting e then (e, false)
  else (mkEngine true (S (restarts e)), true).

(** The end of the sequence: [restarting = false]. *)
Definition restart_end (e : Engine) : Engine := mkEngine false (restarts e).

(** [debounceAsync] is called without a timeout: the default, 300. *)
Definition restart_timeout : nat := 300.

Definition trigger (now : nat) : nat * unit := (now, tt).

End RestartGuard.

Import RestartGuard.

Open Scope string_scope.
Open Scope nat_scope.
Open Scope list_scope.

(** Sample data for the worked examples. *)

Definition str (s : string) : list ascii := list_ascii_of_string s.

Definition no_settings : ChatSettings := mkChatSettings [] [].

Definition one_each : Settings := mkSettings 1 1.

Definition said (who text : string) : Message := mkMessage text who false false.

(** ** The regex cache *)

Module RegexCache.

(** The outcome of a call that may throw. *)
Inductive Outcome (A : Type) : Type :=
| Returns (a : A)
| Throws.

Arguments Returns {A} a.
Arguments Throws {A}.

(** A truthy value of [regexCache[key]]: a regex that [makeWordRegex]
    built, with the name it was built from, or a property that the
    object inherits from [Object.prototype]. *)
Inductive Cached :=
| BuiltFrom (name : list ascii)
| Inherited.

(** The own properties of [regexCache]: the keys with the name the regex
    under the key was built from. *)
Definition Cache := list (string * list ascii).

(** The keys under which the empty object [regexCache] holds a truthy
    value from the start, inherited from [Object.prototype].  A key is in
    lower case, and the other inherited properties ([toString],
    [hasOwnProperty], ...) have a capital in their names. *)
Definition inherited_key (key : string) : bool :=
  String.eqb key "constructor" || String.eqb key "__proto__".

(** [String(name).toLowerCase()]. *)
Definition key_of (name : list ascii) : string :=
  string_of_list_ascii (toLowerCase name).

Fixpoint own (key : string) (cache : Cache) : option (list ascii) :=
  match cache with
  | [] => None
  | (k, name) :: rest => if String.eqb k key then Some name else own key rest
  end.

(** [regexCache[key]] when it is truthy: an own property first, then the
    inherited ones. *)
Definition get (cache : Cache) (key : string) : option Cached :=
  match own key cache with
  | Some name => Some (BuiltFrom name)
  | None => if inherited_key key then Some Inherited else None
  end.

(** [makeWordRegex(name)], with the cache it leaves. *)
Definition makeWordRegex (cache : Cache) (name : list ascii) : Cached * Cache :=
  let key := key_of name in
  match get cache key with
  | Some rx => (rx, cache)
  | None => (BuiltFrom name, (key, name) :: cache)
  end.

(** [countOccurrencesOutsideBrackets(name, nonBracketSpans)].  For a
    regex of the cache [new RegExp(rx.source, rx.flags)] is the regex of
    the name it was built from, and the loop is the one of
    [PresenceCounter].  For an inherited value [rx.source] and [rx.flags]
    are undefined, the fresh regex has no [g] flag, and [hay.matchAll]
    throws at the first span whose text is not empty. *)
Definition countOccurrencesOutsideBrackets (cache : Cache) (name : list ascii)
  (nonBracketSpans : list PlainSpan) : Outcome Occurrences * Cache :=
  let '(rx, cache') := makeWordRegex cache name in
  (match rx with
   | BuiltFrom src =>
     Returns (PresenceCounter.countOccurrencesOutsideBrackets src nonBracketSpans)
   | Inherited =>
     if forallb (fun sp => match p_text sp with [] => true | _ => false end)
                nonBracketSpans
     then Returns (mkOcc 0 None) else Throws
   end, cache').

(** The loop [for (let i = 0; i < nameList.length; i++)] of the
    resolver, with the cache; an exception of the counter ends it. *)
Fixpoint collect_loop (cache : Cache) (cs : ChatSettings) (spans : list PlainSpan)
  (names : list string) (i : nat) (items : list Item)
  : Outcome (list Item) * Cache :=
  match names with
  | [] => (Returns items, cache)
  | name :: rest =>
    if excluded cs name then collect_loop cache cs spans rest (S i) items
    else
      match countOccurrencesOutsideBrackets cache (list_ascii_of_string name) spans with
      | (Returns occ, cache') =>
        collect_loop cache' cs spans rest (S i)
          (if 0 <? count occ
           then items ++ [mkItem name (count occ) (firstIndex occ) i false]
           else items)
      | (Throws, cache') => (Throws, cache')
      end
  end.

(** [getPresentOrderedNames(lastMes, nameList)]: the promise is
    fulfilled with the names, or rejected when the counter throws. *)
Definition getPresentOrderedNames (cache : Cache) (cs : ChatSettings)
  (lastMes : option Message) (nameList : list string)
  : Outcome (list string) * Cache :=
  let user := USER_NAME cs nameList in
  if String.eqb (message_text lastMes) EmptyString && from_user lastMes then
    (Returns match user with
             | Some u => if truthy user then [u] else []
             | None => []
             end, cache)
  else
    match collect_loop cache cs
            (plain_spans (list_ascii_of_string (message_text lastMes))) nameList 0 []
    with
    | (Returns items, cache') =>
      (Returns
         (map i_name
            (force (from_user lastMes) user
               (demote (from_user lastMes) user
                  (sort_items (ensure_user (from_user lastMes) user items))))),
       cache')
    | (Throws, cache') => (Throws, cache')
    end.

(** Every regex of the cache was built from a name with the key it is
    kept under, as in every cache that [makeWordRegex] has filled. *)
Definition consistent (cache : Cache) : Prop :=
  Forall (fun entry => key_of (snd entry) = fst entry) cache.

End RegexCache.

(** ** The restart sequence *)

Module RestartSequence.

(** The restart engine with the time at which the sequence under way
    will reach [restarting = false]; none when no sequence is under way,
    or when it never gets there. *)
Record Timed := mkTimed { engine : Engine; ends : option nat }.

(** [Math.max(550, settings.transition + 150)]: the wait between [end()]
    and [start()]; [start()] has no wait of its own.  Modelled from its
    use: [delay(ms)] (imported from [utils.js], which is not part of the
    sources) is a promise that a timer resolves after [ms]
    milliseconds. *)
Definition restart_wait (transition : nat) : nat := Nat.max 550 (transition + 150).

(** The engine at time [now]: the sequence under way has run
    [restarting = false] when its end has come.  The timer of the wait
    was set before any debounce timer that is due at the same time, so
    at a tie the sequence ends first. *)
Definition settle (now : nat) (w : Timed) : Timed :=
  match ends w with
  | Some e => if e <=? now then mkTimed (restart_end (engine w)) None else w
  | None => w
  end.

(** A restart sequence is under way at time [now]. *)
Definition executing (now : nat) (w : Timed) : bool :=
  restarting (engine (settle now w)).

(** The function handed to [debounceAsync], run at time [at_]: the guard,
    then a sequence that ends [restart_wait] later.  The value says
    whether a sequence began. *)
Definition restart (transition : nat) (at_ : nat) (w : Timed) : Timed * bool :=
  let w1 := settle at_ w in
  let '(e, began) := restart_body tt (engine w1) in
  (mkTimed e (if began then Some (at_ + restart_wait transition) else ends w1), began).

(** A trigger at time [now]: the call, with the time at which its timer
    is due, which is when the function runs if no later call replaces
    the timer. *)
Definition trigger_at (now : nat) : nat * nat := (now, now + restart_timeout).

End RestartSequence.

Import RestartSequence.

(** ** Notions used by the further properties *)

(** The shape of one bracket span: it opens at a token and either closes
    at the next same token or, for want of one, runs to the end. *)
Definition bracket_shape (text : list ascii) (b : Span) : Prop :=
  exists ch, is_token ch = true /\ nth_error text (start b) = Some ch /\
    ((start b + 1 < end_ b /\ nth_error text (end_ b - 1) = Some ch /\
      forall k, start b < k < end_ b - 1 -> nth_error text k <> Some ch)
     \/ (end_ b = length text /\
         forall k, start b < k -> nth_error text k <> Some ch)).

(** A first index is no later than another, null counting as
    [Infinity]. *)
Definition index_le (a b : option nat) : Prop :=
  match a, b with
  | Some x, Some y => x <= y
  | _, None => True
  | None, Some _ => False
  end.

(** The order [items.sort] aims at: higher count first, then earlier
    first index, then lower master index. *)
Definition item_before (a b : Item) : Prop :=
  i_count b < i_count a \/
  (i_count a = i_count b /\
   ((index_le (i_firstIndex a) (i_firstIndex b) /\ i_firstIndex a <> i_firstIndex b) \/
    (i_firstIndex a = i_firstIndex b /\ i_masterIndex a <= i_masterIndex b))).

(** The current name as a list of at most one name. *)
Definition cur_list (st : Roster) : list string :=
  match current st with
  | Some c => [c]
  | None => []
  end.

(** The names that have a place. *)
Definition placed (st : Roster) : list string :=
  left st ++ right st ++ cur_list st.

(** The invariant of the roster: no name is tracked twice, no name has
    two places, and every name that has a place is tracked. *)
Definition roster_ok (st : Roster) : Prop :=
  NoDup (nameList st) /\ NoDup (placed st) /\ incl (placed st) (nameList st).

(** Names waiting for a place: distinct, tracked, without a place. *)
Definition waiting (st : Roster) (ns : list string) : Prop :=
  NoDup ns /\ forall n, In n ns -> ~ In n (placed st) /\ In n (nameList st).

(** The left side takes no further name: the negation of the test
    [left.length < numLeft || numLeft == -1] of the placement chain. *)
Definition left_full (s : Settings) (st : Roster) : Prop :=
  ~ ((Z.of_nat (length (left st)) < numLeft s)%Z \/ numLeft s = (-1)%Z).

(** The test [right.length >= numRight] of the placement chain, which an
    unbounded right side always passes. *)
Definition right_full (s : Settings) (st : Roster) : Prop :=
  (numRight s <= Z.of_nat (length (right st)))%Z.

(** The two sides are in balance: the left is at most one name longer
    than the right unless the test for a full right side holds, and the
    right is no longer than the left unless the left is full. *)
Definition balanced (s : Settings) (st : Roster) : Prop :=
  (length (left st) <= length (right st) + 1 \/ right_full s st) /\
  (length (right st) <= length (left st) \/ left_full s st).

(** The invariant of the placement chain on a roster built from the
    empty one. *)
Definition fair (s : Settings) (st : Roster) : Prop :=
  balanced s st /\ (numRight s = (-1)%Z -> right st = [] \/ left_full s st).

(** ** The desired names of a refresh *)

Module DesiredNames.

(** [chat.filter(it => !it.is_system && !it.is_user &&
    members.indexOf(it.name) > -1).toReversed()]. *)
Definition spoken_by (members : list string) (it : Message) : bool :=
  negb (is_system it) && negb (is_user it) && includes (msg_name it) members.

Definition speakers_of (chat : list Message) (members : list string) : list Message :=
  rev (filter (spoken_by members) chat).

(** The loop [for (const mes of mesList)] of [getOrder], with the array
    [o]: a name not yet in [o] is put in front, and the loop is left once
    [o] is as long as [members]. *)
Fixpoint getOrder_loop (members : list string) (mesList : list Message)
  (o : list string) : list string :=
  match mesList with
  | [] => o
  | mes :: rest =>
    if negb (includes (msg_name mes) o) then
      let o' := msg_name mes :: o in
      if length members <=? length o' then o' else getOrder_loop members rest o'
    else getOrder_loop members rest o
  end.

Definition getOrder (chat : list Message) (members : list string) : list string :=
  getOrder_loop members (speakers_of chat members) [].

(** The loop of [getOrder] without its early exit, on the names of the
    messages: the loop the exit is compared with. *)
Fixpoint unshift_new (l o : list string) : list string :=
  match l with
  | [] => o
  | x :: r => if negb (includes x o) then unshift_new r (x :: o) else unshift_new r o
  end.

(** [names.find(it => it == m)]. *)
Definition find_name (m : string) (names : list string) : option string :=
  find (fun it => String.eqb it m) names.

(** The branch [if (csettings.members?.length)]: the members in the
    order of the history, then the members that [names.find] does not
    give back as a truthy value. *)
Definition custom_names (chat : list Message) (members : list string) : list string :=
  let names := getOrderFromText chat members in
  names ++ filter (fun m => negb (truthy (find_name m names))) members.

(** A character card: its avatar, by which a group lists its members,
    and its name. *)
Record Character := mkCharacter { avatar : string; ch_name : string }.

(** [group.members.map(m => characters.find(c => c.avatar == m)).filter(it => it)]. *)
Definition group_characters (characters : list Character) (avatars : list string)
  : list Character :=
  flat_map (fun found => match found with Some c => [c] | None => [] end)
           (map (fun m => find (fun c => String.eqb (avatar c) m) characters) avatars).

(** The branch [else if (groupId)], for the array [members] of the
    group's characters. *)
Definition group_names (cs : ChatSettings) (chat : list Message)
  (members : list Character) : list string :=
  let names := filter (fun it => negb (excluded cs it))
                      (getOrder chat (map ch_name members)) in
  names ++ filter (fun it => negb (excluded cs it))
             (map ch_name
                (filter (fun m => negb (truthy (find_name (ch_name m) names))) members)).

(** The array [names] of [updateMembers]: [group] is the list
    [group.members] of the avatars of the group [groupId] names, when
    [groupId] is set, and [character] the name of the character
    [context.characterId] names, when it is set. *)
Definition desired_names (cs : ChatSettings) (chat : list Message)
  (characters : list Character) (group : option (list string))
  (character : option string) : list string :=
  match members cs with
  | _ :: _ => custom_names chat (members cs)
  | [] =>
    match group with
    | Some avatars => group_names cs chat (group_characters characters avatars)
    | None =>
      match character with
      | Some n => [n]
      | None => []
      end
    end
  end.

(** [updateMembers] as a whole: the desired names, then the refresh,
    with the image lookups that resolve or reject. *)
Definition refresh (resolves : string -> bool) (cs : ChatSettings) (s : Settings)
  (chat : list Message) (characters : list Character) (group : option (list string))
  (character : option string) (st : Roster) : Roster * list Effect :=
  updateMembers_with resolves s (desired_names cs chat characters group character) st.

(** The filter of [getOrderFromText] on the chat. *)
Definition narrated (it : Message) : bool := negb (is_system it) && negb (is_user it).

End DesiredNames.

Import DesiredNames.

(** ** The name fields of the settings form *)

Module SettingsField.

(** The class [\s] on the code units below 256: tab, line feed,
    vertical tab, form feed, carriage return, space and the no-break
    space. *)
Definition isSpace (c : ascii) : bool :=
  let n := nat_of_ascii c in
  (9 <=? n) && (n <=? 13) || (n =? 32) || (n =? 160).

Definition comma : ascii := ","%char.

(** The number of characters of the class [\s] at the head of [l]. *)
Fixpoint spaces (l : list ascii) : nat :=
  match l with
  | c :: r => if isSpace c then S (spaces r) else 0
  | [] => 0
  end.

(** The match of the regex [\s*,\s*] at the head of [l]: its length,
    when there is one.  Both stars are greedy, and giving back white
    space never helps, a comma being none. *)
Definition separator_at (l : list ascii) : option nat :=
  let k := spaces l in
  match skipn k l with
  | c :: r => if Ascii.eqb c comma then Some (k + 1 + spaces r) else None
  | [] => None
  end.

(** [text.split(/\s*,\s*/)], scanning [l]: the first [skip] characters
    belong to the separator matched last, and [piece] is the text read
    since the end of that separator.  At the end of the text the last
    piece is given, also when it is empty. *)
Fixpoint split_loop (l : list ascii) (skip : nat) (piece : list ascii)
  : list (list ascii) :=
  match l with
  | [] => [piece]
  | c :: r =>
    match skip with
    | S k => split_loop r k piece
    | 0 =>
      match separator_at l with
      | Some n => piece :: split_loop r (n - 1) []
      | None => split_loop r 0 (piece ++ [c])
      end
    end
  end.

Definition split (text : list ascii) : list (list ascii) := split_loop text 0 [].

(** [value.split(/\s*,\s*/).filter(it => it.length)], the handler of the
    members field. *)
Definition parse_names (value : string) : list string :=
  map string_of_list_ascii
      (filter (fun it => negb (length it =? 0)) (split (list_ascii_of_string value))).

(** The handler of the exclude field, which lowers the value first. *)
Definition parse_exclude (value : string) : list string :=
  parse_names (lower value).

(** A line feed or a carriage return. *)
Definition is_newline (c : ascii) : bool :=
  (nat_of_ascii c =? 10) || (nat_of_ascii c =? 13).

(** The value sanitization of a text input: line feeds and carriage
    returns are stripped from a value assigned to it. *)
Definition strip_newlines (value : string) : string :=
  string_of_list_ascii
    (filter (fun c => negb (is_newline c)) (list_ascii_of_string value)).

(** The value of a name field after [chatChanged] has assigned it
    [list.join(', ')]: both fields are inputs of type text. *)
Definition field_value (l : list string) : string :=
  strip_newlines (String.concat ", " l).

(** A name the fields can hold as it is: not empty, without a comma,
    and with no white space at either end. *)
Definition tidy (e : list ascii) : Prop :=
  e <> [] /\ ~ In comma e /\
  isSpace (hd comma e) = false /\ isSpace (last e comma) = false.

Definition tidy_name (n : string) : Prop := tidy (list_ascii_of_string n).

End SettingsField.

Import SettingsField.

(** ** The render pass *)

Module RenderPass.

Inductive Area := LeftArea | RightArea.

(** A wrapper of [imgs] with what the pass reads and writes: the
    [data-character] attribute, the side area it is attached to (none
    when it is not in the document), the [--order] property and the
    classes [stge--exit], [stge--hidden] and [stge--last]. *)
Record Wrapper := mkWrapper {
  w_name : string;
  w_parent : option Area;
  w_order : option nat;
  w_exit : bool;
  w_hidden : bool;
  w_last : bool
}.

(** [wrapper.closest('.stge--root')], as a condition. *)
Definition attached (w : Wrapper) : bool :=
  match w_parent w with Some _ => true | None => false end.

(** [chat.toReversed().find(it => !it.is_system)]. *)
Definition lastMes (chat : list Message) : option Message :=
  find (fun it => negb (is_system it)) (rev chat).

(** [chat.toReversed().find(it => !it.is_user && !it.is_system &&
    nameList.find(o => it.name == o))]. *)
Definition lastCharMes (chat : list Message) (nameList : list string) : option Message :=
  find (fun it => negb (is_user it) && negb (is_system it)
                  && truthy (find (fun o => String.eqb (msg_name it) o) nameList))
       (rev chat).

(** [orderedNames.slice(0, 4)]. *)
Definition slots (cs : ChatSettings) (chat : list Message) (nameList : list string)
  : list string :=
  firstn 4 (getPresentOrderedNames cs (lastMes chat) nameList).

(** The chain that chooses [targetArea] from [visibleCount] and
    [slotIndex]. *)
Definition targetArea (visibleCount slotIndex : nat) : Area :=
  if visibleCount =? 1 then LeftArea
  else if visibleCount =? 2 then (if slotIndex =? 0 then LeftArea else RightArea)
  else if visibleCount =? 3 then (if slotIndex =? 0 then LeftArea else RightArea)
  else (if slotIndex <=? 1 then LeftArea else RightArea).

(** The body of [for (const wrapper of imgs)].  [areas] says whether the
    side areas exist, as they do between [start()] and [end()]; without
    them [targetArea?.append(wrapper)] does nothing. *)
Definition show_or_hide (areas : bool) (slots : list string) (w : Wrapper) : Wrapper :=
  match indexOf_name (w_name w) slots with
  | Some slotIndex =>
    if attached w
    then mkWrapper (w_name w) (w_parent w) (Some slotIndex) (w_exit w) false (w_last w)
    else mkWrapper (w_name w)
                   (if areas then Some (targetArea (length slots) slotIndex) else None)
                   (Some slotIndex) false false (w_last w)
  | None =>
    if attached w
    then mkWrapper (w_name w) None None true (w_hidden w) (w_last w)
    else mkWrapper (w_name w) None None (w_exit w) true (w_last w)
  end.

(** [imgs.filter(it => it.classList.contains('stge--last'))
    .forEach(it => it.classList.remove('stge--last'))]. *)
Definition clear_last (w : Wrapper) : Wrapper :=
  mkWrapper (w_name w) (w_parent w) (w_order w) (w_exit w) (w_hidden w) false.

(** [wrap.classList.add('stge--last')] on the wrapper
    [imgs.find(it => it.getAttribute('data-character') == primary &&
    it.closest('.stge--root'))], when there is one. *)
Fixpoint add_last (primary : string) (imgs : list Wrapper) : list Wrapper :=
  match imgs with
  | [] => []
  | w :: r =>
    if String.eqb (w_name w) primary && attached w
    then mkWrapper (w_name w) (w_parent w) (w_order w) (w_exit w) (w_hidden w) true :: r
    else w :: add_last primary r
  end.

(** The block [if (lastMes?.is_user === false)]. *)
Definition mark_last (chat : list Message) (nameList slots : list string)
  (imgs : list Wrapper) : list Wrapper :=
  match lastMes chat with
  | Some m =>
    if negb (is_user m) then
      match slots, lastCharMes chat nameList with
      | primary :: _, Some c =>
        if truthy (Some primary) && String.eqb primary (msg_name c)
        then add_last primary imgs
        else imgs
      | _, _ => imgs
      end
    else imgs
  | None => imgs
  end.

(** One pass of the loop of [messageRendered] after [updateMembers]:
    the marks cleared, every wrapper shown or hidden, the last speaker
    marked.  No other handler runs during the waits of the pass. *)
Definition render_pass (cs : ChatSettings) (areas : bool) (chat : list Message)
  (nameList : list string) (imgs : list Wrapper) : list Wrapper :=
  let sl := slots cs chat nameList in
  mark_last chat nameList sl (map (show_or_hide areas sl) (map clear_last imgs)).

(** Two wrappers that differ at most in the class [stge--last]. *)
Definition same_but_last (w w' : Wrapper) : Prop :=
  w_name w' = w_name w /\ w_parent w' = w_parent w /\ w_order w' = w_order w /\
  w_exit w' = w_exit w /\ w_hidden w' = w_hidden w.

End RenderPass.

Import RenderPass.

(** * Part II: facts and theorems *)

(** ** The span scanner *)

Section SpanScannerFacts.

Lemma nth_error_Some_lt (A : Type) (l : list A) (n : nat) (x : A) :
  nth_error l n = Some x -> n < length l.
Proof. intros H; apply nth_error_Some; congruence. Qed.

Lemma indexOf_aux_bounds ch l pos j :
  indexOf_aux ch l pos = Some j -> pos <= j < pos + length l.
Proof.
  revert pos; induction l as [|c r IH]; intros pos; simpl; [discriminate|].
  destruct (Ascii.eqb c ch).
  - intros [= <-]; lia.
  - intros H; apply IH in H; lia.
Qed.

Lemma indexOf_bounds ch text from j :
  indexOf ch text from = Some j -> from <= j < length text.
Proof.
  unfold indexOf; intros H; apply indexOf_aux_bounds in H.
  rewrite length_skipn in H; lia.
Qed.

Lemma indexOf_aux_hit ch l pos j :
  indexOf_aux ch l pos = Some j ->
  nth_error l (j - pos) = Some ch /\
  forall k, k < j - pos -> nth_error l k <> Some ch.
Proof.
  revert pos; induction l as [|c r IH]; intros pos; simpl; [discriminate|].
  destruct (Ascii.eqb c ch) eqn:E.
  - intros [= <-]; apply Ascii.eqb_eq in E; subst.
    rewrite Nat.sub_diag; split; [reflexivity | intros k Hk; lia].
  - intros H. pose proof (indexOf_aux_bounds _ _ _ H) as Hb.
    destruct (IH _ H) as [Hn Hm].
    replace (j - pos) with (S (j - S pos)) by lia; split; [exact Hn|].
    intros [|k] Hk; simpl.
    + intros [= ->]; rewrite Ascii.eqb_refl in E; discriminate.
    + apply Hm; lia.
Qed.

(** [indexOf] returns the first occurrence at or after [from]. *)
Lemma indexOf_first ch text from j :
  indexOf ch text from = Some j ->
  nth_error text j = Some ch /\
  forall k, from <= k < j -> nth_error text k <> Some ch.
Proof.
  intros H; pose proof (indexOf_bounds _ _ _ H) as Hb.
  unfold indexOf in H; apply indexOf_aux_hit in H; destruct H as [Hn Hm].
  rewrite nth_error_skipn in Hn; replace (from + (j - from)) with j in Hn by lia.
  split; [exact Hn|].
  intros k Hk; specialize (Hm (k - from)).
  rewrite nth_error_skipn in Hm; replace (from + (k - from)) with k in Hm by lia.
  apply Hm; lia.
Qed.

(** The loop leaves through its own exit test within [length text - i]
    iterations: more fuel changes nothing. *)
Lemma parse_loop_fuel text : forall fuel1 fuel2 i,
  length text <= fuel1 + i -> length text <= fuel2 + i ->
  parse_loop fuel1 text i = parse_loop fuel2 text i.
Proof.
  induction fuel1 as [|f1 IH]; intros fuel2 i H1 H2.
  - destruct fuel2; simpl; [reflexivity|].
    destruct (nth_error text i) eqn:E; [|reflexivity].
    apply nth_error_Some_lt in E; lia.
  - destruct fuel2 as [|f2]; simpl.
    + destruct (nth_error text i) eqn:E; [|reflexivity].
      apply nth_error_Some_lt in E; lia.
    + destruct (nth_error text i) as [ch|] eqn:E; [|reflexivity].
      destruct (is_token ch).
      * destruct (indexOf ch text (i + 1)) as [j|] eqn:Ej; [|reflexivity].
        apply indexOf_bounds in Ej. f_equal. apply IH; lia.
      * apply IH; lia.
Qed.

Lemma chain_weaken lo lo' l hi : lo' <= lo -> chain lo l hi -> chain lo' l hi.
Proof.
  destruct l as [|b bs]; simpl; [lia|].
  intros Hle (H1 & H2 & H3); repeat split; [lia | exact H2 | exact H3].
Qed.

Lemma parse_loop_chain text : forall fuel i,
  i <= length text -> chain i (parse_loop fuel text i) (length text).
Proof.
  induction fuel as [|f IH]; intros i Hi; simpl; [exact Hi|].
  destruct (nth_error text i) as [ch|] eqn:E; [|exact Hi].
  apply nth_error_Some_lt in E.
  destruct (is_token ch).
  - destruct (indexOf ch text (i + 1)) as [j|] eqn:Ej; simpl.
    + apply indexOf_bounds in Ej. repeat split; try lia. apply IH; lia.
    + repeat split; lia.
  - apply chain_weaken with (lo := i + 1); [lia|]. apply IH; lia.
Qed.

Lemma chain_le lo l hi : chain lo l hi -> lo <= hi.
Proof.
  revert lo; induction l as [|b bs IH]; intros lo; simpl; [trivial|].
  intros (H1 & H2 & H3); apply IH in H3; lia.
Qed.

Lemma complement_loop_acc bs : forall spans cursor,
  complement_loop bs spans cursor =
  (spans ++ fst (complement_loop bs [] cursor), snd (complement_loop bs [] cursor)).
Proof.
  induction bs as [|b bs IH]; intros spans cursor; simpl.
  - now rewrite app_nil_r.
  - destruct (cursor <? start b).
    + rewrite IH. rewrite (IH [_]). simpl. now rewrite <- app_assoc.
    + apply IH.
Qed.

Lemma cover_count_app k l1 l2 :
  cover_count k (l1 ++ l2) = cover_count k l1 + cover_count k l2.
Proof. unfold cover_count; now rewrite filter_app, length_app. Qed.

Lemma cover_count_cons k s l :
  cover_count k (s :: l) = (if covers k s then 1 else 0) + cover_count k l.
Proof. unfold cover_count; simpl; now destruct (covers k s). Qed.

(** What the complement loop builds over a chain of brackets starting at
    the cursor: gaps that stay inside [[lo, hi]], ascending, ending no
    later than the final cursor, and that together with the brackets
    cover each index of [[lo, cursor')] once and no other index. *)
Lemma complement_loop_chain bs : forall lo hi,
  chain lo bs hi ->
  let gaps := fst (complement_loop bs [] lo) in
  let cursor' := snd (complement_loop bs [] lo) in
  lo <= cursor' <= hi /\
  Forall (fun s => lo <= start s /\ start s < end_ s /\ end_ s <= cursor') gaps /\
  ascending gaps /\
  forall k, cover_count k (gaps ++ bs) =
            if (lo <=? k) && (k <? cursor') then 1 else 0.
Proof.
  induction bs as [|b bs IH]; intros lo hi Hc; simpl in *.
  - repeat split; try lia; try constructor.
    intros k; unfold cover_count; simpl.
    destruct (lo <=? k) eqn:E1, (k <? lo) eqn:E2; try reflexivity.
    apply Nat.leb_le in E1; apply Nat.ltb_lt in E2; lia.
  - destruct Hc as (H1 & H2 & H3).
    rewrite Nat.max_r by lia.
    specialize (IH _ _ H3); simpl in IH.
    destruct IH as (Hb & Hall & Hasc & Hcov).
    rewrite complement_loop_acc; simpl.
    set (gaps := fst (complement_loop bs [] (end_ b))) in *.
    set (cursor' := snd (complement_loop bs [] (end_ b))) in *.
    assert (Hall' : Forall (fun s => lo <= start s /\ start s < end_ s /\ end_ s <= cursor') gaps).
    { eapply Forall_impl; [|exact Hall]; simpl; intros s Hs; lia. }
    assert (Hcnt : forall k, cover_count k (gaps ++ b :: bs) =
                             (if covers k b then 1 else 0) + cover_count k (gaps ++ bs)).
    { intros k; rewrite !cover_count_app, cover_count_cons; lia. }
    destruct (lo <? start b) eqn:E.
    + apply Nat.ltb_lt in E. repeat split; try lia.
      * constructor; [simpl; lia | exact Hall'].
      * simpl. constructor; [|exact Hasc].
        eapply Forall_impl; [|exact Hall]; simpl; intros s Hs; lia.
      * intros k. simpl. rewrite cover_count_cons, Hcnt, Hcov.
        unfold covers; simpl.
        destruct (lo <=? k) eqn:A, (k <? start b) eqn:B, (start b <=? k) eqn:C,
                 (k <? end_ b) eqn:D, (end_ b <=? k) eqn:F, (k <? cursor') eqn:G;
          simpl; try reflexivity; exfalso;
          repeat match goal with
          | H : (_ <=? _) = true |- _ => apply Nat.leb_le in H
          | H : (_ <=? _) = false |- _ => apply Nat.leb_gt in H
          | H : (_ <? _) = true |- _ => apply Nat.ltb_lt in H
          | H : (_ <? _) = false |- _ => apply Nat.ltb_ge in H
          end; lia.
    + apply Nat.ltb_ge in E. repeat split; try lia.
      * exact Hall'.
      * exact Hasc.
      * intros k. simpl. rewrite Hcnt, Hcov.
        unfold covers; simpl.
        destruct (lo <=? k) eqn:A, (start b <=? k) eqn:C,
                 (k <? end_ b) eqn:D, (end_ b <=? k) eqn:F, (k <? cursor') eqn:G;
          simpl; try reflexivity; exfalso;
          repeat match goal with
          | H : (_ <=? _) = true |- _ => apply Nat.leb_le in H
          | H : (_ <=? _) = false |- _ => apply Nat.leb_gt in H
          | H : (_ <? _) = true |- _ => apply Nat.ltb_lt in H
          | H : (_ <? _) = false |- _ => apply Nat.ltb_ge in H
          end; lia.
Qed.

Lemma chain_within lo l hi :
  chain lo l hi -> Forall (fun s => lo <= start s /\ start s < end_ s /\ end_ s <= hi) l.
Proof.
  revert lo; induction l as [|b bs IH]; intros lo; simpl; [constructor|].
  intros (H1 & H2 & H3). pose proof (chain_le _ _ _ H3).
  constructor; [lia|].
  eapply Forall_impl; [|apply (IH _ H3)]; simpl; intros s Hs; lia.
Qed.

Lemma ascending_snoc l s :
  ascending l -> Forall (fun a => end_ a <= start s) l -> ascending (l ++ [s]).
Proof.
  induction l as [|a l IH]; simpl; intros Ha Hf.
  - constructor; constructor.
  - inversion Ha; subst. inversion Hf; subst.
    constructor.
    + apply Forall_app; split; [assumption | constructor; [assumption | constructor]].
    + apply IH; assumption.
Qed.

End SpanScannerFacts.

(** C5.  For every text, the spans of [getNonBracketSpans] are ascending
    and pairwise disjoint (each ends no later than every later one
    starts), all plain and bracket spans stay inside [[0, len]], and every
    index of [[0, len)] lies in exactly one span of the plain spans taken
    together with the bracket spans. *)
Theorem getNonBracketSpans_partition (text : list ascii) :
  ascending (getNonBracketSpans text) /\
  Forall (fun s => start s <= end_ s /\ end_ s <= length text)
         (getNonBracketSpans text ++ parseBracketSpans text) /\
  forall k, k < length text ->
    cover_count k (getNonBracketSpans text ++ parseBracketSpans text) = 1.
Proof.
  pose proof (@parse_loop_chain text (length text) 0 (Nat.le_0_l _)) as Hc.
  fold (parseBracketSpans text) in Hc.
  unfold getNonBracketSpans.
  destruct (parseBracketSpans text) as [|b bs] eqn:Eb.
  - repeat split.
    + constructor; constructor.
    + constructor; [simpl; lia | constructor].
    + intros k Hk; unfold cover_count, covers; simpl.
      apply Nat.ltb_lt in Hk; now rewrite Hk.
  - pose proof (chain_within _ _ _ Hc) as Hw.
    destruct (complement_loop_chain _ _ _ Hc) as (Hb & Hall & Hasc & Hcov).
    destruct (complement_loop (b :: bs) [] 0) as [spans cursor] eqn:El.
    simpl fst in *; simpl snd in *.
    destruct (cursor <? length text) eqn:E.
    + apply Nat.ltb_lt in E. repeat split.
      * apply ascending_snoc; [exact Hasc|].
        eapply Forall_impl; [|exact Hall]; simpl; intros s Hs; lia.
      * rewrite <- app_assoc. apply Forall_app; split; [|apply Forall_app; split].
        -- eapply Forall_impl; [|exact Hall]; simpl; intros s Hs; lia.
        -- constructor; [simpl; lia | constructor].
        -- eapply Forall_impl; [|exact Hw]; simpl; intros s Hs; lia.
      * intros k Hk.
        assert (Hperm : cover_count k ((spans ++ [mkSpan cursor (length text)]) ++ b :: bs)
                        = cover_count k (spans ++ b :: bs)
                          + (if covers k (mkSpan cursor (length text)) then 1 else 0)).
        { rewrite !cover_count_app, !cover_count_cons.
          change (cover_count k []) with 0; lia. }
        rewrite Hperm, Hcov. unfold covers; simpl.
        destruct (k <? cursor) eqn:A, (cursor <=? k) eqn:B, (k <? length text) eqn:C;
          simpl; try reflexivity; exfalso;
          repeat match goal with
          | H : (_ <=? _) = true |- _ => apply Nat.leb_le in H
          | H : (_ <=? _) = false |- _ => apply Nat.leb_gt in H
          | H : (_ <? _) = true |- _ => apply Nat.ltb_lt in H
          | H : (_ <? _) = false |- _ => apply Nat.ltb_ge in H
          end; lia.
    + apply Nat.ltb_ge in E. repeat split.
      * exact Hasc.
      * apply Forall_app; split.
        -- eapply Forall_impl; [|exact Hall]; simpl; intros s Hs; lia.
        -- eapply Forall_impl; [|exact Hw]; simpl; intros s Hs; lia.
      * intros k Hk. rewrite Hcov.
        assert (A : (k <? cursor) = true) by (apply Nat.ltb_lt; lia).
        now rewrite A.
Qed.

Lemma getNonBracketSpans_partition_witness :
  let text := str "say *hi* now" in
  cover_count 5 (getNonBracketSpans text ++ parseBracketSpans text) = 1.
Proof.
  refine (proj2 (proj2 (getNonBracketSpans_partition (str "say *hi* now"))) 5 _).
  simpl; lia.
Defined.

(** ** The presence counter *)

Example matchAll_twice :
  matchAll (str "Alice") (str "Alice says hello to Bob and Alice") = [0; 27].
Proof. vm_compute. reflexivity. Qed.

Example matchAll_shared_delimiter :
  matchAll (str "Alice") (str "Alice Alice") = [0].
Proof. vm_compute. reflexivity. Qed.

Example matchAll_case :
  matchAll (str "alice") (str "x ALICE, aLiCe. Malice alice_") = [1; 8].
Proof. vm_compute. reflexivity. Qed.

Section PresenceCounterFacts.

Variable name : list ascii.

Lemma skipn_cons_inv (A : Type) (l : list A) s c r :
  skipn s l = c :: r -> nth_error l s = Some c /\ skipn (S s) l = r /\ s < length l.
Proof.
  revert l; induction s as [|s IH]; intros [|a l]; simpl; try discriminate.
  - intros [= -> ->]; repeat split; lia.
  - intros H; destruct (IH _ H) as (H1 & H2 & H3); repeat split; try assumption; lia.
Qed.

Lemma skipn_nil_inv (A : Type) (l : list A) s : skipn s l = [] -> length l <= s.
Proof.
  revert l; induction s as [|s IH]; intros [|a l]; simpl; try discriminate; try lia.
  intros H; apply IH in H; lia.
Qed.

Lemma name_then_trailing_occurs l len :
  name_then_trailing true name l = Some len ->
  match prefix_match true name l with
  | Some [] => true
  | Some (c :: _) => negb (isWordChar c)
  | None => false
  end = true.
Proof.
  unfold name_then_trailing.
  destruct (prefix_match true name l) as [[|c r]|]; simpl; try discriminate; [reflexivity|].
  destruct (isWordChar c); simpl; [discriminate | reflexivity].
Qed.

(** A match of the pattern is an occurrence of the name that is preceded
    and followed by a non-word character or the boundary of the text. *)
Lemma matchAt_occurs hay s len :
  matchAt true (Nat.eqb s 0) name (skipn s hay) = Some len ->
  s <= length hay /\ occursBoundedAt name hay (name_pos name hay s) = true.
Proof.
  unfold matchAt, name_pos.
  assert (Hvia : forall len',
    match skipn s hay with
    | c :: r => if isWordChar c then None else option_map S (name_then_trailing true name r)
    | [] => None
    end = Some len' ->
    s <= length hay /\ occursBoundedAt name hay (S s) = true).
  { intros len'. destruct (skipn s hay) as [|c r] eqn:E; [discriminate|].
    apply skipn_cons_inv in E; destruct E as (Hn & Hs & Hl).
    destruct (isWordChar c) eqn:Ew; [discriminate|].
    destruct (name_then_trailing true name r) as [m|] eqn:Em; [|discriminate].
    intros _. split; [lia|]. unfold occursBoundedAt.
    rewrite Hn, Ew, Hs; simpl. eapply name_then_trailing_occurs; eassumption. }
  destruct s as [|s]; simpl Nat.eqb; cbv iota.
  - simpl skipn in *.
    destruct (name_then_trailing true name hay) as [m|] eqn:Em.
    + intros _. split; [lia|]. unfold occursBoundedAt; simpl.
      eapply name_then_trailing_occurs; eassumption.
    + apply Hvia.
  - apply Hvia.
Qed.

Lemma matchAt_beyond hay s :
  length hay < s -> matchAt true (Nat.eqb s 0) name (skipn s hay) = None.
Proof.
  intros H. rewrite skipn_all2 by lia.
  destruct s; [lia | reflexivity].
Qed.

Lemma exec_from_spec hay : forall l s,
  skipn s hay = l ->
  match exec_from true name l s with
  | Some (idx, len) =>
    s <= idx <= length hay /\
    matchAt true (Nat.eqb idx 0) name (skipn idx hay) = Some len /\
    forall p, s <= p < idx -> matchAt true (Nat.eqb p 0) name (skipn p hay) = None
  | None =>
    forall p, s <= p -> matchAt true (Nat.eqb p 0) name (skipn p hay) = None
  end.
Proof.
  induction l as [|c r IH]; intros s Hs; simpl.
  - destruct (matchAt true (Nat.eqb s 0) name []) as [len|] eqn:E.
    + rewrite <- Hs in E. pose proof (matchAt_occurs _ _ E) as [Hle _].
      repeat split; try lia; exact E.
    + intros p Hp. apply skipn_nil_inv in Hs.
      destruct (Nat.eq_dec p s) as [->|Hne].
      * rewrite skipn_all2 by lia. exact E.
      * apply matchAt_beyond; lia.
  - pose proof (skipn_cons_inv _ _ Hs) as (Hn & Hr & Hl).
    destruct (matchAt true (Nat.eqb s 0) name (c :: r)) as [len|] eqn:E.
    + rewrite <- Hs in E. repeat split; try lia; exact E.
    + specialize (IH (S s) Hr).
      destruct (exec_from true name r (S s)) as [[idx len]|].
      * destruct IH as (H1 & H2 & H3). repeat split; try lia; [exact H2|].
        intros p Hp. destruct (Nat.eq_dec p s) as [->|Hne].
        -- rewrite Hs; exact E.
        -- apply H3; lia.
      * intros p Hp. destruct (Nat.eq_dec p s) as [->|Hne].
        -- rewrite Hs; exact E.
        -- apply IH; lia.
Qed.

(** [matchAll_loop] is the greedy left-to-right scan, whatever the fuel
    beyond [length hay + 2 - lastIndex]. *)
Lemma matchAll_loop_greedy hay : forall fuel lastIndex,
  length hay + 2 <= fuel + lastIndex ->
  greedy name hay lastIndex (matchAll_loop fuel name hay lastIndex).
Proof.
  induction fuel as [|f IH]; intros lastIndex Hf; simpl.
  - intros p Hp; lia.
  - pose proof (@exec_from_spec hay _ lastIndex eq_refl) as Hx.
    destruct (exec_from true name (skipn lastIndex hay) lastIndex) as [[idx len]|]; simpl.
    + destruct Hx as (H1 & H2 & H3). repeat split; try lia; [exact H3|].
      exists len; split; [exact H2|]. apply IH.
      destruct (Nat.eqb len 0) eqn:E; [lia|]. apply Nat.eqb_neq in E; lia.
    + intros p Hp; apply Hx; lia.
Qed.

Lemma matchAll_loop_fuel hay : forall fuel1 fuel2 lastIndex,
  length hay + 2 <= fuel1 + lastIndex -> length hay + 2 <= fuel2 + lastIndex ->
  matchAll_loop fuel1 name hay lastIndex = matchAll_loop fuel2 name hay lastIndex.
Proof.
  assert (Hout : forall fuel lastIndex, length hay < lastIndex ->
                 matchAll_loop fuel name hay lastIndex = []).
  { intros [|f] lastIndex Hl; simpl; [reflexivity|].
    pose proof (@exec_from_spec hay _ lastIndex eq_refl) as Hx.
    destruct (exec_from true name (skipn lastIndex hay) lastIndex) as [[idx len]|];
      [|reflexivity].
    destruct Hx as (H1 & _); lia. }
  induction fuel1 as [|f1 IH]; intros fuel2 lastIndex H1 H2.
  - simpl. symmetry; apply Hout; lia.
  - destruct fuel2 as [|f2]; [apply Hout; lia|]. simpl.
    pose proof (@exec_from_spec hay _ lastIndex eq_refl) as Hx.
    destruct (exec_from true name (skipn lastIndex hay) lastIndex) as [[idx len]|];
      [|reflexivity].
    destruct Hx as (Hb & _). f_equal. apply IH.
    + destruct (Nat.eqb len 0) eqn:E; [lia|]. apply Nat.eqb_neq in E; lia.
    + destruct (Nat.eqb len 0) eqn:E; [lia|]. apply Nat.eqb_neq in E; lia.
Qed.

Lemma matchAll_greedy hay : greedy name hay 0 (matchAll name hay).
Proof. apply matchAll_loop_greedy; lia. Qed.

(** Along a greedy scan the positions of the name grow strictly, and each
    is a bounded occurrence. *)
Lemma greedy_name_positions hay : forall l from,
  greedy name hay from l ->
  Forall (fun s => from <= s /\ occursBoundedAt name hay (name_pos name hay s) = true) l /\
  (forall s, In s l -> name_pos name hay s <= length hay) /\
  NoDup (map (name_pos name hay) l) /\
  Forall (fun s => from <= name_pos name hay s \/ (from = 0 /\ s = 0)) l.
Proof.
  induction l as [|s l IH]; intros from; simpl.
  - intros _; repeat split; try constructor. intros s [].
  - intros (Hb & Hnone & len & Hm & Hg).
    pose proof (matchAt_occurs _ _ Hm) as [Hle Hocc].
    specialize (IH _ Hg). destruct IH as (Hall & Hlen & Hnd & Hpos).
    assert (Hnp : name_pos name hay s = 0 /\ s = 0 \/ name_pos name hay s = S s).
    { unfold name_pos. destruct s; [|now right].
      destruct (name_then_trailing true name hay); [now left | now right]. }
    assert (Hnext : s < (if Nat.eqb len 0 then s + 1 else s + len)).
    { destruct (Nat.eqb len 0) eqn:E; [lia|]. apply Nat.eqb_neq in E; lia. }
    assert (Hbound : name_pos name hay s <= length hay).
    { unfold occursBoundedAt in Hocc. destruct Hnp as [[-> _]|Hn]; [lia|].
      rewrite Hn in *. simpl in Hocc.
      destruct (nth_error hay s) eqn:En; [|discriminate].
      apply nth_error_Some_lt in En; lia. }
    repeat split.
    + constructor; [split; [lia | exact Hocc]|].
      eapply Forall_impl; [|exact Hall]; simpl; intros a [Ha1 Ha2]; split; [lia | exact Ha2].
    + intros a [<-|Ha]; [exact Hbound | now apply Hlen].
    + constructor; [|exact Hnd].
      intros Hin. apply in_map_iff in Hin. destruct Hin as (a & Ha & Hin).
      rewrite Forall_forall in Hpos. specialize (Hpos _ Hin).
      rewrite Forall_forall in Hall. specialize (Hall _ Hin).
      assert (name_pos name hay a = S a \/ a = 0).
      { unfold name_pos. destruct a; [now right | now left]. }
      lia.
    + constructor.
      * destruct Hnp as [[H0 ->]|Hn]; [|left; lia].
        destruct (Nat.eq_dec from 0); [right; lia | lia].
      * rewrite Forall_forall in Hall, Hpos |- *. intros a Ha.
        specialize (Hall _ Ha). specialize (Hpos _ Ha).
        left. assert (name_pos name hay a = S a \/ a = 0).
        { unfold name_pos. destruct a; [now right | now left]. }
        lia.
Qed.

(** The scan finds no more matches than there are bounded occurrences. *)
Lemma matchAll_le_bounded hay :
  length (matchAll name hay) <= length (boundedOccurrences name hay).
Proof.
  destruct (@greedy_name_positions hay _ _ (matchAll_greedy hay)) as (Hall & Hlen & Hnd & _).
  rewrite <- (length_map (name_pos name hay)).
  apply NoDup_incl_length; [exact Hnd|].
  intros p Hp. apply in_map_iff in Hp. destruct Hp as (s & <- & Hs).
  unfold boundedOccurrences. apply filter_In. split.
  - apply in_seq. specialize (Hlen _ Hs). lia.
  - rewrite Forall_forall in Hall. apply Hall; exact Hs.
Qed.

End PresenceCounterFacts.

Section RegexCacheFacts.

Lemma canonicalize_lower c : canonicalize (toLowerCase_char c) = canonicalize c.
Proof. destruct c as [[] [] [] [] [] [] [] []]; reflexivity. Qed.

Lemma ci_eqb_lower a b c :
  toLowerCase_char a = toLowerCase_char b -> ci_eqb a c = ci_eqb b c.
Proof.
  intros H. unfold ci_eqb.
  rewrite <- (canonicalize_lower a), H, canonicalize_lower. reflexivity.
Qed.

Lemma prefix_match_cached : forall n1 n2 l,
  toLowerCase n1 = toLowerCase n2 ->
  prefix_match true n1 l = prefix_match true n2 l.
Proof.
  induction n1 as [|a n1 IH]; intros [|b n2] l H; simpl in H; try discriminate.
  - reflexivity.
  - injection H as Hab Hrest. simpl. destruct l as [|c l]; [reflexivity|].
    rewrite (ci_eqb_lower a b c Hab). destruct (ci_eqb b c); [now apply IH | reflexivity].
Qed.

(** Two names with the same lower-case form give regexes that match
    alike, so it does not matter which of them filled the cache. *)
Lemma matchAt_cached atStart n1 n2 l :
  toLowerCase n1 = toLowerCase n2 ->
  matchAt true atStart n1 l = matchAt true atStart n2 l.
Proof.
  intros H.
  assert (Hlen : length n1 = length n2).
  { unfold toLowerCase in H. rewrite <- (length_map toLowerCase_char n1), H.
    apply length_map. }
  assert (Hnt : forall r, name_then_trailing true n1 r = name_then_trailing true n2 r).
  { intros r. unfold name_then_trailing.
    rewrite (prefix_match_cached n1 n2 r H), Hlen. reflexivity. }
  unfold matchAt. rewrite Hnt. destruct l as [|c r]; [reflexivity|].
  now rewrite Hnt.
Qed.

End RegexCacheFacts.

Section CountingFold.

Variable name : list ascii.

Lemma count_match_fold spanStart : forall l acc,
  fold_left (count_match spanStart) l acc =
  mkOcc (count acc + length l)
        (fold_left min_step (map (Nat.add spanStart) l) (firstIndex acc)).
Proof.
  induction l as [|a l IH]; intros [c f]; simpl.
  - now rewrite Nat.add_0_r.
  - rewrite IH; simpl. f_equal. lia.
Qed.

Lemma count_span_fold : forall spans acc,
  fold_left (count_span name) spans acc =
  mkOcc (count acc + length (abs_matches name spans))
        (fold_left min_step (abs_matches name spans) (firstIndex acc)).
Proof.
  induction spans as [|sp spans IH]; intros [c f]; simpl.
  - now rewrite Nat.add_0_r.
  - rewrite IH. unfold count_span at 1 2. rewrite count_match_fold; simpl.
    rewrite length_app, length_map, fold_left_app. f_equal. lia.
Qed.

Lemma min_step_fold_some : forall l f,
  exists g, fold_left min_step l (Some f) = Some g /\
            g <= f /\ (g = f \/ In g l) /\ forall a, In a l -> g <= a.
Proof.
  induction l as [|a l IH]; intros f; simpl.
  - exists f; repeat split; auto. intros a [].
  - destruct (a <? f) eqn:E.
    + apply Nat.ltb_lt in E. destruct (IH a) as (g & Hg & Hle & Hin & Hmin).
      exists g; repeat split; [exact Hg | lia | |].
      * destruct Hin as [->|Hin]; auto.
      * intros b [<-|Hb]; [exact Hle | now apply Hmin].
    + apply Nat.ltb_ge in E. destruct (IH f) as (g & Hg & Hle & Hin & Hmin).
      exists g; repeat split; [exact Hg | exact Hle | |].
      * destruct Hin as [->|Hin]; auto.
      * intros b [<-|Hb]; [lia | now apply Hmin].
Qed.

Lemma min_step_fold_none l :
  match fold_left min_step l None with
  | None => l = []
  | Some f => In f l /\ forall a, In a l -> f <= a
  end.
Proof.
  destruct l as [|a l]; simpl; [reflexivity|].
  destruct (min_step_fold_some l a) as (g & -> & Hle & Hin & Hmin).
  split.
  - destruct Hin as [->|Hin]; auto.
  - intros b [<-|Hb]; [exact Hle | now apply Hmin].
Qed.

Lemma span_matches_le_bounded sp :
  length (span_matches name sp) <= length (boundedOccurrences name (p_text sp)).
Proof.
  unfold span_matches. destruct (p_text sp) as [|c r]; [simpl; lia|].
  apply matchAll_le_bounded.
Qed.

Lemma abs_matches_le_spec spans :
  length (abs_matches name spans) <= spec_count name spans.
Proof.
  unfold abs_matches, spec_count.
  induction spans as [|sp spans IH]; simpl; [lia|].
  rewrite length_app, length_map.
  pose proof (span_matches_le_bounded sp). lia.
Qed.

End CountingFold.

(** The loop of the counter for the regex of a name: [count] is the
    number of matches of the left-to-right scan, every match is a bounded
    occurrence, and [firstIndex] is the least absolute match position. *)
Lemma greedy_scan (name : list ascii) (spans : list PlainSpan) :
  let r := countOccurrencesOutsideBrackets name spans in
  count r = length (abs_matches name spans) /\
  count r <= spec_count name spans /\
  (forall sp, In sp spans -> p_text sp <> [] ->
     greedy name (p_text sp) 0 (span_matches name sp)) /\
  (forall sp idx, In sp spans -> In idx (span_matches name sp) ->
     occursBoundedAt name (p_text sp) (name_pos name (p_text sp) idx) = true) /\
  match firstIndex r with
  | None => abs_matches name spans = []
  | Some f => In f (abs_matches name spans) /\
              forall a, In a (abs_matches name spans) -> f <= a
  end.
Proof.
  unfold countOccurrencesOutsideBrackets. rewrite count_span_fold. simpl.
  split; [reflexivity|]. split; [apply abs_matches_le_spec|].
  split; [|split].
  - intros sp _ Hne. unfold span_matches.
    destruct (p_text sp) as [|c r]; [congruence|]. apply matchAll_greedy.
  - intros sp idx _ Hidx. unfold span_matches in Hidx.
    destruct (p_text sp) as [|c r] eqn:E; [destruct Hidx|].
    destruct (@greedy_name_positions name (c :: r) _ _ (matchAll_greedy name (c :: r)))
      as (Hall & _).
    rewrite Forall_forall in Hall. apply Hall; exact Hidx.
  - apply min_step_fold_none.
Qed.

(** C6 (as stated) fails: two occurrences that share one delimiter are
    counted once. *)
Lemma countOccurrences_shared_delimiter :
  let spans := [mkPlain 0 11 (str "Alice Alice")] in
  spec_count (str "Alice") spans = 2 /\
  count (countOccurrencesOutsideBrackets (str "Alice") spans) = 1 /\
  count (countOccurrencesOutsideBrackets (str "Alice") spans)
    <> spec_count (str "Alice") spans.
Proof. vm_compute. repeat split; discriminate. Qed.

(** ** The presence resolver *)

Example sanity_test_1 :
  getPresentOrderedNames no_settings
    (Some (mkMessage "Alice says hello to Bob and Alice" "" false false))
    ["Alice"; "Bob"; "Carol"] = ["Bob"; "Alice"].
Proof. vm_compute. reflexivity. Qed.

Example quoted_not_counted :
  let spans := plain_spans (list_ascii_of_string "*Alice* said Bob") in
  count (countOccurrencesOutsideBrackets (str "Alice") spans) = 0 /\
  count (countOccurrencesOutsideBrackets (str "Bob") spans) = 1.
Proof. vm_compute. split; reflexivity. Qed.

Example user_forcing :
  getPresentOrderedNames no_settings (Some (mkMessage "" "" true false))
    ["UserName"; "Bob"] = ["UserName"].
Proof. vm_compute. reflexivity. Qed.

Section PresenceResolverFacts.

Variable cs : ChatSettings.

Lemma collect_loop_names spans : forall names i items,
  map i_name (collect_loop cs spans names i items) =
  map i_name items ++ filter (present_in cs spans) names.
Proof.
  induction names as [|n names IH]; intros i items; cbn [collect_loop filter].
  - now rewrite app_nil_r.
  - assert (Hp : present_in cs spans n = negb (excluded cs n)
        && (0 <? count (countOccurrencesOutsideBrackets (list_ascii_of_string n) spans)))
      by reflexivity.
    rewrite Hp. destruct (excluded cs n); cbn [negb andb]; [apply IH|].
    rewrite IH.
    destruct (0 <? count (countOccurrencesOutsideBrackets (list_ascii_of_string n) spans)).
    + rewrite map_app; simpl. now rewrite <- app_assoc.
    + reflexivity.
Qed.

Lemma collected_items_names lastMes nameList :
  map i_name (collected_items cs lastMes nameList) =
  filter (present_in cs (plain_spans (list_ascii_of_string (message_text lastMes)))) nameList.
Proof. unfold collected_items; now rewrite collect_loop_names. Qed.

Lemma mark_forced_names u items :
  map i_name (mark_forced u items) = map i_name items.
Proof.
  induction items as [|it r IH]; simpl; [reflexivity|].
  destruct (named u it); simpl; [reflexivity | now rewrite IH].
Qed.

Lemma existsb_named_false u items :
  existsb (named u) items = false -> ~ In u (map i_name items).
Proof.
  induction items as [|it r IH]; simpl; [tauto|].
  intros H; apply orb_false_iff in H; destruct H as [H1 H2].
  intros [Heq|Hin]; [|now apply IH].
  unfold named in H1. rewrite Heq, String.eqb_refl in H1; discriminate.
Qed.

Lemma ensure_user_names b user items :
  map i_name (ensure_user b user items) = map i_name items \/
  exists u, user = Some u /\ ~ In u (map i_name items) /\
            map i_name (ensure_user b user items) = map i_name items ++ [u].
Proof.
  unfold ensure_user. destruct user as [u|]; [|now left].
  destruct (b && truthy (Some u)); [|now left].
  destruct (existsb (named u) items) eqn:E.
  - left; apply mark_forced_names.
  - right; exists u; repeat split; [now apply existsb_named_false|].
    now rewrite map_app.
Qed.

Lemma insert_item_perm x l : Permutation (insert_item x l) (x :: l).
Proof.
  induction l as [|y r IH]; simpl; [reflexivity|].
  destruct (compare_items x y); try reflexivity.
  rewrite IH. apply perm_swap.
Qed.

Lemma sort_items_perm l : Permutation (sort_items l) l.
Proof.
  induction l as [|x l IH]; simpl; [reflexivity|].
  rewrite insert_item_perm. now constructor.
Qed.

Lemma demote_perm b user items : Permutation (demote b user items) items.
Proof.
  unfold demote. destruct user as [u|]; [|reflexivity].
  destruct (negb b && truthy (Some u)); [|reflexivity].
  destruct (findIndex (named u) items) as [[|k]|]; try reflexivity.
  destruct items as [|a [|c r]]; try reflexivity. apply perm_swap.
Qed.

Lemma force_perm b user items : Permutation (force b user items) items.
Proof.
  unfold force. destruct user as [u|]; [|reflexivity].
  destruct (b && truthy (Some u)); [|reflexivity].
  destruct (findIndex (named u) items) as [idx|]; [|reflexivity].
  destruct (nth_error items idx) as [it|] eqn:E; [|reflexivity].
  rewrite <- (firstn_skipn_middle _ _ E) at 3.
  apply Permutation_middle.
Qed.

Lemma findIndex_head_named u items :
  findIndex (named u) items = Some 0 <-> hd_error (map i_name items) = Some u.
Proof.
  destruct items as [|it r]; simpl; [split; discriminate|].
  unfold named. destruct (String.eqb (i_name it) u) eqn:E.
  - apply String.eqb_eq in E; subst; tauto.
  - apply String.eqb_neq in E. split.
    + destruct (findIndex _ r); discriminate.
    + intros [= H]; contradiction.
Qed.

(** The names of the sorted items are those of the present names of the
    list, with the user added for a user message. *)
Lemma sorted_items_names lastMes nameList :
  exists base,
    Permutation (map i_name (sorted_items cs lastMes nameList)) base /\
    (base = filter (present_in cs (plain_spans (list_ascii_of_string (message_text lastMes)))) nameList
     \/ exists u, USER_NAME cs nameList = Some u /\
          ~ In u (filter (present_in cs (plain_spans (list_ascii_of_string (message_text lastMes)))) nameList) /\
          base = filter (present_in cs (plain_spans (list_ascii_of_string (message_text lastMes)))) nameList ++ [u]).
Proof.
  unfold sorted_items.
  set (items := collected_items cs lastMes nameList).
  exists (map i_name (ensure_user (from_user lastMes) (USER_NAME cs nameList) items)).
  split; [apply Permutation_map, sort_items_perm|].
  destruct (ensure_user_names (from_user lastMes) (USER_NAME cs nameList) items)
    as [H|(u & Hu & Hn & H)]; rewrite H; unfold items in *;
    rewrite collected_items_names in *; [now left|].
  right; exists u; auto.
Qed.

Lemma sorted_items_NoDup lastMes nameList :
  NoDup nameList -> NoDup (map i_name (sorted_items cs lastMes nameList)).
Proof.
  intros Hnd. destruct (sorted_items_names lastMes nameList) as (base & Hp & Hb).
  apply Permutation_NoDup with (l := base); [now symmetry|].
  destruct Hb as [->|(u & _ & Hn & ->)].
  - now apply NoDup_filter.
  - apply NoDup_app; repeat split.
    + now apply NoDup_filter.
    + constructor; [intros [] | constructor].
    + intros x Hx [<-|[]]; contradiction.
Qed.

End PresenceResolverFacts.

(** C2.  The code at the input of its own second sanity test: the
    parentheses are no bracket tokens, so the parenthesized Alice is
    counted; Alice has two matches (first at 0), Bob one (at 7), and the
    result puts Bob ahead of Alice, who as head of the name list is the
    user and is demoted. *)
Theorem parenthesized_name_is_counted :
  let text := list_ascii_of_string "(Alice) Bob Alice" in
  parseBracketSpans text = [] /\
  countOccurrencesOutsideBrackets (str "Alice") (plain_spans text) = mkOcc 2 (Some 0) /\
  countOccurrencesOutsideBrackets (str "Bob") (plain_spans text) = mkOcc 1 (Some 7) /\
  getPresentOrderedNames no_settings
    (Some (mkMessage "(Alice) Bob Alice" "" false false))
    ["Alice"; "Bob"; "Carol"] = ["Bob"; "Alice"].
Proof. vm_compute. repeat split; reflexivity. Qed.

(** C7 (as stated) fails in two ways.  The guard of the demotion tests
    the truthiness of the user name: an empty user name, counted in the
    text, stays in front of Bob.  And with the user name twice in the
    name list the swap puts the second item of the user in front. *)
Lemma demotion_rule_as_stated_fails :
  (USER_NAME no_settings [""; "Bob"] = Some "" /\
   map i_name (sorted_items no_settings (Some (said "Narrator" "! Bob")) [""; "Bob"])
     = [""; "Bob"] /\
   getPresentOrderedNames no_settings (Some (said "Narrator" "! Bob")) [""; "Bob"]
     = [""; "Bob"]) /\
  (USER_NAME no_settings ["Alice"; "Alice"; "Bob"] = Some "Alice" /\
   getPresentOrderedNames no_settings (Some (said "Narrator" "Alice and Bob"))
     ["Alice"; "Alice"; "Bob"] = ["Alice"; "Alice"; "Bob"]).
Proof. vm_compute. repeat split; reflexivity. Qed.

(** C7 (as amended).  For a message that is not from the user, with a
    user name that is not empty: when the user's item is first after the
    sort and another item follows, the two are swapped and nothing else
    moves; otherwise the order is that of the sort, so the user's item is
    never moved past position 1; and for a name list without duplicates
    a result with two names or more never starts with the user name. *)
Theorem demotion_rule (cs : ChatSettings) (lastMes : option Message)
  (nameList : list string) (u : string) :
  from_user lastMes = false ->
  USER_NAME cs nameList = Some u ->
  u <> "" ->
  let sorted := map i_name (sorted_items cs lastMes nameList) in
  let result := getPresentOrderedNames cs lastMes nameList in
  (forall x rest, sorted = u :: x :: rest -> result = x :: u :: rest) /\
  ((forall x rest, sorted <> u :: x :: rest) -> result = sorted) /\
  (NoDup nameList -> 2 <= length result -> hd_error result <> Some u).
Proof.
  intros Hmsg Hu Hne sorted result.
  assert (Htruthy : truthy (Some u) = true).
  { simpl. apply String.eqb_neq in Hne. now rewrite Hne. }
  assert (Hres : result = map i_name (demote false (Some u) (sorted_items cs lastMes nameList))).
  { unfold result, getPresentOrderedNames. rewrite Hmsg, Hu, andb_false_r.
    unfold force. now rewrite andb_false_l. }
  assert (Hswap : forall x rest, sorted = u :: x :: rest -> result = x :: u :: rest).
  { intros x rest Hs. rewrite Hres. unfold demote. rewrite Htruthy; simpl.
    unfold sorted in Hs.
    destruct (sorted_items cs lastMes nameList) as [|a [|b r]]; try discriminate.
    simpl in Hs. injection Hs as Ha Hb Hr.
    simpl. unfold named. rewrite Ha, String.eqb_refl. simpl. congruence. }
  assert (Hsame : (forall x rest, sorted <> u :: x :: rest) -> result = sorted).
  { intros Hno. rewrite Hres. unfold demote. rewrite Htruthy; simpl.
    destruct (findIndex (named u) (sorted_items cs lastMes nameList)) as [[|k]|] eqn:Ef;
      try reflexivity.
    apply findIndex_head_named in Ef. fold sorted in Ef.
    unfold sorted in *.
    destruct (sorted_items cs lastMes nameList) as [|a [|b r]]; try reflexivity.
    simpl in Ef. injection Ef as Ea. exfalso. apply (Hno (i_name b) (map i_name r)).
    simpl. now rewrite Ea. }
  split; [exact Hswap|]. split; [exact Hsame|].
  intros Hnd Hlen Hhd.
  pose proof (sorted_items_NoDup cs lastMes Hnd) as Hnodup.
  fold sorted in Hnodup.
  destruct sorted as [|a [|b r]] eqn:Es.
  - rewrite Hsame in Hhd by (intros; discriminate). discriminate.
  - rewrite Hsame in Hlen by (intros; discriminate). simpl in Hlen; lia.
  - destruct (String.eqb a u) eqn:Ea.
    + apply String.eqb_eq in Ea; subst a.
      rewrite (Hswap b r eq_refl) in Hhd. simpl in Hhd. injection Hhd as ->.
      inversion Hnodup; subst. apply H1. now left.
    + apply String.eqb_neq in Ea.
      rewrite Hsame in Hhd by (intros x rest [= E _]; congruence).
      simpl in Hhd. congruence.
Qed.

Lemma demotion_rule_witness :
  getPresentOrderedNames no_settings
    (Some (mkMessage "UserName greets Bob" "Narrator" false false))
    ["UserName"; "Bob"] = ["Bob"; "UserName"].
Proof.
  refine (proj1 (@demotion_rule no_settings
            (Some (mkMessage "UserName greets Bob" "Narrator" false false))
            ["UserName"; "Bob"] "UserName" eq_refl eq_refl _) "Bob" [] _).
  - discriminate.
  - vm_compute. reflexivity.
Defined.

(** C10.  For a name list without duplicates the resolver returns no name
    twice, every returned name is in the name list or is the user name,
    and the result is no longer than the name list plus one. *)
Theorem resolver_names_unique (cs : ChatSettings) (lastMes : option Message)
  (nameList : list string) :
  NoDup nameList ->
  let result := getPresentOrderedNames cs lastMes nameList in
  NoDup result /\
  (forall n, In n result -> In n nameList \/ USER_NAME cs nameList = Some n) /\
  length result <= length nameList + 1.
Proof.
  intros Hnd result. unfold result, getPresentOrderedNames.
  destruct (String.eqb (message_text lastMes) "" && from_user lastMes).
  - destruct (USER_NAME cs nameList) as [u|] eqn:Eu.
    + destruct (truthy (Some u)).
      * repeat split.
        -- constructor; [intros [] | constructor].
        -- intros n [<-|[]]; now right.
        -- simpl; lia.
      * repeat split; [constructor | intros n [] | simpl; lia].
    + repeat split; [constructor | intros n [] | simpl; lia].
  - set (user := USER_NAME cs nameList).
    set (final := force (from_user lastMes) user
                    (demote (from_user lastMes) user (sorted_items cs lastMes nameList))).
    assert (Hperm : Permutation (map i_name final)
                                (map i_name (sorted_items cs lastMes nameList))).
    { apply Permutation_map. unfold final. rewrite force_perm. apply demote_perm. }
    destruct (sorted_items_names cs lastMes nameList) as (base & Hp & Hb).
    assert (Hpb : Permutation (map i_name final) base) by (now rewrite Hperm).
    repeat split.
    + apply Permutation_NoDup with (l := map i_name (sorted_items cs lastMes nameList));
        [now symmetry | now apply sorted_items_NoDup].
    + intros n Hn. apply (Permutation_in _ Hpb) in Hn.
      destruct Hb as [->|(u & Hu & _ & ->)].
      * left. apply filter_In in Hn. tauto.
      * apply in_app_or in Hn. destruct Hn as [Hn|[<-|[]]].
        -- left. apply filter_In in Hn. tauto.
        -- now right.
    + rewrite (Permutation_length Hpb).
      destruct Hb as [->|(u & _ & _ & ->)].
      * pose proof (filter_length_le (present_in cs
          (plain_spans (list_ascii_of_string (message_text lastMes)))) nameList). lia.
      * rewrite length_app; simpl.
        pose proof (filter_length_le (present_in cs
          (plain_spans (list_ascii_of_string (message_text lastMes)))) nameList). lia.
Qed.

Lemma resolver_names_unique_witness :
  NoDup (getPresentOrderedNames no_settings
           (Some (mkMessage "Bob waves at Alice" "Alice" true false))
           ["Alice"; "Bob"; "Carol"]).
Proof.
  refine (proj1 (@resolver_names_unique no_settings
            (Some (mkMessage "Bob waves at Alice" "Alice" true false))
            ["Alice"; "Bob"; "Carol"] _)).
  repeat constructor; simpl; intuition discriminate.
Defined.

(** ** The roster engine *)

Example refresh_two :
  updateMembers one_each ["A"; "B"] empty_roster =
  (mkRoster ["A"; "B"] ["B"] [] (Some "A") ["A"; "B"],
   [WrapperCreated "A"; WrapperCreated "B"]).
Proof. vm_compute. reflexivity. Qed.

(** C1 (as stated) fails: with one slot on each side, A is not put on the
    left and C is not left without a place. *)
Lemma capacity_example_as_stated_fails :
  let st := fst (updateMembers one_each ["A"; "B"; "C"] empty_roster) in
  ~ (left st = ["A"] /\ right st = ["B"] /\ In "C" (nameList st) /\
     ~ In "C" (left st) /\ ~ In "C" (right st)).
Proof. vm_compute. intros (H & _). discriminate. Qed.

Ltac eqb_facts :=
  repeat match goal with
  | H : ?x <> ?y |- _ =>
    let E := fresh "E" in
    let E' := fresh "E" in
    assert (E : String.eqb x y = false) by (apply String.eqb_neq; exact H);
    assert (E' : String.eqb y x = false) by (apply String.eqb_neq; congruence);
    clear H
  end.

(** Evaluation of a refresh on names that are variables, with the
    comparisons between them decided by the hypotheses. *)
Ltac run_refresh :=
  unfold updateMembers;
  repeat (cbv -[String.eqb];
          repeat match goal with
          | E : String.eqb _ _ = false |- _ => rewrite !E
          end;
          rewrite ?String.eqb_refl).

(** The three refreshes of the capacity example when every lookup
    resolves. *)
Lemma capacity_example_resolved (a b c d : string) :
  a <> "" -> NoDup [a; b; c; d] ->
  let st3 := fst (updateMembers one_each [a; b; c] empty_roster) in
  let st4 := fst (updateMembers one_each [a; b; c; d] st3) in
  let st5 := fst (updateMembers one_each [a; c; d] st4) in
  st3 = mkRoster [a; b; c] [b] [c] (Some a) [a; b; c] /\
  st4 = mkRoster [a; b; c; d] [b] [c] (Some a) [a; b; c; d] /\
  st5 = mkRoster [a; c; d] [d] [c] (Some a) [a; c; d].
Proof.
  intros Ha Hnd.
  inversion Hnd as [|? ? N1 Hnd1]; inversion Hnd1 as [|? ? N2 Hnd2];
    inversion Hnd2 as [|? ? N3 _]; subst; simpl in N1, N2, N3.
  assert (Hab : a <> b) by intuition congruence.
  assert (Hac : a <> c) by intuition congruence.
  assert (Had : a <> d) by intuition congruence.
  assert (Hbc : b <> c) by intuition congruence.
  assert (Hbd : b <> d) by intuition congruence.
  assert (Hcd : c <> d) by intuition congruence.
  clear Hnd Hnd1 Hnd2 N1 N2 N3. eqb_facts.
  assert (H3 : fst (updateMembers one_each [a; b; c] empty_roster)
               = mkRoster [a; b; c] [b] [c] (Some a) [a; b; c])
    by (run_refresh; reflexivity).
  cbv zeta. rewrite H3.
  assert (H4 : fst (updateMembers one_each [a; b; c; d]
                      (mkRoster [a; b; c] [b] [c] (Some a) [a; b; c]))
               = mkRoster [a; b; c; d] [b] [c] (Some a) [a; b; c; d])
    by (run_refresh; reflexivity).
  rewrite H4. split; [reflexivity|]. split; [reflexivity|].
  run_refresh. reflexivity.
Qed.

(** C3.  The code on a removed name that has no place.  With one slot on
    each side and the names A to E, A is current, B and C hold the sides,
    D and E have no place.  Processing the removal of D sets [current]
    to null although D was not the current name, and the refresh that
    drops D ends with E as the current name and A without a place. *)
Theorem removing_unplaced_name_clears_current :
  let st := fst (updateMembers one_each ["A"; "B"; "C"; "D"; "E"] empty_roster) in
  (current st = Some "A" /\ left st = ["B"] /\ right st = ["C"] /\
   In "D" (nameList st)) /\
  current (fst (fst (remove_one "D" st))) = None /\
  fst (updateMembers one_each ["A"; "B"; "C"; "E"] st) =
    mkRoster ["A"; "B"; "C"; "E"] ["B"] ["C"] (Some "E") ["A"; "B"; "C"; "E"].
Proof. vm_compute. repeat split; try reflexivity. right; right; right; left; reflexivity. Qed.

(** The empty name, which [!current] takes for no current name.  X is
    left without a place under capacities 0 and 0; with unbounded sides,
    a refresh to the empty name and X makes the empty name current, then
    X in its stead, and the same refresh once more puts the empty name on
    the left. *)
Example refresh_twice_empty_name :
  let unbounded := mkSettings (-1) (-1) in
  let st0 := fst (updateMembers (mkSettings 0 0) ["A"; "X"] empty_roster) in
  let st1 := fst (updateMembers unbounded [""; "X"] st0) in
  let st2 := fst (updateMembers unbounded [""; "X"] st1) in
  left st1 = [] /\ left st2 = [""] /\ st2 <> st1.
Proof. vm_compute. repeat split. discriminate. Qed.

Section RosterFacts.

Lemma indexOf_name_some n l i : indexOf_name n l = Some i -> In n l.
Proof.
  revert i; induction l as [|a l IH]; intros i; simpl; [discriminate|].
  destruct (String.eqb a n) eqn:E.
  - apply String.eqb_eq in E; auto.
  - destruct (indexOf_name n l) as [j|]; [|discriminate]. intros _; right; eapply IH; eauto.
Qed.

Lemma indexOf_name_none n l : indexOf_name n l = None -> ~ In n l.
Proof.
  induction l as [|a l IH]; simpl; [tauto|].
  destruct (String.eqb a n) eqn:E; [discriminate|].
  destruct (indexOf_name n l); [discriminate|].
  apply String.eqb_neq in E. intros _ [H|H]; [congruence | now apply IH].
Qed.

Lemma includes_In n l : includes n l = true <-> In n l.
Proof.
  unfold includes. destruct (indexOf_name n l) eqn:E.
  - split; [intros _; eapply indexOf_name_some; eauto | reflexivity].
  - split; [discriminate | intros H; now apply indexOf_name_none in E].
Qed.

Lemma includes_not_In n l : includes n l = false <-> ~ In n l.
Proof.
  rewrite <- includes_In. destruct (includes n l); split; congruence.
Qed.

Lemma remove_first_head n l : remove_first n (n :: l) = l.
Proof. unfold remove_first; simpl. now rewrite String.eqb_refl. Qed.

Lemma remove_first_tail a n l :
  a <> n -> In n l -> remove_first n (a :: l) = a :: remove_first n l.
Proof.
  intros Hne Hin. unfold remove_first; simpl.
  apply String.eqb_neq in Hne; rewrite Hne.
  destruct (indexOf_name n l) as [i|] eqn:E; [reflexivity|].
  now apply indexOf_name_none in E.
Qed.

Lemma filter_head_remove (p : string -> bool) : forall l n r,
  filter p l = n :: r ->
  In n l /\ filter p (remove_first n l) = r /\
  filter (fun x => negb (p x)) (remove_first n l) = filter (fun x => negb (p x)) l.
Proof.
  induction l as [|a l IH]; intros n r; simpl; [discriminate|].
  destruct (p a) eqn:Ea; simpl.
  - intros [= -> <-]. rewrite remove_first_head. auto.
  - intros H. destruct (IH _ _ H) as (Hin & Hf & Hg).
    assert (Hne : a <> n).
    { intros ->. assert (Hp : In n (filter p l)) by (rewrite H; now left).
      apply filter_In in Hp. destruct Hp as [_ Hp]. congruence. }
    rewrite remove_first_tail by assumption. simpl. rewrite Ea; simpl.
    rewrite Hf, Hg. auto.
Qed.

Lemma filter_none_all (p : string -> bool) l :
  filter p l = [] -> filter (fun x => negb (p x)) l = l.
Proof.
  induction l as [|a l IH]; simpl; [reflexivity|].
  destruct (p a); simpl; [discriminate|]. intros H; now rewrite IH.
Qed.

Lemma indexOf_name_nth n : forall l i,
  indexOf_name n l = Some i -> nth_error l i = Some n.
Proof.
  induction l as [|a l IH]; intros i; simpl; [discriminate|].
  destruct (String.eqb a n) eqn:E.
  - apply String.eqb_eq in E; subst. now intros [= <-].
  - destruct (indexOf_name n l) as [j|]; [|discriminate].
    intros [= <-]; simpl. now apply IH.
Qed.

Lemma spliced_found n l : In n l -> spliced (indexOf_name n l) l = Some n.
Proof.
  intros Hin. destruct (indexOf_name n l) as [i|] eqn:E; simpl.
  - now apply indexOf_name_nth.
  - now apply indexOf_name_none in E.
Qed.

(** What the removal of a name leaves alone: a name held by a side is
    taken from that side only, and the current name from [current]
    only. *)
Lemma remove_one_frame name st :
  let st' := fst (fst (remove_one name st)) in
  (In name (left st) ->
     left st' = remove_first name (left st) /\
     right st' = right st /\ current st' = current st) /\
  (~ In name (left st) -> In name (right st) ->
     left st' = left st /\
     right st' = remove_first name (right st) /\ current st' = current st) /\
  (~ In name (left st) -> ~ In name (right st) ->
     left st' = left st /\ right st' = right st /\ current st' = None).
Proof.
  unfold remove_one, remove_first; simpl.
  destruct (spliced (indexOf_name name (imgs st)) (imgs st));
    destruct (indexOf_name name (left st)) as [i|] eqn:El;
    try destruct (indexOf_name name (right st)) as [j|] eqn:Er; simpl;
    repeat split; auto; intros;
    repeat match goal with
    | H : indexOf_name _ _ = None |- _ => apply indexOf_name_none in H
    | H : indexOf_name _ _ = Some _ |- _ => apply indexOf_name_some in H
    end; try contradiction; auto.
Qed.

End RosterFacts.

Section RefreshFacts.

Variable s : Settings.

Lemma remove_one_lists name st :
  nameList (fst (fst (remove_one name st))) = remove_first name (nameList st) /\
  imgs (fst (fst (remove_one name st))) = remove_first name (imgs st) /\
  (In name (imgs st) -> snd (remove_one name st) = true).
Proof.
  unfold remove_one; simpl.
  destruct (spliced (indexOf_name name (imgs st)) (imgs st)) as [w|] eqn:Ew;
    destruct (indexOf_name name (left st));
    try destruct (indexOf_name name (right st)); simpl; repeat split; auto;
    intros Hin; rewrite (spliced_found _ _ Hin) in Ew; discriminate.
Qed.

Lemma remove_loop_filter (p : string -> bool) : forall r st,
  filter p (nameList st) = r -> imgs st = nameList st ->
  snd (remove_loop r st) = true /\
  nameList (fst (fst (remove_loop r st))) = filter (fun x => negb (p x)) (nameList st) /\
  imgs (fst (fst (remove_loop r st))) = nameList (fst (fst (remove_loop r st))).
Proof.
  induction r as [|n r IH]; intros st Hf Hw; simpl.
  - repeat split; [|exact Hw]. symmetry; now apply filter_none_all.
  - destruct (filter_head_remove p _ Hf) as (Hin & Hr & Hneg).
    destruct (remove_one_lists n st) as (Hn & Hi & Hok).
    rewrite Hw in Hi, Hok. specialize (Hok Hin).
    destruct (remove_one n st) as [[st1 eff] ok]; simpl in *; subst ok.
    rewrite <- Hn in Hr, Hneg.
    assert (Hw1 : imgs st1 = nameList st1) by congruence.
    destruct (IH st1 Hr Hw1) as (H1 & H2 & H3).
    destruct (remove_loop r st1) as [[st2 eff2] ok2]; simpl in *.
    repeat split; [exact H1 | congruence | exact H3].
Qed.

Lemma pop_loop_noop cap : forall rside p,
  cap = (-1)%Z \/ (Z.of_nat (length rside) <= cap)%Z ->
  pop_loop cap rside p = (rside, p).
Proof.
  intros [|x r] p H; [reflexivity|]. cbn [pop_loop].
  destruct (Z.eqb_spec cap (-1)); cbn [negb andb]; [reflexivity|].
  destruct H as [H|H]; [contradiction|].
  destruct (Z.gtb_spec (Z.of_nat (length (x :: r))) cap); [lia | reflexivity].
Qed.

Lemma pop_loop_bound cap : (-1 <= cap)%Z -> cap <> (-1)%Z -> forall rside p,
  (Z.of_nat (length (fst (pop_loop cap rside p))) <= cap)%Z.
Proof.
  intros Hc Hne. induction rside as [|x r IH]; intros p; [simpl; lia|].
  cbn [pop_loop].
  destruct (Z.eqb_spec cap (-1)); [contradiction|]. cbn [negb andb].
  destruct (Z.gtb_spec (Z.of_nat (length (x :: r))) cap); [apply IH|].
  cbn [fst]. lia.
Qed.

Lemma shrink_lists st :
  nameList (fst (shrink s st)) = nameList st /\
  imgs (fst (shrink s st)) = imgs st /\
  current (fst (shrink s st)) = current st.
Proof.
  unfold shrink.
  destruct (pop_loop (numLeft s) (rev (left st)) []) as [rl p1].
  destruct (pop_loop (numRight s) (rev (right st)) p1) as [rr p2].
  simpl; auto.
Qed.

Lemma shrink_within_caps st :
  (-1 <= numLeft s)%Z -> (-1 <= numRight s)%Z -> within_caps s (fst (shrink s st)).
Proof.
  intros Hl Hr. unfold shrink.
  pose proof (fun H => pop_loop_bound Hl H (rev (left st)) []) as Bl.
  destruct (pop_loop (numLeft s) (rev (left st)) []) as [rl p1].
  pose proof (fun H => pop_loop_bound Hr H (rev (right st)) p1) as Br.
  destruct (pop_loop (numRight s) (rev (right st)) p1) as [rr p2].
  split; simpl; intros H; rewrite length_rev; auto.
Qed.

Lemma shrink_noop st : within_caps s st -> shrink s st = (st, []).
Proof.
  intros [Hl Hr]. unfold shrink.
  rewrite pop_loop_noop.
  2:{ destruct (Z.eq_dec (numLeft s) (-1)); [now left | right].
      rewrite length_rev; auto. }
  rewrite pop_loop_noop.
  2:{ destruct (Z.eq_dec (numRight s) (-1)); [now left | right].
      rewrite length_rev; auto. }
  destruct st; unfold set_left, set_right; simpl. now rewrite !rev_involutive.
Qed.

Lemma place_lists name st :
  nameList (place s name st) = nameList st /\ imgs (place s name st) = imgs st.
Proof. unfold place; destruct (side_for s st); simpl; auto. Qed.

Lemma place_within_caps name st : within_caps s st -> within_caps s (place s name st).
Proof.
  intros [Hl Hr]. unfold place, side_for.
  destruct (negb (truthy (current st))); [split; simpl; auto|].
  destruct ((Z.of_nat (length (left st)) <? numLeft s)%Z || (numLeft s =? -1)%Z) eqn:E1;
    simpl.
  - destruct ((Z.of_nat (length (left st)) <=? Z.of_nat (length (right st)))%Z
              || (Z.of_nat (length (right st)) >=? numRight s)%Z) eqn:E2; simpl.
    + split; simpl; auto. intros Hne. rewrite length_app; simpl.
      apply orb_true_iff in E1. destruct E1 as [E1|E1]; [apply Z.ltb_lt in E1; lia|].
      apply Z.eqb_eq in E1; contradiction.
    + destruct ((Z.of_nat (length (right st)) <? numRight s)%Z || (numRight s =? -1)%Z) eqn:E3;
        split; simpl; auto.
      intros Hne. rewrite length_app; simpl.
      apply orb_true_iff in E3. destruct E3 as [E3|E3]; [apply Z.ltb_lt in E3; lia|].
      apply Z.eqb_eq in E3; contradiction.
  - destruct ((Z.of_nat (length (right st)) <? numRight s)%Z || (numRight s =? -1)%Z) eqn:E3;
      split; simpl; auto.
    intros Hne. rewrite length_app; simpl.
    apply orb_true_iff in E3. destruct E3 as [E3|E3]; [apply Z.ltb_lt in E3; lia|].
    apply Z.eqb_eq in E3; contradiction.
Qed.

Lemma truthy_false_current st n :
  truthy (current st) = false -> current st = Some n -> n = "".
Proof.
  intros Ht Hc. rewrite Hc in Ht. simpl in Ht.
  apply negb_false_iff, String.eqb_eq in Ht. exact Ht.
Qed.

(** A name other than the empty one keeps its place when another is
    placed. *)
Lemma place_keeps name st n :
  n <> "" -> assigned st n -> assigned (place s name st) n.
Proof.
  intros Hne Ha. unfold place, side_for.
  destruct (truthy (current st)) eqn:Et; simpl.
  - destruct (_ && _); [|destruct (_ || _)]; unfold assigned in *; simpl; auto.
    destruct Ha as [H|[H|H]]; auto. left; apply in_or_app; auto.
    destruct Ha as [H|[H|H]]; auto. right; left; apply in_or_app; auto.
  - destruct Ha as [H|[H|H]]; unfold assigned; simpl; auto.
    exfalso; apply Hne. eapply truthy_false_current; eauto.
Qed.

(** While the backfill condition holds, the chain finds a place. *)
Lemma place_places name st : room s st = true -> assigned (place s name st) name.
Proof.
  unfold room, place, side_for, assigned.
  destruct (truthy (current st)); simpl; [|auto].
  rewrite orb_false_r.
  destruct (Z.eqb_spec (numLeft s) (-1)), (Z.eqb_spec (numRight s) (-1)),
           (Z.ltb_spec (Z.of_nat (length (left st))) (numLeft s)),
           (Z.ltb_spec (Z.of_nat (length (right st))) (numRight s)),
           (Z.leb_spec (Z.of_nat (length (left st))) (Z.of_nat (length (right st)))),
           (Z.geb_spec (Z.of_nat (length (right st))) (numRight s));
    simpl; intros Hroom; try discriminate; try lia;
    (left; apply in_or_app; right; now left)
    || (right; left; apply in_or_app; right; now left).
Qed.

Lemma backfill_loop_lists : forall rq st,
  nameList (backfill_loop s rq st) = nameList st /\
  imgs (backfill_loop s rq st) = imgs st.
Proof.
  induction rq as [|n rq IH]; intros st; simpl; [auto|].
  destruct (room s st); [|auto].
  destruct (IH (place s n st)) as [H1 H2].
  destruct (place_lists n st) as [H3 H4]. split; congruence.
Qed.

Lemma backfill_loop_within_caps : forall rq st,
  within_caps s st -> within_caps s (backfill_loop s rq st).
Proof.
  induction rq as [|n rq IH]; intros st H; simpl; [exact H|].
  destruct (room s st); [|exact H]. apply IH. now apply place_within_caps.
Qed.

(** The backfill loop stops because the condition fails or because every
    queued name has found a place; names that had one keep it. *)
Lemma backfill_loop_done : forall rq st,
  Forall (fun n => n <> "") rq ->
  (forall n, n <> "" -> assigned st n -> assigned (backfill_loop s rq st) n) /\
  (room s (backfill_loop s rq st) = false \/
   forall n, In n rq -> assigned (backfill_loop s rq st) n).
Proof.
  induction rq as [|m rq IH]; intros st Hne; simpl.
  - split; [auto | right; intros n []].
  - inversion Hne as [|? ? Hm Hrq]; subst.
    destruct (room s st) eqn:Er; [|split; auto].
    destruct (IH (place s m st) Hrq) as [Hkeep Hdone]. split.
    + intros n Hn Ha. apply Hkeep; [exact Hn|]. now apply place_keeps.
    + destruct Hdone as [Hd|Hd]; [now left | right].
      intros n [<-|Hin]; [|now apply Hd].
      apply Hkeep; [exact Hm|]. now apply place_places.
Qed.

Lemma add_loop_lists : forall added st,
  nameList (fst (add_loop s added st)) = nameList st ++ added /\
  imgs (fst (add_loop s added st)) = imgs st ++ added.
Proof.
  unfold add_loop; simpl.
  induction added as [|n added IH]; intros st; simpl.
  - now rewrite !app_nil_r.
  - destruct (IH (add_one s n st)) as [H1 H2]. rewrite H1, H2.
    unfold add_one. simpl.
    destruct (place_lists n (set_nameList (nameList st ++ [n]) st)) as [H3 H4].
    rewrite H3, H4. simpl. now rewrite <- !app_assoc.
Qed.

Lemma add_loop_within_caps : forall added st,
  within_caps s st -> within_caps s (fst (add_loop s added st)).
Proof.
  unfold add_loop; simpl.
  induction added as [|n added IH]; intros st H; simpl; [exact H|].
  apply IH. unfold add_one.
  assert (H' : within_caps s (place s n (set_nameList (nameList st ++ [n]) st)))
    by (apply place_within_caps; exact H).
  exact H'.
Qed.

Lemma replace_loop_facts : forall purgatory st eff,
  within_caps s st ->
  within_caps s (fst (fold_left (replace_one s) purgatory (st, eff))) /\
  nameList (fst (fold_left (replace_one s) purgatory (st, eff))) = nameList st /\
  imgs (fst (fold_left (replace_one s) purgatory (st, eff))) = imgs st.
Proof.
  induction purgatory as [|n pg IH]; intros st eff H; simpl; [auto|].
  destruct (side_for s st) eqn:E.
  1-3: destruct (IH (place s n st) eff (place_within_caps n H)) as (H1 & H2 & H3);
       destruct (place_lists n st) as [H4 H5];
       (split; [exact H1 | split; congruence]).
  apply IH; exact H.
Qed.

End RefreshFacts.

Section RefreshTwice.

Variable s : Settings.

Lemma filter_nil (A : Type) (p : A -> bool) (l : list A) :
  (forall x, In x l -> p x = false) -> filter p l = [].
Proof.
  induction l as [|a l IH]; simpl; intros H; [reflexivity|].
  rewrite (H a) by now left. apply IH. intros x Hx; apply H; now right.
Qed.

Lemma is_current_true st n : is_current st n = true -> current st = Some n.
Proof.
  unfold is_current. destruct (current st) as [c|]; [|discriminate].
  intros H; apply String.eqb_eq in H; now subst.
Qed.

Lemma not_queued_assigned st n :
  In n (nameList st) -> ~ In n (backfill_queue st) -> assigned st n.
Proof.
  intros Hin Hq. unfold backfill_queue in Hq. rewrite filter_In in Hq.
  destruct (includes n (left st)) eqn:El; [left; now apply includes_In|].
  destruct (includes n (right st)) eqn:Er; [right; left; now apply includes_In|].
  destruct (is_current st n) eqn:Ec; [right; right; now apply is_current_true|].
  exfalso; apply Hq; split; [exact Hin | reflexivity].
Qed.

Lemma backfill_queue_nil st :
  (forall n, In n (nameList st) -> assigned st n) -> backfill_queue st = [].
Proof.
  intros H. apply filter_nil. intros n Hn.
  destruct (H n Hn) as [Ha|[Ha|Ha]].
  - apply includes_In in Ha. now rewrite Ha.
  - apply includes_In in Ha. rewrite Ha. now rewrite andb_false_r.
  - unfold is_current. rewrite Ha, String.eqb_refl. now rewrite andb_false_r.
Qed.

Lemma backfill_loop_no_room rq st : room s st = false -> backfill_loop s rq st = st.
Proof. intros H; destruct rq; simpl; [reflexivity | now rewrite H]. Qed.

(** The roster a refresh leaves, when the wrappers mirror the name list
    on entry: the names kept followed by the names added, the wrappers
    still in step, both sides within capacity, and a backfill pass that
    has nothing left to do. *)
Lemma updateMembers_post names st :
  (-1 <= numLeft s)%Z -> (-1 <= numRight s)%Z ->
  imgs st = nameList st ->
  let st1 := fst (updateMembers s names st) in
  nameList st1 =
    filter (fun x => negb (negb (includes x names))) (nameList st)
    ++ filter (fun it => negb (includes it (nameList st))) names /\
  imgs st1 = nameList st1 /\
  within_caps s st1 /\
  (Forall (fun n => n <> "") names -> room s st1 = false \/ backfill_queue st1 = []).
Proof.
  intros Hl Hr Hw. unfold updateMembers.
  set (added := filter (fun it => negb (includes it (nameList st))) names).
  destruct (remove_loop_filter (fun it => negb (includes it names)) st eq_refl Hw)
    as (Hok & HnR & HiR).
  destruct (remove_loop (filter (fun it => negb (includes it names)) (nameList st)) st)
    as [[stR effR] ok]; simpl in Hok, HnR, HiR; subst ok.
  destruct (shrink_lists s stR) as (Hn2 & Hi2 & _).
  pose proof (@shrink_within_caps s stR Hl Hr) as Hc2.
  destruct (shrink s stR) as [st2 pg]; simpl in Hn2, Hi2, Hc2.
  destruct (add_loop_lists s added st2) as (Hn3 & Hi3).
  pose proof (@add_loop_within_caps s added st2 Hc2) as Hc3.
  destruct (add_loop s added st2) as [st3 eff3]; simpl in Hn3, Hi3, Hc3.
  destruct (@replace_loop_facts s pg st3 [] Hc3) as (Hc4 & Hn4 & Hi4).
  destruct (fold_left (replace_one s) pg (st3, [])) as [st4 eff4];
    simpl in Hn4, Hi4, Hc4.
  simpl.
  destruct (backfill_loop_lists s (rev (backfill_queue st4)) st4) as (Hn5 & Hi5).
  assert (Hnames : nameList st4 =
    filter (fun x => negb (negb (includes x names))) (nameList st) ++ added)
    by congruence.
  repeat split.
  - congruence.
  - congruence.
  - apply (@backfill_loop_within_caps s _ st4 Hc4).
  - apply (@backfill_loop_within_caps s _ st4 Hc4).
  - intros Hne.
    assert (Hsub : forall n, In n (nameList st4) -> n <> "").
    { intros n Hn. rewrite Hnames in Hn. rewrite Forall_forall in Hne. apply Hne.
      apply in_app_or in Hn. destruct Hn as [Hn|Hn]; apply filter_In in Hn.
      - destruct Hn as [_ Hn]. rewrite negb_involutive in Hn. now apply includes_In.
      - tauto. }
    assert (Hq : Forall (fun n => n <> "") (rev (backfill_queue st4))).
    { apply Forall_forall. intros n Hn. apply in_rev in Hn.
      unfold backfill_queue in Hn. apply filter_In in Hn. apply Hsub; tauto. }
    destruct (@backfill_loop_done s _ st4 Hq) as [Hkeep [Hd|Hd]]; [now left | right].
    apply backfill_queue_nil. rewrite Hn5. intros n Hn.
    destruct (in_dec string_dec n (backfill_queue st4)) as [Hin|Hout].
    + apply Hd. now apply in_rev in Hin.
    + apply Hkeep; [now apply Hsub | now apply not_queued_assigned].
Qed.

(** A second refresh with the same desired names changes nothing, when
    every lookup resolves. *)
Lemma refresh_idempotent_resolved (names : list string) (st : Roster) :
  (-1 <= numLeft s)%Z -> (-1 <= numRight s)%Z ->
  Forall (fun n => n <> "") names ->
  imgs st = nameList st ->
  updateMembers s names (fst (updateMembers s names st)) =
  (fst (updateMembers s names st), []).
Proof.
  intros Hl Hr Hne Hw.
  destruct (updateMembers_post names st Hl Hr Hw) as (Hn & Hi & Hc & Hb).
  specialize (Hb Hne).
  set (st1 := fst (updateMembers s names st)) in *.
  assert (Hin : forall n, In n (nameList st1) <-> In n names).
  { intros n. rewrite Hn, in_app_iff, !filter_In, negb_involutive, includes_In.
    rewrite negb_true_iff, includes_not_In.
    destruct (in_dec string_dec n (nameList st)); tauto. }
  unfold updateMembers.
  rewrite (filter_nil (fun it => negb (includes it names)) (nameList st1)).
  2:{ intros n Hx. apply negb_false_iff, includes_In, Hin, Hx. }
  rewrite (filter_nil (fun it => negb (includes it (nameList st1))) names).
  2:{ intros n Hx. apply negb_false_iff, includes_In, Hin, Hx. }
  cbn [remove_loop]. rewrite (@shrink_noop s st1 Hc).
  cbn [add_loop fold_left map app].
  f_equal. destruct Hb as [Hb|Hb].
  - now apply backfill_loop_no_room.
  - rewrite Hb. reflexivity.
Qed.

(** The wrappers mirror the name list in every roster that refreshes
    build from the empty one. *)
Lemma updateMembers_wrappers names st :
  (-1 <= numLeft s)%Z -> (-1 <= numRight s)%Z ->
  imgs st = nameList st ->
  imgs (fst (updateMembers s names st)) = nameList (fst (updateMembers s names st)).
Proof. intros Hl Hr Hw. now destruct (updateMembers_post names st Hl Hr Hw) as (_ & H & _). Qed.

End RefreshTwice.

(** ** The order from the chat history *)

Example order_by_match_position :
  getOrderFromText
    [said "Narrator" "Carol sits."; said "Narrator" "Then Bob greets Alice."]
    ["Alice"; "Bob"; "Carol"; "Dave"] = ["Bob"; "Alice"; "Carol"].
Proof. vm_compute. reflexivity. Qed.

(** C8 (as stated) fails: the regexes of [getOrderFromText] have no [i]
    flag.  In the message below the rule of the presence counter finds
    Bob, at position 0 and so ahead of Alice; the code does not find Bob
    at all. *)
Lemma order_from_text_is_case_sensitive :
  let chat := [said "Narrator" "bob greets Alice"] in
  first_match true "Bob" "bob greets Alice" = Some 0 /\
  first_match false "Bob" "bob greets Alice" = None /\
  order_from_text_spec chat ["Alice"; "Bob"] = ["Bob"; "Alice"] /\
  getOrderFromText chat ["Alice"; "Bob"] = ["Alice"] /\
  getOrderFromText chat ["Alice"; "Bob"] <> order_from_text_spec chat ["Alice"; "Bob"].
Proof. vm_compute. repeat split. discriminate. Qed.

Section HistoryOrderFacts.

Variable ignoreCase : bool.

Lemma collect_mesmem_names members text :
  map fst (collect_mesmem ignoreCase members text) = filter (found ignoreCase text) members.
Proof.
  induction members as [|m r IH]; simpl; [reflexivity|].
  unfold found at 1. destruct (first_match ignoreCase m text); simpl; now rewrite IH.
Qed.

Lemma collect_mesmem_index members text m i :
  In (m, i) (collect_mesmem ignoreCase members text) ->
  first_match ignoreCase m text = Some i.
Proof.
  induction members as [|x r IH]; simpl; [tauto|].
  destruct (first_match ignoreCase x text) as [k|] eqn:E; [|exact IH].
  intros [[= <- <-]|H]; [exact E | now apply IH].
Qed.

Lemma insert_by_index_perm x l : Permutation (insert_by_index x l) (x :: l).
Proof.
  induction l as [|y r IH]; simpl; [reflexivity|].
  destruct (snd y <? snd x); [|reflexivity].
  rewrite IH. apply perm_swap.
Qed.

Lemma sort_by_index_perm l : Permutation (sort_by_index l) l.
Proof.
  induction l as [|x l IH]; simpl; [reflexivity|].
  rewrite insert_by_index_perm. now constructor.
Qed.

Lemma insert_by_index_sorted x l :
  index_sorted l -> index_sorted (insert_by_index x l).
Proof.
  induction l as [|y r IH]; simpl; [intros _; split; [intros ? [] | exact I]|].
  intros [Hy Hr]. destruct (snd y <? snd x) eqn:E.
  - apply Nat.ltb_lt in E. simpl. split; [|now apply IH].
    intros z Hz. apply (Permutation_in _ (insert_by_index_perm x r)) in Hz.
    destruct Hz as [<-|Hz]; [lia | now apply Hy].
  - apply Nat.ltb_ge in E. simpl. split; [|split; assumption].
    intros z [<-|Hz]; [exact E|]. specialize (Hy z Hz). lia.
Qed.

Lemma sort_by_index_sorted l : index_sorted (sort_by_index l).
Proof.
  induction l as [|x l IH]; simpl; [exact I|]. now apply insert_by_index_sorted.
Qed.

Lemma indexOf_name_In_some n l : In n l -> exists i, indexOf_name n l = Some i.
Proof.
  intros H. destruct (indexOf_name n l) as [i|] eqn:E; [now exists i|].
  now apply indexOf_name_none in E.
Qed.

Lemma before_cons_head a b l : a <> b -> In b l -> before a b (a :: l).
Proof.
  intros Hne Hin. destruct (indexOf_name_In_some _ _ Hin) as [j Hj].
  exists 0, (S j). simpl. rewrite String.eqb_refl.
  assert (E : String.eqb a b = false) by now apply String.eqb_neq.
  rewrite E, Hj. repeat split; lia.
Qed.

Lemma before_cons_other x a b l :
  x <> a -> x <> b -> before a b l -> before a b (x :: l).
Proof.
  intros Ha Hb (i & j & Hi & Hj & Hlt). exists (S i), (S j). simpl.
  apply String.eqb_neq in Ha, Hb. rewrite Ha, Hb, Hi, Hj. repeat split; lia.
Qed.

Lemma before_app_left a b pre l :
  ~ In a pre -> ~ In b pre -> before a b l -> before a b (pre ++ l).
Proof.
  induction pre as [|x pre IH]; simpl; intros Ha Hb H; [exact H|].
  apply before_cons_other; [tauto | tauto | apply IH; tauto].
Qed.

Lemma indexOf_name_app_l n l l' i :
  indexOf_name n l = Some i -> indexOf_name n (l ++ l') = Some i.
Proof.
  revert i; induction l as [|x l IH]; intros i; simpl; [discriminate|].
  destruct (String.eqb x n); [trivial|].
  destruct (indexOf_name n l) as [k|]; [|discriminate].
  intros [= <-]. now rewrite (IH k eq_refl).
Qed.

Lemma before_app_right a b l l' : before a b l -> before a b (l ++ l').
Proof.
  intros (i & j & Hi & Hj & Hlt). exists i, j.
  repeat split; [now apply indexOf_name_app_l | now apply indexOf_name_app_l | exact Hlt].
Qed.

(** In a list sorted by index, a name whose entries carry a smaller index
    comes before a name whose entries carry a larger one. *)
Lemma sorted_before (idx : string -> nat) a b : forall l,
  index_sorted l ->
  (forall m i, In (m, i) l -> i = idx m) ->
  idx a < idx b ->
  In a (map fst l) -> In b (map fst l) ->
  before a b (map fst l).
Proof.
  induction l as [|[x k] r IH]; simpl; [tauto|].
  intros [Hx Hr] Hidx Hlt Ha Hb.
  assert (Hk : k = idx x) by (apply Hidx; now left).
  assert (Hne : a <> b) by (intros ->; lia).
  destruct (string_dec x a) as [->|Hxa].
  - apply before_cons_head; [exact Hne|]. destruct Hb as [Hb|Hb]; [congruence | exact Hb].
  - destruct Ha as [Ha|Ha]; [contradiction|].
    destruct (string_dec x b) as [->|Hxb].
    + exfalso. apply in_map_iff in Ha. destruct Ha as ([a' i] & Hf & Hin).
      simpl in Hf; subst a'. specialize (Hx _ Hin). simpl in Hx.
      assert (i = idx a) by (apply Hidx; now right). lia.
    + destruct Hb as [Hb|Hb]; [contradiction|].
      apply before_cons_other; [exact Hxa | exact Hxb | apply IH; auto].
Qed.

Lemma indexOf_name_app_fresh n pre l :
  ~ In n pre ->
  indexOf_name n (pre ++ l) = option_map (Nat.add (length pre)) (indexOf_name n l).
Proof.
  induction pre as [|x pre IH]; simpl; intros H.
  - destruct (indexOf_name n l); reflexivity.
  - assert (E : String.eqb x n = false) by (apply String.eqb_neq; tauto).
    rewrite E, IH by tauto. destruct (indexOf_name n l); reflexivity.
Qed.

Lemma indexOf_name_lt n l i : indexOf_name n l = Some i -> i < length l.
Proof. intros H. apply indexOf_name_nth in H. eapply nth_error_Some_lt; eauto. Qed.

(** The filter of [first_occurrences], unfolded one element at a time. *)
Lemma filter_first_step pre x r :
  filter_first (pre ++ x :: r) (x :: r) (length pre) =
  (if includes x pre then [] else [x])
  ++ filter_first ((pre ++ [x]) ++ r) r (length (pre ++ [x])).
Proof.
  simpl. rewrite <- app_assoc; simpl.
  rewrite length_app, Nat.add_1_r.
  unfold includes. destruct (indexOf_name x pre) as [k|] eqn:E.
  - rewrite (indexOf_name_app_l _ _ (x :: r) E).
    apply indexOf_name_lt in E.
    destruct (Nat.eqb_spec (length pre) k); [lia | reflexivity].
  - rewrite indexOf_name_app_fresh by (now apply indexOf_name_none).
    simpl. rewrite String.eqb_refl; simpl.
    rewrite Nat.add_0_r, Nat.eqb_refl. reflexivity.
Qed.

Lemma filter_first_In n : forall r pre,
  In n (filter_first (pre ++ r) r (length pre)) <-> In n r /\ ~ In n pre.
Proof.
  induction r as [|x r IH]; intros pre; [simpl; tauto|].
  rewrite filter_first_step, in_app_iff, IH, in_app_iff.
  destruct (includes x pre) eqn:E.
  - apply includes_In in E. simpl.
    destruct (string_dec x n) as [->|Hne]; tauto.
  - apply includes_not_In in E. simpl.
    destruct (string_dec x n) as [->|Hne]; tauto.
Qed.

Lemma filter_first_before a b : forall r pre,
  ~ In a pre -> ~ In b pre -> before a b r ->
  before a b (filter_first (pre ++ r) r (length pre)).
Proof.
  induction r as [|x r IH]; intros pre Ha Hb (i & j & Hi & Hj & Hlt);
    [simpl in Hi; discriminate|].
  rewrite filter_first_step.
  simpl in Hi, Hj.
  destruct (String.eqb x a) eqn:Exa.
  - apply String.eqb_eq in Exa; subst x.
    assert (Ei : includes a pre = false) by now apply includes_not_In.
    rewrite Ei. simpl.
    destruct (String.eqb a b) eqn:Eab; [injection Hi as <-; injection Hj as <-; lia|].
    apply String.eqb_neq in Eab.
    apply before_cons_head; [exact Eab|].
    apply filter_first_In. split.
    + destruct (indexOf_name b r) eqn:E; [|discriminate].
      eapply indexOf_name_some; eauto.
    + rewrite in_app_iff; simpl. intuition congruence.
  - destruct (String.eqb x b) eqn:Exb.
    + injection Hj as <-. lia.
    + apply String.eqb_neq in Exa, Exb.
      destruct (indexOf_name a r) as [i'|] eqn:Ea; [|discriminate].
      destruct (indexOf_name b r) as [j'|] eqn:Eb; [|discriminate].
      injection Hi as <-. injection Hj as <-.
      assert (Hrec : before a b (filter_first ((pre ++ [x]) ++ r) r (length (pre ++ [x])))).
      { apply IH.
        - rewrite in_app_iff; simpl; intuition congruence.
        - rewrite in_app_iff; simpl; intuition congruence.
        - exists i', j'. repeat split; auto; lia. }
      destruct (includes x pre); simpl; [exact Hrec|].
      apply before_cons_other; auto.
Qed.

Lemma first_occurrences_before a b l :
  before a b l -> before a b (first_occurrences l).
Proof. intros H. apply (@filter_first_before a b l []); simpl; auto. Qed.

Lemma first_occurrences_In n l : In n (first_occurrences l) <-> In n l.
Proof.
  unfold first_occurrences. pose proof (filter_first_In n l []) as H.
  simpl in H. rewrite H. tauto.
Qed.

End HistoryOrderFacts.

Section HistoryLoopFacts.

Variable ignoreCase : bool.

Lemma remove_first_filter (p : string -> bool) x : forall l,
  In x l -> p x = true ->
  Permutation (filter p l) (x :: filter p (remove_first x l)) /\
  filter (fun n => negb (p n)) (remove_first x l) = filter (fun n => negb (p n)) l.
Proof.
  induction l as [|a l IH]; simpl; [tauto|]. intros Hin Hp.
  destruct (string_dec a x) as [->|Hne].
  - rewrite remove_first_head, Hp. simpl. split; reflexivity.
  - destruct Hin as [Hin|Hin]; [contradiction|].
    rewrite remove_first_tail by assumption.
    destruct (IH Hin Hp) as [H1 H2]. simpl.
    destruct (p a); simpl.
    + split; [|exact H2]. rewrite H1. apply perm_swap.
    + split; [exact H1 | now rewrite H2].
Qed.

Lemma drop_names_filter (p : string -> bool) : forall r l,
  Permutation r (filter p l) ->
  fold_left (fun ms n => remove_first n ms) r l = filter (fun n => negb (p n)) l.
Proof.
  induction r as [|x r IH]; intros l Hp; simpl.
  - apply Permutation_nil in Hp. symmetry. now apply filter_none_all.
  - assert (Hx : In x (filter p l)) by (apply (Permutation_in _ Hp); now left).
    apply filter_In in Hx. destruct Hx as [Hin Hpx].
    destruct (remove_first_filter p x l Hin Hpx) as [H1 H2].
    rewrite IH; [exact H2|].
    apply Permutation_cons_inv with (a := x). now rewrite Hp.
Qed.

Lemma drop_found_names : forall mesmem members,
  drop_found mesmem members =
  fold_left (fun ms n => remove_first n ms) (map fst mesmem) members.
Proof.
  unfold drop_found. induction mesmem as [|m r IH]; intros members; simpl; [reflexivity|].
  apply IH.
Qed.

(** After a message, [members] holds the names not found in it. *)
Lemma drop_found_sorted members text :
  drop_found (sort_by_index (collect_mesmem ignoreCase members text)) members =
  filter (fun n => negb (found ignoreCase text n)) members.
Proof.
  rewrite drop_found_names. apply drop_names_filter.
  rewrite <- collect_mesmem_names. apply Permutation_map, sort_by_index_perm.
Qed.

Lemma order_loop_acc : forall mesList members o,
  order_loop ignoreCase mesList members o = o ++ order_loop ignoreCase mesList members [].
Proof.
  induction mesList as [|m rest IH]; intros members o; simpl.
  - now rewrite app_nil_r.
  - rewrite IH. rewrite (IH _ (first_occurrences _)). now rewrite app_assoc.
Qed.

Lemma order_loop_cons m rest members :
  order_loop ignoreCase (m :: rest) members [] =
  first_occurrences
    (map fst (sort_by_index (collect_mesmem ignoreCase members (mes m))))
  ++ order_loop ignoreCase rest
       (filter (fun n => negb (found ignoreCase (mes m) n)) members) [].
Proof. simpl. rewrite order_loop_acc, drop_found_sorted. reflexivity. Qed.

(** The names a message contributes are those found in it. *)
Lemma contributed_found members text n :
  In n (first_occurrences
          (map fst (sort_by_index (collect_mesmem ignoreCase members text)))) <->
  In n members /\ found ignoreCase text n = true.
Proof.
  rewrite first_occurrences_In, <- filter_In, <- collect_mesmem_names.
  split; apply Permutation_in; apply Permutation_map;
    [|symmetry]; apply sort_by_index_perm.
Qed.

Lemma order_loop_tie_break a b ia ib m post : forall pre members,
  (forall m', In m' pre ->
     first_match ignoreCase a (mes m') = None /\
     first_match ignoreCase b (mes m') = None) ->
  In a members -> In b members ->
  first_match ignoreCase a (mes m) = Some ia ->
  first_match ignoreCase b (mes m) = Some ib ->
  ia < ib ->
  before a b (order_loop ignoreCase (pre ++ m :: post) members []).
Proof.
  induction pre as [|m' pre IH]; intros members Hpre Ha Hb Hia Hib Hlt.
  - simpl app. rewrite order_loop_cons. apply before_app_right.
    apply first_occurrences_before.
    set (idx := fun n => match first_match ignoreCase n (mes m) with
                         | Some i => i | None => 0 end).
    apply sorted_before with (idx := idx).
    + apply sort_by_index_sorted.
    + intros n i Hin. apply (Permutation_in _ (sort_by_index_perm _)) in Hin.
      apply collect_mesmem_index in Hin. unfold idx. now rewrite Hin.
    + unfold idx. now rewrite Hia, Hib.
    + apply (Permutation_in _ (Permutation_map fst (Permutation_sym (sort_by_index_perm _)))).
      rewrite collect_mesmem_names. apply filter_In. split; [exact Ha|].
      unfold found. now rewrite Hia.
    + apply (Permutation_in _ (Permutation_map fst (Permutation_sym (sort_by_index_perm _)))).
      rewrite collect_mesmem_names. apply filter_In. split; [exact Hb|].
      unfold found. now rewrite Hib.
  - simpl app. rewrite order_loop_cons.
    destruct (Hpre m' (or_introl eq_refl)) as [Na Nb].
    apply before_app_left.
    + rewrite contributed_found. unfold found. rewrite Na. intros [_ H]; discriminate.
    + rewrite contributed_found. unfold found. rewrite Nb. intros [_ H]; discriminate.
    + apply IH; auto.
      * intros m'' Hin. apply Hpre. now right.
      * apply filter_In. split; [exact Ha|]. unfold found. now rewrite Na.
      * apply filter_In. split; [exact Hb|]. unfold found. now rewrite Nb.
Qed.

End HistoryLoopFacts.

(** C8 (as amended).  In the order [getOrderFromText] derives for a
    custom member list, of two names first found in the same message the
    one whose first match starts earlier in the text of that message
    comes first; a match is an occurrence of the name, compared with
    case, preceded and followed by a non-word character or the boundary
    of the text, and starts at its leading delimiter when it has one. *)
Theorem order_from_text_tie_break (chat : list Message) (members : list string)
  (a b : string) (older newer : list Message) (m : Message) (ia ib : nat) :
  filter (fun it => negb (is_system it) && negb (is_user it)) chat
    = older ++ m :: newer ->
  In a members -> In b members ->
  (forall m', In m' newer ->
     first_match false a (mes m') = None /\ first_match false b (mes m') = None) ->
  first_match false a (mes m) = Some ia ->
  first_match false b (mes m) = Some ib ->
  ia < ib ->
  before a b (getOrderFromText chat members).
Proof.
  intros Hchat Ha Hb Hnew Hia Hib Hlt.
  unfold getOrderFromText, order_from_text, mesList_of.
  rewrite Hchat, rev_app_distr. simpl. rewrite <- app_assoc. simpl.
  apply order_loop_tie_break with (ia := ia) (ib := ib); auto.
  intros m' Hin. apply Hnew. now apply in_rev.
Qed.

Lemma order_from_text_tie_break_witness :
  before "Bob" "Alice"
    (getOrderFromText
       [said "Narrator" "Carol sits."; said "Narrator" "Then Bob greets Alice."]
       ["Alice"; "Bob"; "Carol"; "Dave"]).
Proof.
  apply (@order_from_text_tie_break
           [said "Narrator" "Carol sits."; said "Narrator" "Then Bob greets Alice."]
           ["Alice"; "Bob"; "Carol"; "Dave"] "Bob" "Alice"
           [said "Narrator" "Carol sits."] []
           (said "Narrator" "Then Bob greets Alice.") 4 15).
  - reflexivity.
  - simpl; auto.
  - simpl; auto.
  - intros m' [].
  - vm_compute; reflexivity.
  - vm_compute; reflexivity.
  - lia.
Defined.

(** ** The restart guard *)

Section DebounceFacts.

Variables Args Result World : Type.
Variable func : Args -> World -> World * Result.
Variable timeout : nat.

Lemma last_cons_default (A : Type) : forall (l : list A) (x d : A),
  last (x :: l) d = last l x.
Proof.
  induction l as [|y l IH]; intros x d; [reflexivity|].
  change (last (x :: y :: l) d) with (last (y :: l) d).
  change (last (y :: l) x) with (last (y :: l) x).
  now rewrite !IH.
Qed.

(** While the calls keep coming inside the window the timer is only
    replaced: nothing runs, and every caller gets the pending promise. *)
Lemma invoke_all_pending : forall calls prev a p (st : State Args Result World),
  timer st = Some (prev + timeout, a) ->
  debouncePromise st = Some p ->
  within_window timeout prev calls ->
  let st' := fst (invoke_all func timeout calls st) in
  let ps := snd (invoke_all func timeout calls st) in
  timer st' = Some (last (map fst calls) prev + timeout, last (map snd calls) a) /\
  debouncePromise st' = Some p /\
  debounceResolver st' = debounceResolver st /\
  created st' = created st /\
  settled st' = settled st /\ executed st' = executed st /\ world st' = world st /\
  ps = repeat p (length calls).
Proof.
  induction calls as [|[now args] rest IH]; intros prev a p st Ht Hp Hw.
  - simpl. repeat split; auto.
  - destruct Hw as [Hnow Hrest].
    cbn [invoke_all map fst snd length repeat]. rewrite !last_cons_default.
    unfold invoke, advance. rewrite Ht.
    destruct (Nat.leb_spec (prev + timeout) now) as [Hle|_]; [lia|].
    rewrite Hp.
    set (st1 := mkState (Some (now + timeout, args)) (Some p) (debounceResolver st)
                        (created st) (settled st) (executed st) (world st)).
    specialize (IH now args p st1 eq_refl eq_refl Hrest).
    destruct (invoke_all func timeout rest st1) as [st2 ps].
    cbn [fst snd] in IH |- *.
    destruct IH as (H1 & H2 & H3 & H4 & H5 & H6 & H7 & H8).
    repeat split; auto. now rewrite H8.
Qed.

(** A burst of calls on an idle debouncer: one execution of [func], on
    the arguments of the last call, once its timer is due and not
    before; one promise for all the callers, resolved with the value of
    that execution. *)
Lemma debounce_coalesces t1 a1 rest (st : State Args Result World) :
  idle st ->
  within_window timeout t1 rest ->
  let calls := (t1, a1) :: rest in
  let st' := fst (invoke_all func timeout calls st) in
  let ps := snd (invoke_all func timeout calls st) in
  let due := last (map fst calls) t1 + timeout in
  let args := last (map snd calls) a1 in
  ps = repeat (created st) (length calls) /\
  (forall now, now < due -> advance func now st' = st') /\
  forall now, due <= now ->
    executed (advance func now st') = executed st ++ [args] /\
    settled (advance func now st') =
      settled st ++ [(created st, snd (func args (world st)))] /\
    world (advance func now st') = fst (func args (world st)) /\
    idle (advance func now st').
Proof.
  intros [Ht Hp] Hw. cbn zeta.
  set (st1 := mkState (Some (t1 + timeout, a1)) (Some (created st)) (Some (created st))
                      (S (created st)) (settled st) (executed st) (world st)).
  assert (Hinv : invoke func timeout t1 a1 st = (st1, created st)).
  { unfold invoke, advance. now rewrite Ht, Hp. }
  cbn [invoke_all]. rewrite Hinv.
  pose proof (@invoke_all_pending rest t1 a1 (created st) st1 eq_refl eq_refl Hw) as H.
  destruct (invoke_all func timeout rest st1) as [st2 ps]. simpl in H.
  destruct H as (H1 & H2 & H3 & H4 & H5 & H6 & H7 & H8).
  cbn [fst snd].
  assert (Hlast_t : last (map fst ((t1, a1) :: rest)) t1 = last (map fst rest) t1)
    by apply last_cons_default.
  assert (Hlast_a : last (map snd ((t1, a1) :: rest)) a1 = last (map snd rest) a1)
    by apply last_cons_default.
  rewrite Hlast_t, Hlast_a.
  split; [simpl; now rewrite H8|]. split.
  - intros now Hnow. unfold advance. rewrite H1.
    destruct (Nat.leb_spec (last (map fst rest) t1 + timeout) now); [lia | reflexivity].
  - intros now Hnow. unfold advance. rewrite H1.
    destruct (Nat.leb_spec (last (map fst rest) t1 + timeout) now) as [_|Hlt]; [|lia].
    unfold fire. rewrite H3, H5, H6, H7. simpl.
    destruct (func (last (map snd rest) a1) (world st)) as [w r]; simpl.
    repeat split; reflexivity.
Qed.

End DebounceFacts.

(** Once the sequence has ended, the next call begins a new one. *)
Lemma restart_after_end e :
  restart_body tt (restart_end e) = (mkEngine true (S (restarts e)), true).
Proof. reflexivity. Qed.

Section RestartFacts.

Variable transition : nat.

Lemma last_map_fn (A B : Type) (f : A -> B) d : forall l,
  last (map f l) (f d) = f (last l d).
Proof.
  induction l as [|x l IH]; [reflexivity|].
  destruct l as [|y l]; [reflexivity|]. exact IH.
Qed.

(** While a sequence is under way the time has not come for it to end. *)
Lemma executing_settle now w : executing now w = true -> settle now w = w.
Proof.
  unfold executing, settle. destruct (ends w) as [e|]; [|reflexivity].
  destruct (e <=? now); [simpl; discriminate | reflexivity].
Qed.

(** The function of [restart] run at time [now]: it returns at the guard
    when a sequence is under way, and begins one otherwise. *)
Lemma restart_run now w :
  restart transition now w =
  if executing now w then (w, false)
  else (mkTimed (mkEngine true (S (restarts (engine w))))
                (Some (now + restart_wait transition)), true).
Proof.
  destruct (executing now w) eqn:E.
  - unfold restart. rewrite (executing_settle now w E).
    unfold executing in E. rewrite (executing_settle now w E) in E.
    unfold restart_body. rewrite E. now destruct w.
  - unfold restart, restart_body. unfold executing in E. rewrite E.
    f_equal. f_equal. f_equal. unfold settle.
    destruct (ends w) as [e|]; [|reflexivity].
    destruct (e <=? now); reflexivity.
Qed.

End RestartFacts.

(** C9 (as stated) fails in its last part: a trigger made while a restart
    sequence is executing is not ignored when its timer comes due after
    the sequence has ended.  With a transition of 400 ms the trigger at 0
    begins a sequence at 300 that ends at 850; the trigger at 600 falls
    inside it, its timer is due at 900, and a second sequence begins. *)
Lemma restart_trigger_during_sequence :
  let st0 := mkState (Args := nat) None None None 0 [] []
               (mkTimed (mkEngine false 0) None) in
  let st1 := fst (invoke_all (restart 400) restart_timeout
                    [trigger_at 0; trigger_at 600] st0) in
  let final := advance (restart 400) 900 st1 in
  executed st1 = [300] /\ ends (world st1) = Some 850 /\
  executing 600 (world st1) = true /\
  restarts (engine (world st1)) = 1 /\
  executed final = [300; 900] /\
  restarts (engine (world final)) = 2.
Proof. vm_compute. repeat split; reflexivity. Qed.

(** C9 (as amended).  Triggers of the debounced [restart] on an idle
    debouncer, each inside the window of the previous one: all callers
    get the same promise; before the last timer is due nothing runs; once
    it is due the wrapped function has run exactly once, at that time,
    and the promise is resolved with its value.  When a restart sequence
    is still under way at that time the run returns at the guard, leaving
    the engine as it was, with no second sequence begun or queued; when
    none is under way, or the one that was has ended by then, a sequence
    begins, which ends after the wait of the restart. *)
Theorem restart_debounced (transition t1 : nat) (rest : list nat)
  (st : State nat bool Timed) :
  idle st ->
  within_window restart_timeout t1 (map trigger_at rest) ->
  let calls := map trigger_at (t1 :: rest) in
  let st' := fst (invoke_all (restart transition) restart_timeout calls st) in
  let ps := snd (invoke_all (restart transition) restart_timeout calls st) in
  let due := last (t1 :: rest) t1 + restart_timeout in
  ps = repeat (created st) (length (t1 :: rest)) /\
  (forall now, now < due -> advance (restart transition) now st' = st') /\
  forall now, due <= now ->
    let final := advance (restart transition) now st' in
    executed final = executed st ++ [due] /\
    settled final = settled st ++ [(created st, negb (executing due (world st)))] /\
    idle final /\
    (executing due (world st) = true -> world final = world st) /\
    (executing due (world st) = false ->
       world final = mkTimed (mkEngine true (S (restarts (engine (world st)))))
                             (Some (due + restart_wait transition))).
Proof.
  intros Hidle Hw. cbv zeta.
  destruct (@debounce_coalesces nat bool Timed (restart transition) restart_timeout
              t1 (t1 + restart_timeout) (map trigger_at rest) st Hidle Hw)
    as (Hps & Hbefore & Hafter).
  change ((t1, t1 + restart_timeout) :: map trigger_at rest)
    with (map trigger_at (t1 :: rest)) in *.
  assert (Hdue : last (map fst (map trigger_at (t1 :: rest))) t1 = last (t1 :: rest) t1).
  { rewrite map_map. simpl. now rewrite map_id. }
  assert (Hargs : last (map snd (map trigger_at (t1 :: rest))) (t1 + restart_timeout)
                  = last (t1 :: rest) t1 + restart_timeout).
  { rewrite map_map.
    apply (last_map_fn (fun n => n + restart_timeout) t1 (t1 :: rest)). }
  rewrite Hdue in Hbefore, Hafter. rewrite Hargs in Hafter.
  split; [rewrite Hps; now rewrite length_map|].
  split; [exact Hbefore|].
  intros now Hnow. destruct (Hafter now Hnow) as (He & Hs & Hwd & Hi).
  rewrite restart_run in Hs, Hwd.
  destruct (executing (last (t1 :: rest) t1 + restart_timeout) (world st)) eqn:Ex;
    cbn [fst snd negb] in Hs, Hwd |- *;
    (split; [exact He | split; [exact Hs | split; [exact Hi |]]]);
    split; intros H; first [exact Hwd | discriminate].
Qed.

Lemma restart_debounced_witness :
  let st0 := mkState (Args := nat) None None None 0 [] []
               (mkTimed (mkEngine false 0) None) in
  snd (invoke_all (restart 400) restart_timeout (map trigger_at [0; 100; 250; 500]) st0)
  = [0; 0; 0; 0].
Proof.
  refine (proj1 (@restart_debounced 400 0 [100; 250; 500]
            (mkState (Args := nat) None None None 0 [] []
               (mkTimed (mkEngine false 0) None)) _ _)).
  - split; reflexivity.
  - unfold restart_timeout; simpl; lia.
Defined.

(** ** Further properties of the span scanner *)

Unset Implicit Arguments.

Section SpanScannerMore.

Variable text : list ascii.

(** Every quote or asterisk from the loop variable on ends up inside a
    bracket span. *)
Lemma parse_loop_covers_tokens : forall fuel i k ch,
  length text <= fuel + i ->
  i <= k -> nth_error text k = Some ch -> is_token ch = true ->
  exists b, In b (parse_loop fuel text i) /\ covers k b = true.
Proof.
  induction fuel as [|f IH]; intros i k ch Hf Hik Hk Htok.
  - apply nth_error_Some_lt in Hk. lia.
  - pose proof (nth_error_Some_lt _ _ Hk) as Hlt. simpl.
    destruct (nth_error text i) as [c|] eqn:Ei.
    2:{ apply nth_error_None in Ei. lia. }
    destruct (is_token c) eqn:Ec.
    + destruct (indexOf c text (i + 1)) as [j|] eqn:Ej.
      * pose proof (indexOf_bounds _ _ _ Ej) as Hb.
        destruct (Nat.lt_ge_cases k (j + 1)) as [Hin|Hout].
        -- exists (mkSpan i (j + 1)). split; [now left|].
           unfold covers; simpl. apply andb_true_iff. split.
           ++ now apply Nat.leb_le.
           ++ now apply Nat.ltb_lt.
        -- destruct (IH (j + 1) k ch) as (b & Hb1 & Hb2); try assumption; try lia.
           exists b. split; [now right | exact Hb2].
      * exists (mkSpan i (length text)). split; [now left|].
        unfold covers; simpl. apply andb_true_iff. split.
        -- now apply Nat.leb_le.
        -- now apply Nat.ltb_lt.
    + assert (Hne : k <> i) by (intros ->; congruence).
      apply (IH (i + 1) k ch); try assumption; lia.
Qed.

(** Every index of the text lies in exactly one of the plain and the
    bracket spans. *)
Lemma spans_cover_once k :
  k < length text ->
  cover_count k (getNonBracketSpans text ++ parseBracketSpans text) = 1.
Proof.
  intros Hk.
  pose proof (@parse_loop_chain text (length text) 0 (Nat.le_0_l _)) as Hc.
  fold (parseBracketSpans text) in Hc.
  unfold getNonBracketSpans.
  destruct (parseBracketSpans text) as [|b bs] eqn:Eb.
  - unfold cover_count, covers; simpl.
    apply Nat.ltb_lt in Hk; now rewrite Hk.
  - destruct (complement_loop_chain _ _ _ Hc) as (Hb & Hall & Hasc & Hcov).
    destruct (complement_loop (b :: bs) [] 0) as [spans cursor] eqn:El.
    simpl fst in *; simpl snd in *.
    destruct (cursor <? length text) eqn:E.
    + apply Nat.ltb_lt in E.
      assert (Hperm : cover_count k ((spans ++ [mkSpan cursor (length text)]) ++ b :: bs)
                      = cover_count k (spans ++ b :: bs)
                        + (if covers k (mkSpan cursor (length text)) then 1 else 0)).
      { rewrite !cover_count_app, !cover_count_cons.
        change (cover_count k []) with 0; lia. }
      rewrite Hperm, Hcov. unfold covers; simpl.
      destruct (Nat.ltb_spec k cursor), (Nat.leb_spec cursor k),
               (Nat.ltb_spec k (length text)); simpl; lia.
    + apply Nat.ltb_ge in E. rewrite Hcov.
      assert (A : (k <? cursor) = true) by (apply Nat.ltb_lt; lia).
      now rewrite A.
Qed.

Lemma cover_count_pos k l b : In b l -> covers k b = true -> 1 <= cover_count k l.
Proof.
  induction l as [|a l IH]; simpl; [tauto|].
  intros [->|Hin] Hc; rewrite cover_count_cons.
  - rewrite Hc. lia.
  - specialize (IH Hin Hc). lia.
Qed.

End SpanScannerMore.

(** X1.  No plain span holds a quote or an asterisk: a character at an
    index that a span of [getNonBracketSpans] covers is no bracket
    token. *)
Theorem plain_spans_hold_no_token (text : list ascii) (s : Span) (k : nat) (ch : ascii) :
  In s (getNonBracketSpans text) ->
  covers k s = true ->
  nth_error text k = Some ch ->
  is_token ch = false.
Proof.
  intros Hs Hc Hk. destruct (is_token ch) eqn:Etok; [|reflexivity]. exfalso.
  pose proof (nth_error_Some_lt _ _ Hk) as Hlt.
  destruct (parse_loop_covers_tokens text (length text) 0 k ch)
    as (b & Hb & Hcb); try assumption; try lia.
  fold (parseBracketSpans text) in Hb.
  pose proof (spans_cover_once text k Hlt) as Hone.
  rewrite cover_count_app in Hone.
  pose proof (cover_count_pos k _ _ Hs Hc).
  pose proof (cover_count_pos k _ _ Hb Hcb). lia.
Qed.

Lemma plain_spans_hold_no_token_witness :
  is_token "y"%char = false.
Proof.
  refine (plain_spans_hold_no_token (str "say *hi* now") (mkSpan 0 4) 2 "y"%char _ _ _).
  - left; reflexivity.
  - reflexivity.
  - reflexivity.
Defined.

Section BracketShape.

Variable text : list ascii.

Lemma indexOf_aux_none ch : forall l pos,
  indexOf_aux ch l pos = None -> forall k, nth_error l k <> Some ch.
Proof.
  induction l as [|c r IH]; intros pos H k; simpl in H.
  - destruct k; discriminate.
  - destruct (Ascii.eqb c ch) eqn:E; [discriminate|].
    destruct k as [|k]; simpl.
    + intros [= ->]. rewrite Ascii.eqb_refl in E. discriminate.
    + eapply IH; eauto.
Qed.

Lemma indexOf_none ch from :
  indexOf ch text from = None ->
  forall k, from <= k -> nth_error text k <> Some ch.
Proof.
  unfold indexOf. intros H k Hk.
  pose proof (indexOf_aux_none ch (skipn from text) from H (k - from)) as Hn.
  rewrite nth_error_skipn in Hn. now replace (from + (k - from)) with k in Hn by lia.
Qed.

Lemma parse_loop_shape : forall fuel i b,
  In b (parse_loop fuel text i) -> bracket_shape text b.
Proof.
  induction fuel as [|f IH]; intros i b; simpl; [tauto|].
  destruct (nth_error text i) as [c|] eqn:Ei; [|intros []].
  destruct (is_token c) eqn:Ec; [|apply IH].
  destruct (indexOf c text (i + 1)) as [j|] eqn:Ej.
  - intros [<-|Hin]; [|now apply IH with (i := j + 1)].
    pose proof (indexOf_bounds _ _ _ Ej) as Hb.
    destruct (indexOf_first _ _ _ Ej) as [Hj Hfirst].
    exists c. simpl. repeat split; auto. left.
    replace (j + 1 - 1) with j by lia. repeat split; [lia | exact Hj |].
    intros k Hk. apply Hfirst. lia.
  - intros [<-|[]]. exists c. simpl. repeat split; auto. right.
    split; [reflexivity|]. intros k Hk. apply (indexOf_none c (i + 1) Ej k). lia.
Qed.

Lemma parse_loop_no_token : forall fuel i,
  Forall (fun c => is_token c = false) text -> parse_loop fuel text i = [].
Proof.
  induction fuel as [|f IH]; intros i Hall; simpl; [reflexivity|].
  destruct (nth_error text i) as [c|] eqn:Ei; [|reflexivity].
  rewrite Forall_forall in Hall.
  rewrite (Hall c (nth_error_In _ _ Ei)). apply IH. now apply Forall_forall.
Qed.

End BracketShape.

(** X2.  Every bracket span opens at a quote or an asterisk; it closes
    right after the next occurrence of the same character, with none in
    between, or, when there is no such occurrence, it runs to the end of
    the text. *)
Theorem bracket_spans_shape (text : list ascii) (b : Span) :
  In b (parseBracketSpans text) -> bracket_shape text b.
Proof. apply parse_loop_shape. Qed.

Lemma bracket_spans_shape_witness :
  bracket_shape (str "a *b* c *d") (mkSpan 8 10).
Proof.
  refine (bracket_spans_shape (str "a *b* c *d") (mkSpan 8 10) _).
  right; left; reflexivity.
Defined.

(** X3.  A text has no bracket span exactly when it holds no quote and no
    asterisk, and its only plain span is then the whole text. *)
Theorem no_token_no_bracket (text : list ascii) :
  (parseBracketSpans text = [] <-> Forall (fun c => is_token c = false) text) /\
  (Forall (fun c => is_token c = false) text ->
   getNonBracketSpans text = [mkSpan 0 (length text)]).
Proof.
  assert (Hfwd : Forall (fun c => is_token c = false) text -> parseBracketSpans text = [])
    by apply parse_loop_no_token.
  split; [split; [|exact Hfwd]|].
  - intros Hnil. apply Forall_forall. intros c Hc.
    destruct (is_token c) eqn:Etok; [|reflexivity]. exfalso.
    apply In_nth_error in Hc. destruct Hc as [k Hk].
    destruct (parse_loop_covers_tokens text (length text) 0 k c)
      as (b & Hb & _); try assumption; try lia.
    fold (parseBracketSpans text) in Hb. rewrite Hnil in Hb. exact Hb.
  - intros Hall. unfold getNonBracketSpans. now rewrite (Hfwd Hall).
Qed.

Lemma no_token_no_bracket_witness :
  getNonBracketSpans (str "Alice waves") = [mkSpan 0 11].
Proof.
  refine (proj2 (no_token_no_bracket (str "Alice waves")) _).
  repeat constructor.
Defined.

(** ** Further properties of the presence counter *)

Section CounterMore.

Lemma exec_from_cached n1 n2 : forall l s,
  toLowerCase n1 = toLowerCase n2 ->
  exec_from true n1 l s = exec_from true n2 l s.
Proof.
  induction l as [|c r IH]; intros s H; simpl;
    rewrite (@matchAt_cached (Nat.eqb s 0) n1 n2 _ H); [reflexivity|].
  destruct (matchAt true (Nat.eqb s 0) n2 (c :: r)); [reflexivity|]. now apply IH.
Qed.

Lemma matchAll_loop_cached n1 n2 hay : forall fuel lastIndex,
  toLowerCase n1 = toLowerCase n2 ->
  matchAll_loop fuel n1 hay lastIndex = matchAll_loop fuel n2 hay lastIndex.
Proof.
  induction fuel as [|f IH]; intros lastIndex H; simpl; [reflexivity|].
  rewrite (exec_from_cached n1 n2 _ _ H).
  destruct (exec_from true n2 (skipn lastIndex hay) lastIndex) as [[idx len]|];
    [|reflexivity].
  f_equal. now apply IH.
Qed.

Lemma span_matches_cached n1 n2 sp :
  toLowerCase n1 = toLowerCase n2 -> span_matches n1 sp = span_matches n2 sp.
Proof.
  intros H. unfold span_matches, matchAll.
  destruct (p_text sp); [reflexivity|]. now apply matchAll_loop_cached.
Qed.

Lemma count_spans_cached n1 n2 : forall spans acc,
  toLowerCase n1 = toLowerCase n2 ->
  fold_left (count_span n1) spans acc = fold_left (count_span n2) spans acc.
Proof.
  induction spans as [|sp spans IH]; intros acc H; simpl; [reflexivity|].
  unfold count_span at 2 4. rewrite (span_matches_cached n1 n2 sp H). now apply IH.
Qed.

Lemma prefix_match_length ic name : forall l r,
  prefix_match ic name l = Some r -> length l = length name + length r.
Proof.
  induction name as [|n ns IH]; intros l r; simpl.
  - now intros [= ->].
  - destruct l as [|c l]; [discriminate|].
    destruct (char_eqb ic n c); [|discriminate].
    intros H. apply IH in H. simpl. lia.
Qed.

(** A bounded occurrence of a non-empty name starts a match, or has one
    start at the character before it. *)
Lemma occurrence_gives_match name hay p :
  name <> [] ->
  occursBoundedAt name hay p = true ->
  exists s, s <= length hay /\ matchAt true (Nat.eqb s 0) name (skipn s hay) <> None.
Proof.
  intros Hne Hocc. unfold occursBoundedAt in Hocc.
  apply andb_true_iff in Hocc. destruct Hocc as [Hpre Hpost].
  assert (Hnt : name_then_trailing true name (skipn p hay) <> None).
  { unfold name_then_trailing.
    destruct (prefix_match true name (skipn p hay)) as [[|c r]|]; simpl;
      try discriminate.
    destruct (isWordChar c); simpl in *; discriminate. }
  destruct p as [|q].
  - exists 0. split; [lia|]. simpl in *. unfold matchAt.
    destruct (name_then_trailing true name hay); [discriminate | contradiction].
  - destruct (nth_error hay q) as [c|] eqn:Eq; [|discriminate].
    pose proof (nth_error_Some_lt _ _ Eq) as Hlt.
    exists q. split; [lia|].
    assert (Hs : skipn q hay = c :: skipn (S q) hay).
    { rewrite <- (firstn_skipn_middle _ _ Eq) at 1.
      rewrite skipn_app, skipn_all2 by (rewrite length_firstn; lia).
      rewrite length_firstn, Nat.min_l by lia. now rewrite Nat.sub_diag. }
    rewrite Hs. unfold matchAt.
    apply negb_true_iff in Hpre. rewrite Hpre.
    destruct (name_then_trailing true name (skipn (S q) hay)) as [m|];
      [|contradiction].
    destruct (Nat.eqb q 0); cbn [option_map]; [|discriminate].
    destruct (name_then_trailing true name (c :: skipn (S q) hay)); discriminate.
Qed.

Lemma matchAll_nonempty name hay :
  name <> [] -> boundedOccurrences name hay <> [] -> matchAll name hay <> [].
Proof.
  intros Hne Hocc Hnil.
  destruct (boundedOccurrences name hay) as [|p r] eqn:E; [contradiction|].
  assert (Hp : In p (boundedOccurrences name hay)) by (rewrite E; now left).
  unfold boundedOccurrences in Hp. apply filter_In in Hp. destruct Hp as [_ Hp].
  destruct (occurrence_gives_match name hay p Hne Hp) as (s & Hs & Hm).
  pose proof (matchAll_greedy name hay) as Hg. rewrite Hnil in Hg. simpl in Hg.
  apply Hm. apply Hg. lia.
Qed.

Lemma boundedOccurrences_empty_hay name :
  name <> [] -> boundedOccurrences name [] = [].
Proof.
  intros Hne. unfold boundedOccurrences. simpl.
  destruct name as [|n ns]; [contradiction | reflexivity].
Qed.

(** A match in a non-empty text starts inside the text. *)
Lemma matchAt_inside name hay s len :
  hay <> [] ->
  matchAt true (Nat.eqb s 0) name (skipn s hay) = Some len -> s < length hay.
Proof.
  intros Hne Hm. pose proof (matchAt_occurs _ _ _ Hm) as [Hle _].
  destruct (Nat.eq_dec s (length hay)) as [->|]; [|lia].
  exfalso. rewrite skipn_all in Hm.
  destruct hay; [contradiction|]. simpl in Hm. discriminate.
Qed.

Lemma greedy_inside name hay : forall l from,
  hay <> [] -> greedy name hay from l -> Forall (fun s => s < length hay) l.
Proof.
  induction l as [|s l IH]; intros from Hne; simpl; [constructor|].
  intros (_ & _ & len & Hm & Hg). constructor.
  - eapply matchAt_inside; eauto.
  - eapply IH; eauto.
Qed.

(** The name of a counted match lies inside the span text. *)
Lemma match_name_inside name sp idx :
  In idx (span_matches name sp) ->
  name_pos name (p_text sp) idx + length name <= length (p_text sp) /\
  idx < length (p_text sp).
Proof.
  unfold span_matches. destruct (p_text sp) as [|c r] eqn:E; [intros []|].
  intros Hin.
  destruct (@greedy_name_positions name (c :: r) _ _ (matchAll_greedy name (c :: r)))
    as (Hall & Hlen & _).
  specialize (Hlen _ Hin).
  rewrite Forall_forall in Hall. destruct (Hall _ Hin) as [_ Hocc].
  pose proof (greedy_inside name (c :: r) _ 0 ltac:(discriminate)
                (matchAll_greedy name (c :: r))) as Hins.
  rewrite Forall_forall in Hins. specialize (Hins _ Hin). split; [|exact Hins].
  unfold occursBoundedAt in Hocc. apply andb_true_iff in Hocc.
  destruct Hocc as [_ Hpost].
  destruct (prefix_match true name (skipn (name_pos name (c :: r) idx) (c :: r)))
    as [rest|] eqn:Ep; [|discriminate].
  apply prefix_match_length in Ep. rewrite length_skipn in Ep. lia.
Qed.

Lemma count_positive_core (name : list ascii) (spans : list PlainSpan) :
  name <> [] ->
  (0 < count (countOccurrencesOutsideBrackets name spans)
   <-> 0 < spec_count name spans).
Proof.
  intros Hne. unfold countOccurrencesOutsideBrackets.
  rewrite count_span_fold. simpl. split.
  - pose proof (abs_matches_le_spec name spans). lia.
  - unfold spec_count, abs_matches.
    induction spans as [|sp spans IH]; simpl; [lia|].
    rewrite length_app, length_map. intros H.
    destruct (boundedOccurrences name (p_text sp)) as [|p r] eqn:E.
    + simpl in H. specialize (IH H). lia.
    + assert (Hm : span_matches name sp <> []).
      { unfold span_matches. destruct (p_text sp) as [|c t] eqn:Et.
        - rewrite boundedOccurrences_empty_hay in E by assumption. discriminate.
        - apply matchAll_nonempty; [assumption | rewrite E; discriminate]. }
      destruct (span_matches name sp); [contradiction | simpl; lia].
Qed.

End CounterMore.

(** ** The counter with the regex cache *)

Section CacheFacts.

Lemma key_of_inj n1 n2 :
  RegexCache.key_of n1 = RegexCache.key_of n2 -> toLowerCase n1 = toLowerCase n2.
Proof.
  unfold RegexCache.key_of. intros H.
  rewrite <- (list_ascii_of_string_of_list_ascii (toLowerCase n1)), H.
  apply list_ascii_of_string_of_list_ascii.
Qed.

Lemma count_same_key n1 n2 spans :
  RegexCache.key_of n1 = RegexCache.key_of n2 ->
  countOccurrencesOutsideBrackets n1 spans = countOccurrencesOutsideBrackets n2 spans.
Proof.
  intros H. unfold countOccurrencesOutsideBrackets.
  apply count_spans_cached. now apply key_of_inj.
Qed.

Lemma own_consistent key : forall cache src,
  RegexCache.consistent cache -> RegexCache.own key cache = Some src ->
  RegexCache.key_of src = key.
Proof.
  induction cache as [|[k n] cache IH]; intros src Hc; simpl; [discriminate|].
  inversion Hc as [|? ? Hk Hrest]; subst. simpl in Hk.
  destruct (String.eqb k key) eqn:E.
  - apply String.eqb_eq in E. intros [= <-]. congruence.
  - now apply IH.
Qed.

(** What [makeWordRegex] gives on a cache it has filled: a regex built
    from a name with the same key, or an inherited value when the key is
    an inherited one; and the cache it leaves is again one it has
    filled. *)
Lemma makeWordRegex_spec cache name :
  RegexCache.consistent cache ->
  RegexCache.consistent (snd (RegexCache.makeWordRegex cache name)) /\
  match fst (RegexCache.makeWordRegex cache name) with
  | RegexCache.BuiltFrom src => RegexCache.key_of src = RegexCache.key_of name
  | RegexCache.Inherited =>
    RegexCache.inherited_key (RegexCache.key_of name) = true /\
    snd (RegexCache.makeWordRegex cache name) = cache
  end.
Proof.
  intros Hc. unfold RegexCache.makeWordRegex, RegexCache.get.
  destruct (RegexCache.own (RegexCache.key_of name) cache) as [src|] eqn:Eo; simpl.
  - split; [exact Hc | now apply (own_consistent _ cache)].
  - destruct (RegexCache.inherited_key (RegexCache.key_of name)) eqn:Ei; simpl.
    + auto.
    + split; [|reflexivity]. constructor; [reflexivity | exact Hc].
Qed.

(** For a name whose key is no inherited one the counter returns, with
    the count of the loop for the regex of the name. *)
Lemma count_returns cache name spans :
  RegexCache.consistent cache ->
  RegexCache.inherited_key (RegexCache.key_of name) = false ->
  fst (RegexCache.countOccurrencesOutsideBrackets cache name spans)
    = RegexCache.Returns (countOccurrencesOutsideBrackets name spans) /\
  RegexCache.consistent (snd (RegexCache.countOccurrencesOutsideBrackets cache name spans)).
Proof.
  intros Hc Hi. destruct (makeWordRegex_spec cache name Hc) as [Hc' Hrx].
  unfold RegexCache.countOccurrencesOutsideBrackets.
  destruct (RegexCache.makeWordRegex cache name) as [rx cache']. simpl in *.
  split; [|exact Hc'].
  destruct rx as [src|].
  - f_equal. now apply count_same_key.
  - destruct Hrx as [Hrx _]. congruence.
Qed.

Lemma count_keeps_consistent cache name spans :
  RegexCache.consistent cache ->
  RegexCache.consistent (snd (RegexCache.countOccurrencesOutsideBrackets cache name spans)).
Proof.
  intros Hc. destruct (makeWordRegex_spec cache name Hc) as [Hc' _].
  unfold RegexCache.countOccurrencesOutsideBrackets.
  destruct (RegexCache.makeWordRegex cache name) as [rx cache']. exact Hc'.
Qed.

(** Two names with the same key get the same outcome from the same
    cache. *)
Lemma count_by_key cache n1 n2 spans :
  RegexCache.consistent cache ->
  RegexCache.key_of n1 = RegexCache.key_of n2 ->
  fst (RegexCache.countOccurrencesOutsideBrackets cache n1 spans)
  = fst (RegexCache.countOccurrencesOutsideBrackets cache n2 spans).
Proof.
  intros Hc Hk. unfold RegexCache.countOccurrencesOutsideBrackets,
    RegexCache.makeWordRegex. rewrite Hk.
  destruct (RegexCache.get cache (RegexCache.key_of n2)) as [rx|]; simpl;
    [reflexivity|].
  f_equal. now apply count_same_key.
Qed.

End CacheFacts.

(** C6 (as amended).  For a name whose lower-case form is not one of the
    keys [constructor] and [__proto__], which the cache object inherits,
    the counter returns, and [count] is the number of matches of a
    left-to-right scan of each non-empty span text for the pattern that
    takes the delimiters with the name: each search starts where the
    previous match ended, trailing delimiter included.  Every counted
    match is an occurrence of the name, compared without case, preceded
    and followed by a non-word character or the span boundary; [count]
    never exceeds the number of such occurrences.  [firstIndex] is the
    least [span.start + m.index] over all matches, and null exactly when
    there is none. *)
Theorem countOccurrences_greedy_scan (cache : RegexCache.Cache) (name : list ascii)
  (spans : list PlainSpan) :
  RegexCache.consistent cache ->
  RegexCache.inherited_key (RegexCache.key_of name) = false ->
  exists r,
    fst (RegexCache.countOccurrencesOutsideBrackets cache name spans)
      = RegexCache.Returns r /\
    count r = length (abs_matches name spans) /\
    count r <= spec_count name spans /\
    (forall sp, In sp spans -> p_text sp <> [] ->
       greedy name (p_text sp) 0 (span_matches name sp)) /\
    (forall sp idx, In sp spans -> In idx (span_matches name sp) ->
       occursBoundedAt name (p_text sp) (name_pos name (p_text sp) idx) = true) /\
    match firstIndex r with
    | None => abs_matches name spans = []
    | Some f => In f (abs_matches name spans) /\
                forall a, In a (abs_matches name spans) -> f <= a
    end.
Proof.
  intros Hc Hi. exists (countOccurrencesOutsideBrackets name spans).
  split; [apply (count_returns cache name spans Hc Hi) | apply greedy_scan].
Qed.

Lemma countOccurrences_greedy_scan_witness :
  exists r,
    fst (RegexCache.countOccurrencesOutsideBrackets [] (str "Alice")
           [mkPlain 4 19 (str "then Bob, Alice")]) = RegexCache.Returns r /\
    count r = length (abs_matches (str "Alice") [mkPlain 4 19 (str "then Bob, Alice")]) /\
    count r <= spec_count (str "Alice") [mkPlain 4 19 (str "then Bob, Alice")] /\
    (forall sp, In sp [mkPlain 4 19 (str "then Bob, Alice")] -> p_text sp <> [] ->
       greedy (str "Alice") (p_text sp) 0 (span_matches (str "Alice") sp)) /\
    (forall sp idx, In sp [mkPlain 4 19 (str "then Bob, Alice")] ->
       In idx (span_matches (str "Alice") sp) ->
       occursBoundedAt (str "Alice") (p_text sp)
         (name_pos (str "Alice") (p_text sp) idx) = true) /\
    match firstIndex r with
    | None => abs_matches (str "Alice") [mkPlain 4 19 (str "then Bob, Alice")] = []
    | Some f => In f (abs_matches (str "Alice") [mkPlain 4 19 (str "then Bob, Alice")]) /\
                forall a, In a (abs_matches (str "Alice")
                                  [mkPlain 4 19 (str "then Bob, Alice")]) -> f <= a
    end.
Proof.
  refine (countOccurrences_greedy_scan [] (str "Alice")
            [mkPlain 4 19 (str "then Bob, Alice")] _ _).
  - constructor.
  - reflexivity.
Defined.

(** A name whose lower-case form is an inherited key: the counter throws
    as soon as a span has text, whatever the text. *)
Example inherited_key_throws :
  fst (RegexCache.countOccurrencesOutsideBrackets [] (str "Constructor")
         [mkPlain 0 5 (str "hello")]) = RegexCache.Throws /\
  fst (RegexCache.getPresentOrderedNames [] no_settings (Some (said "Narrator" "Bob waves"))
         ["Bob"; "constructor"]) = RegexCache.Throws.
Proof. vm_compute. split; reflexivity. Qed.

(** Accented letters fold with the [i] flag and with [toLowerCase]: an
    E with acute accent, capital (201) or small (233). *)
Example accented_name_counted :
  fst (RegexCache.countOccurrencesOutsideBrackets [] (ascii_of_nat 201 :: str "lodie")
         [mkPlain 0 13 (ascii_of_nat 233 :: str "lodie smiles")])
    = RegexCache.Returns (mkOcc 1 (Some 0)) /\
  excluded (mkChatSettings [] [String (ascii_of_nat 233) "lodie"])
           (String (ascii_of_nat 201) "lodie") = true.
Proof. vm_compute. split; reflexivity. Qed.

(** X4.  The outcome of the counter does not depend on the case of the
    name: two names with the same lower-case form get the same outcome
    from the same cache, and the second, called after the first, gets
    the outcome of the first from the entry they share. *)
Theorem count_ignores_name_case (cache : RegexCache.Cache) (n1 n2 : list ascii)
  (spans : list PlainSpan) :
  RegexCache.consistent cache ->
  toLowerCase n1 = toLowerCase n2 ->
  fst (RegexCache.countOccurrencesOutsideBrackets cache n1 spans)
  = fst (RegexCache.countOccurrencesOutsideBrackets cache n2 spans) /\
  fst (RegexCache.countOccurrencesOutsideBrackets
         (snd (RegexCache.countOccurrencesOutsideBrackets cache n1 spans)) n2 spans)
  = fst (RegexCache.countOccurrencesOutsideBrackets cache n1 spans).
Proof.
  intros Hc H.
  assert (Hk : RegexCache.key_of n1 = RegexCache.key_of n2)
    by (unfold RegexCache.key_of; now rewrite H).
  split; [now apply count_by_key|].
  rewrite <- (count_by_key _ n1 n2 spans (count_keeps_consistent cache n1 spans Hc) Hk).
  unfold RegexCache.countOccurrencesOutsideBrackets, RegexCache.makeWordRegex.
  destruct (RegexCache.get cache (RegexCache.key_of n1)) as [rx|] eqn:Eg; simpl.
  - rewrite Eg. reflexivity.
  - unfold RegexCache.get. simpl. rewrite String.eqb_refl. reflexivity.
Qed.

Lemma count_ignores_name_case_witness :
  fst (RegexCache.countOccurrencesOutsideBrackets [] (str "ALICE")
         [mkPlain 0 9 (str "hi, Alice")])
  = fst (RegexCache.countOccurrencesOutsideBrackets [] (str "alice")
           [mkPlain 0 9 (str "hi, Alice")]).
Proof.
  refine (proj1 (count_ignores_name_case [] (str "ALICE") (str "alice")
                   [mkPlain 0 9 (str "hi, Alice")] _ _)).
  - constructor.
  - reflexivity.
Defined.

(** X5.  Presence is decided exactly: for a non-empty name whose
    lower-case form is no inherited key the counter returns, and the
    count is positive if and only if some span holds an occurrence of the
    name, compared without case, that is preceded and followed by a
    non-word character or the span boundary. *)
Theorem count_positive_iff_occurs (cache : RegexCache.Cache) (name : list ascii)
  (spans : list PlainSpan) :
  name <> [] ->
  RegexCache.consistent cache ->
  RegexCache.inherited_key (RegexCache.key_of name) = false ->
  exists r,
    fst (RegexCache.countOccurrencesOutsideBrackets cache name spans)
      = RegexCache.Returns r /\
    (0 < count r <-> 0 < spec_count name spans).
Proof.
  intros Hne Hc Hi. exists (countOccurrencesOutsideBrackets name spans).
  split; [apply (count_returns cache name spans Hc Hi) | now apply count_positive_core].
Qed.

Lemma count_positive_iff_occurs_witness :
  exists r,
    fst (RegexCache.countOccurrencesOutsideBrackets [] (str "Bob")
           [mkPlain 0 7 (str "Bob Bob")]) = RegexCache.Returns r /\
    (0 < count r <-> 0 < spec_count (str "Bob") [mkPlain 0 7 (str "Bob Bob")]).
Proof.
  refine (count_positive_iff_occurs [] (str "Bob") [mkPlain 0 7 (str "Bob Bob")] _ _ _).
  - discriminate.
  - constructor.
  - reflexivity.
Defined.

Section OutsideBrackets.

Variable text : list ascii.

Lemma nonbracket_within s :
  In s (getNonBracketSpans text) -> start s <= end_ s /\ end_ s <= length text.
Proof.
  pose proof (@parse_loop_chain text (length text) 0 (Nat.le_0_l _)) as Hc.
  fold (parseBracketSpans text) in Hc.
  unfold getNonBracketSpans.
  destruct (parseBracketSpans text) as [|b bs] eqn:Eb.
  - intros [<-|[]]; simpl; lia.
  - destruct (complement_loop_chain _ _ _ Hc) as (Hb & Hall & _).
    destruct (complement_loop (b :: bs) [] 0) as [spans cursor] eqn:El.
    simpl fst in *; simpl snd in *.
    rewrite Forall_forall in Hall.
    destruct (cursor <? length text) eqn:E.
    + apply Nat.ltb_lt in E. intros Hin. apply in_app_or in Hin.
      destruct Hin as [Hin|[<-|[]]]; [specialize (Hall _ Hin)|]; simpl in *; lia.
    + intros Hin. specialize (Hall _ Hin). simpl in *; lia.
Qed.

(** An index inside the text of a plain span, taken from the start of
    the span, is an index of the text that no bracket span covers. *)
Lemma plain_index_outside sp i :
  In sp (plain_spans text) -> i < length (p_text sp) ->
  p_start sp + i < length text /\
  cover_count (p_start sp + i) (parseBracketSpans text) = 0.
Proof.
  unfold plain_spans. intros Hin Hi. apply in_map_iff in Hin.
  destruct Hin as (s & <- & Hs). simpl in *.
  destruct (nonbracket_within s Hs) as [H1 H2].
  rewrite length_firstn, length_skipn in Hi.
  assert (Hk : start s + i < length text) by lia.
  split; [exact Hk|].
  pose proof (spans_cover_once text (start s + i) Hk) as Hone.
  rewrite cover_count_app in Hone.
  assert (Hc : covers (start s + i) s = true).
  { unfold covers. apply andb_true_iff. split;
      [apply Nat.leb_le | apply Nat.ltb_lt]; lia. }
  pose proof (cover_count_pos (start s + i) _ s Hs Hc). lia.
Qed.

End OutsideBrackets.

(** X6.  Names inside quotes or asterisks are not counted: every
    character of an occurrence that the counter counts in the plain spans
    of a text is a character of the text that lies in no bracket span. *)
Theorem counted_names_outside_brackets (name text : list ascii) (sp : PlainSpan)
  (idx k : nat) :
  In sp (plain_spans text) ->
  In idx (span_matches name sp) ->
  p_start sp + name_pos name (p_text sp) idx <= k
    < p_start sp + name_pos name (p_text sp) idx + length name ->
  k < length text /\ cover_count k (parseBracketSpans text) = 0.
Proof.
  intros Hsp Hidx Hk.
  destruct (match_name_inside name sp idx Hidx) as [Hin _].
  replace k with (p_start sp + (k - p_start sp)) by lia.
  apply plain_index_outside; [exact Hsp | lia].
Qed.

Lemma counted_names_outside_brackets_witness :
  let text := str "*Bob* nods. Bob?" in
  14 < length text /\ cover_count 14 (parseBracketSpans text) = 0.
Proof.
  refine (counted_names_outside_brackets (str "Bob") (str "*Bob* nods. Bob?")
            (mkPlain 5 16 (str " nods. Bob?")) 6 14 _ _ _).
  - left; reflexivity.
  - vm_compute. left; reflexivity.
  - vm_compute. split; lia.
Defined.

(** X7.  On the plain spans of a text, [firstIndex], when it is not
    null, is an index of the text that lies in no bracket span. *)
Theorem firstIndex_outside_brackets (name text : list ascii) (f : nat) :
  firstIndex (countOccurrencesOutsideBrackets name (plain_spans text)) = Some f ->
  f < length text /\ cover_count f (parseBracketSpans text) = 0.
Proof.
  unfold countOccurrencesOutsideBrackets. rewrite count_span_fold. simpl.
  intros Hf. pose proof (min_step_fold_none (abs_matches name (plain_spans text))) as Hm.
  rewrite Hf in Hm. destruct Hm as [Hin _].
  unfold abs_matches in Hin. apply in_flat_map in Hin.
  destruct Hin as (sp & Hsp & Hin). apply in_map_iff in Hin.
  destruct Hin as (idx & <- & Hidx).
  destruct (match_name_inside name sp idx Hidx) as [_ Hlt].
  now apply plain_index_outside.
Qed.

Lemma firstIndex_outside_brackets_witness :
  let text := str "*Bob* nods. Bob?" in
  11 < length text /\ cover_count 11 (parseBracketSpans text) = 0.
Proof.
  refine (firstIndex_outside_brackets (str "Bob") (str "*Bob* nods. Bob?") 11 _).
  vm_compute. reflexivity.
Defined.

(** ** Further properties of the presence resolver *)

Section ResolverMore.

Variable cs : ChatSettings.

Lemma count_on_empty_text name :
  count (countOccurrencesOutsideBrackets name (plain_spans [])) = 0.
Proof. reflexivity. Qed.

Lemma collect_loop_empty_text : forall names i items,
  collect_loop cs (plain_spans []) names i items = items.
Proof.
  induction names as [|n names IH]; intros i items; simpl; [reflexivity|].
  destruct (excluded cs n); apply IH.
Qed.

Lemma compare_items_before a b : compare_items a b <> Gt -> item_before a b.
Proof.
  unfold compare_items, item_before.
  destruct (Nat.eqb_spec (i_count b) (i_count a)) as [Hc|Hc]; simpl.
  - destruct (i_firstIndex a) as [x|], (i_firstIndex b) as [y|]; simpl.
    + destruct (Nat.eqb_spec x y) as [->|Hxy]; simpl.
      * destruct (Nat.compare_spec (i_masterIndex a) (i_masterIndex b));
          intros Hcmp; try congruence; right; split; auto; right; split; auto; lia.
      * destruct (Nat.compare_spec x y); intros Hcmp; try congruence;
          right; split; auto; left; split; try lia; congruence.
    + intros _. right; split; auto. left; split; [exact I | discriminate].
    + congruence.
    + destruct (Nat.compare_spec (i_masterIndex a) (i_masterIndex b));
        intros Hcmp; try congruence; right; split; auto; right; split; auto; lia.
  - destruct (Nat.compare_spec (i_count b) (i_count a)); intros Hcmp; try congruence.
    left; lia.
Qed.

Lemma compare_items_after a b : compare_items a b = Gt -> item_before b a.
Proof.
  unfold compare_items, item_before.
  destruct (Nat.eqb_spec (i_count b) (i_count a)) as [Hc|Hc]; simpl.
  - destruct (i_firstIndex a) as [x|], (i_firstIndex b) as [y|]; simpl.
    + destruct (Nat.eqb_spec x y) as [->|Hxy]; simpl.
      * destruct (Nat.compare_spec (i_masterIndex a) (i_masterIndex b));
          intros Hcmp; try congruence; right; split; auto; right; split; auto; lia.
      * destruct (Nat.compare_spec x y); intros Hcmp; try congruence;
          right; split; auto; left; split; try lia; congruence.
    + discriminate.
    + intros _. right; split; auto. left; split; [exact I | discriminate].
    + destruct (Nat.compare_spec (i_masterIndex a) (i_masterIndex b));
        intros Hcmp; try congruence; right; split; auto; right; split; auto; lia.
  - destruct (Nat.compare_spec (i_count b) (i_count a)); intros Hcmp; try congruence.
    left; lia.
Qed.

Lemma index_strict_trans (a b c : option nat) :
  index_le a b -> a <> b -> index_le b c -> b <> c -> index_le a c /\ a <> c.
Proof.
  destruct a as [x|], b as [y|], c as [z|]; simpl; intros H1 H2 H3 H4;
    try contradiction; try (exfalso; congruence).
  - assert (x <> y) by congruence. assert (y <> z) by congruence.
    split; [lia | intros [= ->]; lia].
  - split; [exact I | discriminate].
Qed.

Lemma item_before_trans a b c : item_before a b -> item_before b c -> item_before a c.
Proof.
  unfold item_before. intros [H1|[H1 HI]] [H4|[H4 HJ]]; try (left; lia).
  right; split; [lia|].
  destruct HI as [[H2 H3]|[H2 H3]], HJ as [[H5 H6]|[H5 H6]].
  - left. eapply index_strict_trans; eauto.
  - left. rewrite <- H5. auto.
  - left. rewrite H2. auto.
  - right. split; [congruence | lia].
Qed.

Lemma insert_item_sorted x l :
  StronglySorted item_before l -> StronglySorted item_before (insert_item x l).
Proof.
  induction l as [|y r IH]; simpl; intros Hs.
  - constructor; constructor.
  - inversion Hs as [|? ? Hr Hy]; subst.
    destruct (compare_items x y) eqn:E.
    + constructor; [exact Hs|].
      assert (Hxy : item_before x y) by (apply compare_items_before; congruence).
      constructor; [exact Hxy|].
      eapply Forall_impl; [|exact Hy]. intros z Hz. eapply item_before_trans; eauto.
    + constructor; [exact Hs|].
      assert (Hxy : item_before x y) by (apply compare_items_before; congruence).
      constructor; [exact Hxy|].
      eapply Forall_impl; [|exact Hy]. intros z Hz. eapply item_before_trans; eauto.
    + constructor; [now apply IH|].
      apply Forall_forall. intros z Hz.
      apply (Permutation_in _ (insert_item_perm x r)) in Hz.
      destruct Hz as [<-|Hz]; [now apply compare_items_after|].
      rewrite Forall_forall in Hy. now apply Hy.
Qed.

Lemma sort_items_sorted l : StronglySorted item_before (sort_items l).
Proof.
  induction l as [|x l IH]; simpl; [constructor|]. now apply insert_item_sorted.
Qed.

Lemma findIndex_split (A : Type) (p : A -> bool) : forall l idx,
  findIndex p l = Some idx ->
  exists x, nth_error l idx = Some x /\ p x = true /\
            forall y, In y (firstn idx l) -> p y = false.
Proof.
  induction l as [|a l IH]; intros idx; simpl; [discriminate|].
  destruct (p a) eqn:Ea.
  - intros [= <-]. exists a. simpl. repeat split; auto. intros y [].
  - destruct (findIndex p l) as [k|] eqn:Ek; [|discriminate].
    intros [= <-]. destruct (IH k eq_refl) as (x & Hx & Hp & Hpre).
    exists x. simpl. repeat split; auto.
    intros y [<-|Hy]; [exact Ea | now apply Hpre].
Qed.

Lemma findIndex_none (A : Type) (p : A -> bool) : forall l,
  findIndex p l = None -> forall y, In y l -> p y = false.
Proof.
  induction l as [|a l IH]; simpl; [intros _ y []|].
  destruct (p a) eqn:Ea; [discriminate|].
  destruct (findIndex p l); [discriminate|].
  intros _ y [<-|Hy]; [exact Ea | now apply IH].
Qed.

Lemma ensure_user_has_user u items :
  u <> "" ->
  exists it, In it (ensure_user true (Some u) items) /\ named u it = true.
Proof.
  intros Hne. unfold ensure_user. simpl.
  apply String.eqb_neq in Hne. rewrite Hne. simpl.
  destruct (existsb (named u) items) eqn:E.
  - apply existsb_exists in E. destruct E as (it & Hin & Hn).
    clear Hne. induction items as [|a items IH]; [destruct Hin|].
    simpl. destruct (named u a) eqn:Ea.
    + eexists. split; [left; reflexivity|]. unfold named in *. simpl. exact Ea.
    + destruct Hin as [->|Hin]; [congruence|].
      destruct (IH Hin) as (it' & Hin' & Hn'). exists it'. split; [now right | exact Hn'].
  - exists (mkItem u 1 (Some 0) 0 true). split.
    + apply in_or_app. right. now left.
    + unfold named. simpl. apply String.eqb_refl.
Qed.

End ResolverMore.

(** X8.  An empty or missing message text means no presence: for a
    message that is not from the user the resolver returns no name, and
    for one from the user it returns the user name alone when there is
    one. *)
Theorem empty_text_presence (cs : ChatSettings) (lastMes : option Message)
  (nameList : list string) :
  message_text lastMes = "" ->
  getPresentOrderedNames cs lastMes nameList =
  if from_user lastMes then
    match USER_NAME cs nameList with
    | Some u => if truthy (Some u) then [u] else []
    | None => []
    end
  else [].
Proof.
  intros Ht. unfold getPresentOrderedNames. rewrite Ht. simpl.
  destruct (from_user lastMes) eqn:Eu;
    [destruct (USER_NAME cs nameList); reflexivity|].
  unfold sorted_items, collected_items. rewrite Ht, Eu. simpl list_ascii_of_string.
  rewrite collect_loop_empty_text.
  unfold ensure_user, force, demote.
  destruct (USER_NAME cs nameList) as [u|]; simpl; [|reflexivity].
  destruct (negb (String.eqb u "")); reflexivity.
Qed.

Lemma empty_text_presence_witness :
  getPresentOrderedNames no_settings None ["Alice"; "Bob"] = [].
Proof.
  refine (empty_text_presence no_settings None ["Alice"; "Bob"] _). reflexivity.
Defined.

Lemma present_names_core (cs : ChatSettings) (lastMes : option Message)
  (nameList : list string) :
  from_user lastMes = false ->
  let spans := plain_spans (list_ascii_of_string (message_text lastMes)) in
  Permutation (getPresentOrderedNames cs lastMes nameList)
    (filter (fun n => negb (excluded cs n)
               && (0 <? count (countOccurrencesOutsideBrackets
                                 (list_ascii_of_string n) spans)))
            nameList).
Proof.
  intros Hu spans. unfold getPresentOrderedNames. rewrite Hu, andb_false_r.
  rewrite (Permutation_map i_name (force_perm false _ _)).
  rewrite (Permutation_map i_name (demote_perm false _ _)).
  unfold sorted_items. rewrite Hu.
  rewrite (Permutation_map i_name (sort_items_perm _)).
  assert (He : forall user items, ensure_user false user items = items)
    by (intros [u|] items; reflexivity).
  rewrite He, collected_items_names. reflexivity.
Qed.

Section ResolverCache.

Variable cs : ChatSettings.
Variable spans : list PlainSpan.

(** The loop of the resolver returns when no counted name has an
    inherited key, with the items of the loop without the cache. *)
Lemma collect_loop_returns : forall names cache i items,
  RegexCache.consistent cache ->
  (forall n, In n names -> excluded cs n = false ->
             RegexCache.inherited_key (RegexCache.key_of (list_ascii_of_string n)) = false) ->
  fst (RegexCache.collect_loop cache cs spans names i items)
    = RegexCache.Returns (collect_loop cs spans names i items) /\
  RegexCache.consistent (snd (RegexCache.collect_loop cache cs spans names i items)).
Proof.
  induction names as [|n names IH]; intros cache i items Hc Hk; simpl.
  - split; [reflexivity | exact Hc].
  - assert (Hk' : forall m, In m names -> excluded cs m = false ->
              RegexCache.inherited_key (RegexCache.key_of (list_ascii_of_string m)) = false)
      by (intros m Hm; apply Hk; now right).
    destruct (excluded cs n) eqn:Ex; [now apply IH|].
    destruct (count_returns cache (list_ascii_of_string n) spans Hc
                (Hk n (or_introl eq_refl) Ex)) as [Hr Hc'].
    destruct (RegexCache.countOccurrencesOutsideBrackets cache
                (list_ascii_of_string n) spans) as [out cache'].
    simpl in Hr, Hc'. subst out. now apply IH.
Qed.

End ResolverCache.

(** The resolver returns when no counted name has an inherited key, with
    the names of the resolver without the cache. *)
Lemma resolver_returns cache cs lastMes nameList :
  RegexCache.consistent cache ->
  (forall n, In n nameList -> excluded cs n = false ->
             RegexCache.inherited_key (RegexCache.key_of (list_ascii_of_string n)) = false) ->
  fst (RegexCache.getPresentOrderedNames cache cs lastMes nameList)
    = RegexCache.Returns (getPresentOrderedNames cs lastMes nameList).
Proof.
  intros Hc Hk. unfold RegexCache.getPresentOrderedNames, getPresentOrderedNames.
  destruct (String.eqb (message_text lastMes) "" && from_user lastMes); [reflexivity|].
  destruct (collect_loop_returns cs
              (plain_spans (list_ascii_of_string (message_text lastMes)))
              nameList cache 0 [] Hc Hk) as [Hr _].
  destruct (RegexCache.collect_loop cache cs
              (plain_spans (list_ascii_of_string (message_text lastMes))) nameList 0 [])
    as [out cache'].
  simpl in Hr. subst out. reflexivity.
Qed.

(** X9.  For a message that is not from the user, and names whose
    lower-case forms are not the inherited keys [constructor] and
    [__proto__] unless they are excluded, the resolver returns, in some
    order, exactly the names of the list that are not excluded (by their
    lower-case form) and are counted at least once outside the brackets
    of the message text. *)
Theorem present_names_exactly (cache : RegexCache.Cache) (cs : ChatSettings)
  (lastMes : option Message) (nameList : list string) :
  from_user lastMes = false ->
  RegexCache.consistent cache ->
  (forall n, In n nameList -> excluded cs n = false ->
             RegexCache.inherited_key (RegexCache.key_of (list_ascii_of_string n)) = false) ->
  let spans := plain_spans (list_ascii_of_string (message_text lastMes)) in
  exists present,
    fst (RegexCache.getPresentOrderedNames cache cs lastMes nameList)
      = RegexCache.Returns present /\
    Permutation present
      (filter (fun n => negb (excluded cs n)
                 && (0 <? count (countOccurrencesOutsideBrackets
                                   (list_ascii_of_string n) spans)))
              nameList).
Proof.
  intros Hu Hc Hk spans. exists (getPresentOrderedNames cs lastMes nameList).
  split; [now apply resolver_returns | now apply present_names_core].
Qed.

Lemma present_names_exactly_witness :
  exists present,
    fst (RegexCache.getPresentOrderedNames [] (mkChatSettings [] ["carol"; "constructor"])
           (Some (said "Narrator" "Carol greets *Alice* and Bob"))
           ["Alice"; "Bob"; "Carol"; "Constructor"]) = RegexCache.Returns present /\
    Permutation present ["Bob"].
Proof.
  refine (present_names_exactly [] (mkChatSettings [] ["carol"; "constructor"])
            (Some (said "Narrator" "Carol greets *Alice* and Bob"))
            ["Alice"; "Bob"; "Carol"; "Constructor"] _ _ _).
  - reflexivity.
  - constructor.
  - intros n [<-|[<-|[<-|[<-|[]]]]] H; first [reflexivity | discriminate H].
Defined.

(** X10.  After [items.sort] the items are in order: higher count first,
    then earlier first index, then lower master index. *)
Theorem sorted_items_in_order (cs : ChatSettings) (lastMes : option Message)
  (nameList : list string) :
  StronglySorted item_before (sorted_items cs lastMes nameList).
Proof. unfold sorted_items. apply sort_items_sorted. Qed.

(** X11.  For a message from the user, with a user name that is defined,
    the result starts with the user name; unless the text is empty, the
    other names follow in the order of the sort, the user's item being
    the one taken out. *)
Theorem user_message_puts_user_first (cs : ChatSettings) (lastMes : option Message)
  (nameList : list string) (u : string) :
  from_user lastMes = true ->
  USER_NAME cs nameList = Some u ->
  u <> "" ->
  hd_error (getPresentOrderedNames cs lastMes nameList) = Some u /\
  (message_text lastMes <> "" ->
   exists pre post,
     map i_name (sorted_items cs lastMes nameList) = pre ++ u :: post /\
     ~ In u pre /\
     getPresentOrderedNames cs lastMes nameList = u :: pre ++ post).
Proof.
  intros Hu Hname Hne.
  assert (Htruthy : truthy (Some u) = true).
  { simpl. apply String.eqb_neq in Hne. now rewrite Hne. }
  assert (Hmain : exists pre post,
     map i_name (sorted_items cs lastMes nameList) = pre ++ u :: post /\
     ~ In u pre /\
     map i_name (force true (Some u) (demote true (Some u)
                   (sorted_items cs lastMes nameList))) = u :: pre ++ post).
  { assert (Hd : demote true (Some u) (sorted_items cs lastMes nameList)
                 = sorted_items cs lastMes nameList) by reflexivity.
    rewrite Hd. unfold force. rewrite Htruthy. simpl andb.
    destruct (findIndex (named u) (sorted_items cs lastMes nameList)) as [idx|] eqn:Ef.
    - destruct (findIndex_split _ _ _ _ Ef) as (it & Hnth & Hp & Hpre).
      rewrite Hnth.
      exists (map i_name (firstn idx (sorted_items cs lastMes nameList))),
             (map i_name (skipn (S idx) (sorted_items cs lastMes nameList))).
      unfold named in Hp. apply String.eqb_eq in Hp.
      repeat split.
      + rewrite <- (firstn_skipn_middle _ _ Hnth) at 1.
        rewrite map_app. simpl. now rewrite Hp.
      + intros Hin. apply in_map_iff in Hin. destruct Hin as (y & Hy & Hin).
        specialize (Hpre y Hin). unfold named in Hpre.
        rewrite Hy, String.eqb_refl in Hpre. discriminate.
      + simpl. rewrite map_app, Hp. reflexivity.
    - exfalso. unfold sorted_items in Ef. rewrite Hu, Hname in Ef.
      destruct (ensure_user_has_user u (collected_items cs lastMes nameList) Hne)
        as (it & Hin & Hn).
      apply (Permutation_in _ (Permutation_sym (sort_items_perm _))) in Hin.
      rewrite (findIndex_none _ _ _ Ef it Hin) in Hn. discriminate. }
  unfold getPresentOrderedNames. rewrite Hu, Hname, Htruthy, andb_true_r.
  destruct (String.eqb (message_text lastMes) "") eqn:Et.
  - split; [reflexivity|]. intros H. apply String.eqb_eq in Et. contradiction.
  - destruct Hmain as (pre & post & H1 & H2 & H3). split.
    + now rewrite H3.
    + intros _. exists pre, post. auto.
Qed.

Lemma user_message_puts_user_first_witness :
  hd_error (getPresentOrderedNames no_settings
              (Some (mkMessage "I wave at Bob and Bob nods" "Ann" true false))
              ["Ann"; "Bob"]) = Some "Ann".
Proof.
  refine (proj1 (user_message_puts_user_first no_settings
            (Some (mkMessage "I wave at Bob and Bob nods" "Ann" true false))
            ["Ann"; "Bob"] "Ann" _ _ _)).
  - reflexivity.
  - reflexivity.
  - discriminate.
Defined.

(** ** Further properties of the roster engine *)

Section RosterMore.

Variable s : Settings.

Lemma splice1_some_length i (l : list string) :
  length (splice1 (Some i) l) <= length l.
Proof.
  unfold splice1. rewrite length_app, length_firstn, length_skipn. lia.
Qed.

Lemma remove_one_sides name st :
  length (left (fst (fst (remove_one name st)))) <= length (left st) /\
  length (right (fst (fst (remove_one name st)))) <= length (right st).
Proof.
  unfold remove_one.
  destruct (spliced _ _);
    destruct (indexOf_name name (left _)) as [i|] eqn:El;
    try destruct (indexOf_name name (right _)) as [j|] eqn:Er;
    cbn [fst snd left right set_left set_right set_current set_imgs set_nameList];
    simpl left in *; simpl right in *;
    split; try lia; apply splice1_some_length.
Qed.

Lemma remove_one_effect name st :
  In name (imgs st) -> snd (fst (remove_one name st)) = [WrapperRemoved name].
Proof.
  intros Hin. unfold remove_one. simpl imgs.
  rewrite (spliced_found _ _ Hin). reflexivity.
Qed.

(** The removal loop on a roster whose wrappers mirror the name list:
    one wrapper detached for each removed name, the sides no longer than
    before. *)
Lemma remove_loop_effects (p : string -> bool) : forall r st,
  filter p (nameList st) = r -> imgs st = nameList st ->
  snd (fst (remove_loop r st)) = map WrapperRemoved r /\
  length (left (fst (fst (remove_loop r st)))) <= length (left st) /\
  length (right (fst (fst (remove_loop r st)))) <= length (right st).
Proof.
  induction r as [|n r IH]; intros st Hf Hw; simpl.
  - repeat split; lia.
  - destruct (@filter_head_remove p _ _ _ Hf) as (Hin & Hr & Hneg).
    destruct (remove_one_lists n st) as (Hn & Hi & Hok).
    pose proof (remove_one_sides n st) as [Hsl Hsr].
    assert (Heff : snd (fst (remove_one n st)) = [WrapperRemoved n])
      by (apply remove_one_effect; now rewrite Hw).
    rewrite Hw in Hi, Hok. specialize (Hok Hin).
    destruct (remove_one n st) as [[st1 eff] ok]; simpl in *; subst ok eff.
    rewrite <- Hn in Hr.
    assert (Hw1 : imgs st1 = nameList st1) by congruence.
    destruct (IH st1 Hr Hw1) as (H1 & H2 & H3).
    destruct (remove_loop r st1) as [[st2 eff2] ok2]; simpl in *.
    repeat split; [now rewrite H1 | lia | lia].
Qed.

End RosterMore.

(** X12.  After a refresh each bounded side holds no more names than its
    capacity. *)
Theorem refresh_respects_capacity (s : Settings) (names : list string) (st : Roster) :
  (-1 <= numLeft s)%Z -> (-1 <= numRight s)%Z ->
  imgs st = nameList st ->
  let st1 := fst (updateMembers s names st) in
  (numLeft s <> (-1)%Z -> (Z.of_nat (length (left st1)) <= numLeft s)%Z) /\
  (numRight s <> (-1)%Z -> (Z.of_nat (length (right st1)) <= numRight s)%Z).
Proof.
  intros Hl Hr Hw.
  destruct (@updateMembers_post s names st Hl Hr Hw) as (_ & _ & Hc & _). exact Hc.
Qed.

Lemma refresh_respects_capacity_witness :
  (Z.of_nat (length (right (fst (updateMembers (mkSettings (-1) 2)
      ["A"; "B"; "C"; "D"; "E"; "F"] empty_roster)))) <= 2)%Z.
Proof.
  refine (proj2 (refresh_respects_capacity (mkSettings (-1) 2)
            ["A"; "B"; "C"; "D"; "E"; "F"] empty_roster _ _ _) _).
  - vm_compute; discriminate.
  - vm_compute; discriminate.
  - reflexivity.
  - vm_compute; discriminate.
Defined.

Lemma tracks_desired_resolved (s : Settings) (names : list string) (st : Roster) :
  (-1 <= numLeft s)%Z -> (-1 <= numRight s)%Z ->
  imgs st = nameList st ->
  let st1 := fst (updateMembers s names st) in
  nameList st1 =
    filter (fun it => includes it names) (nameList st)
    ++ filter (fun it => negb (includes it (nameList st))) names /\
  (forall n, In n (nameList st1) <-> In n names) /\
  imgs st1 = nameList st1.
Proof.
  intros Hl Hr Hw.
  destruct (@updateMembers_post s names st Hl Hr Hw) as (Hn & Hi & _ & _).
  cbv zeta.
  assert (Hf : filter (fun x => negb (negb (includes x names))) (nameList st)
               = filter (fun it => includes it names) (nameList st)).
  { apply filter_ext. intros a. apply negb_involutive. }
  rewrite Hf in Hn. repeat split; [exact Hn | | | exact Hi].
  - rewrite Hn, in_app_iff, !filter_In, includes_In. tauto.
  - intros Hin. rewrite Hn, in_app_iff, !filter_In, includes_In, negb_true_iff,
      includes_not_In.
    destruct (in_dec string_dec n (nameList st)); tauto.
Qed.

Lemma places_all_or_full_resolved (s : Settings) (names : list string) (st : Roster) :
  (-1 <= numLeft s)%Z -> (-1 <= numRight s)%Z ->
  imgs st = nameList st ->
  Forall (fun n => n <> "") names ->
  let st1 := fst (updateMembers s names st) in
  (forall n, In n names -> assigned st1 n) \/
  (Z.of_nat (length (left st1)) = numLeft s /\
   Z.of_nat (length (right st1)) = numRight s /\
   truthy (current st1) = true).
Proof.
  intros Hl Hr Hw Hne.
  destruct (@updateMembers_post s names st Hl Hr Hw) as (Hn & Hi & Hc & Hb).
  cbv zeta. destruct (Hb Hne) as [Hroom|Hq].
  - right. unfold room in Hroom. destruct Hc as [Hcl Hcr].
    apply orb_false_iff in Hroom. destruct Hroom as [Hroom H5].
    apply orb_false_iff in Hroom. destruct Hroom as [Hroom H4].
    apply orb_false_iff in Hroom. destruct Hroom as [Hroom H3].
    apply orb_false_iff in Hroom. destruct Hroom as [H1 H2].
    apply Z.eqb_neq in H1, H2. apply Z.ltb_ge in H3, H4.
    specialize (Hcl H1). specialize (Hcr H2).
    apply negb_false_iff in H5. repeat split; try lia. exact H5.
  - left. intros n Hin. apply not_queued_assigned.
    + rewrite Hn, in_app_iff, !filter_In, negb_involutive, includes_In,
        negb_true_iff, includes_not_In.
      destruct (in_dec string_dec n (nameList st)); tauto.
    + rewrite Hq. intros [].
Qed.

Lemma effects_resolved (s : Settings) (names : list string) (st : Roster) :
  imgs st = nameList st ->
  (numLeft s <> (-1)%Z -> (Z.of_nat (length (left st)) <= numLeft s)%Z) ->
  (numRight s <> (-1)%Z -> (Z.of_nat (length (right st)) <= numRight s)%Z) ->
  snd (updateMembers s names st) =
  map WrapperRemoved (filter (fun it => negb (includes it names)) (nameList st))
  ++ map WrapperCreated (filter (fun it => negb (includes it (nameList st))) names).
Proof.
  intros Hw Hcl Hcr. unfold updateMembers.
  destruct (remove_loop_filter (fun it => negb (includes it names)) st eq_refl Hw)
    as (Hok & _ & _).
  destruct (remove_loop_effects (fun it => negb (includes it names)) _ st eq_refl Hw)
    as (Heff & Hsl & Hsr).
  destruct (remove_loop (filter (fun it => negb (includes it names)) (nameList st)) st)
    as [[stR effR] ok]; simpl in Hok, Heff, Hsl, Hsr; subst ok effR.
  assert (Hc : within_caps s stR) by (split; intros H; [specialize (Hcl H) | specialize (Hcr H)]; lia).
  rewrite (@shrink_noop s stR Hc).
  cbn [add_loop fold_left fst snd]. now rewrite app_nil_r.
Qed.

(** ** The refresh with lookups that reject *)

Section RefreshLookups.

Variable resolves : string -> bool.
Variable s : Settings.

Lemma attempted_resolved : forall added,
  forallb resolves added = true -> attempted resolves added = added.
Proof.
  induction added as [|n added IH]; simpl; [reflexivity|].
  intros H. apply andb_true_iff in H. destruct H as [H1 H2].
  now rewrite H1, IH.
Qed.

Lemma attempted_cut_short : forall added,
  forallb resolves added = false -> attempted resolves added <> [].
Proof. intros [|n added]; simpl; [discriminate | discriminate]. Qed.

(** The add loop with lookups is the add loop on the names it reaches;
    it ends normally exactly when every lookup resolves. *)
Lemma add_loop_with_spec : forall added st,
  add_loop_with resolves s added st =
  (fst (add_loop s (attempted resolves added) st),
   map WrapperCreated (attempted resolves added),
   forallb resolves added).
Proof.
  unfold add_loop. cbn [fst].
  induction added as [|n added IH]; intros st; [reflexivity|].
  cbn [add_loop_with attempted forallb]. destruct (resolves n); cbn [andb].
  - rewrite IH. reflexivity.
  - reflexivity.
Qed.

(** When every lookup of the add loop resolves the refresh is the one
    without rejections. *)
Lemma updateMembers_with_resolved names st :
  forallb resolves (filter (fun it => negb (includes it (nameList st))) names) = true ->
  updateMembers_with resolves s names st = updateMembers s names st.
Proof.
  intros H. unfold updateMembers_with, updateMembers.
  destruct (remove_loop (filter (fun it => negb (includes it names)) (nameList st)) st)
    as [[st1 eff1] [|]]; [|reflexivity].
  destruct (shrink s st1) as [st2 purgatory].
  rewrite add_loop_with_spec, H, (attempted_resolved _ H).
  destruct (add_loop s (filter (fun it => negb (includes it (nameList st))) names) st2)
    as [st3 eff3] eqn:Ea.
  unfold add_loop in Ea. injection Ea as E3 Ee. cbn [fst]. rewrite Ee.
  reflexivity.
Qed.

(** The names and the wrappers a refresh leaves, and its effects on the
    wrappers, when the refresh may be cut short in the add loop. *)
Lemma updateMembers_with_lists names st :
  (-1 <= numLeft s)%Z -> (-1 <= numRight s)%Z ->
  imgs st = nameList st ->
  let added := filter (fun it => negb (includes it (nameList st))) names in
  let st1 := fst (updateMembers_with resolves s names st) in
  nameList st1 =
    filter (fun it => includes it names) (nameList st) ++ attempted resolves added /\
  imgs st1 = nameList st1.
Proof.
  intros Hl Hr Hw added st1.
  destruct (forallb resolves added) eqn:Ef.
  - unfold st1. rewrite (updateMembers_with_resolved names st Ef).
    rewrite (attempted_resolved _ Ef).
    destruct (tracks_desired_resolved s names st Hl Hr Hw) as (H1 & _ & H3).
    split; [exact H1 | exact H3].
  - unfold st1, updateMembers_with.
    destruct (remove_loop_filter (fun it => negb (includes it names)) st eq_refl Hw)
      as (Hok & Hn & Hi).
    destruct (remove_loop (filter (fun it => negb (includes it names)) (nameList st)) st)
      as [[stR effR] ok]. simpl in Hok, Hn, Hi. subst ok.
    destruct (@shrink_lists s stR) as (Sn & Si & _).
    destruct (shrink s stR) as [st2 purgatory]. simpl in Sn, Si.
    fold added. rewrite add_loop_with_spec, Ef.
    destruct (@add_loop_lists s (attempted resolves added) st2) as [An Ai].
    cbn [fst]. rewrite An, Ai, Sn, Si, Hi, Hn.
    split; [|reflexivity]. f_equal. apply filter_ext. intros a. apply negb_involutive.
Qed.

End RefreshLookups.

(** C1 (as amended).  With [numLeft = 1] and [numRight = 1], from the
    empty roster, a refresh that adds A, B, C in that order, the image
    lookup resolving for each of them, makes A the current name and gives
    [left = [B]] and [right = [C]]; a further name D is then kept in
    [nameList] only, on neither side and not current, until a slot frees:
    once B is gone, D takes the left slot. *)
Theorem capacity_example (resolves : string -> bool) (a b c d : string) :
  a <> "" -> NoDup [a; b; c; d] ->
  resolves a = true -> resolves b = true -> resolves c = true -> resolves d = true ->
  let st3 := fst (updateMembers_with resolves one_each [a; b; c] empty_roster) in
  let st4 := fst (updateMembers_with resolves one_each [a; b; c; d] st3) in
  let st5 := fst (updateMembers_with resolves one_each [a; c; d] st4) in
  st3 = mkRoster [a; b; c] [b] [c] (Some a) [a; b; c] /\
  st4 = mkRoster [a; b; c; d] [b] [c] (Some a) [a; b; c; d] /\
  st5 = mkRoster [a; c; d] [d] [c] (Some a) [a; c; d].
Proof.
  intros Ha Hnd Ra Rb Rc Rd. cbv zeta.
  destruct (capacity_example_resolved Ha Hnd) as (H3 & H4 & H5).
  assert (Hall : forall names st,
            incl names [a; b; c; d] ->
            forallb resolves (filter (fun it => negb (includes it (nameList st))) names)
            = true).
  { intros names st Hin. apply forallb_forall. intros x Hx.
    apply filter_In in Hx. destruct Hx as [Hx _]. apply Hin in Hx.
    simpl in Hx. destruct Hx as [<-|[<-|[<-|[<-|[]]]]]; assumption. }
  rewrite (updateMembers_with_resolved resolves one_each [a; b; c] empty_roster).
  2:{ apply Hall. intros x Hx. simpl in *. tauto. }
  rewrite (updateMembers_with_resolved resolves one_each [a; b; c; d]).
  2:{ apply Hall. intros x Hx. exact Hx. }
  rewrite (updateMembers_with_resolved resolves one_each [a; c; d]).
  2:{ apply Hall. intros x Hx. simpl in *. tauto. }
  split; [exact H3|]. split; [exact H4 | exact H5].
Qed.

Lemma capacity_example_witness :
  fst (updateMembers_with (fun _ => true) one_each ["A"; "B"; "C"] empty_roster)
  = mkRoster ["A"; "B"; "C"] ["B"] ["C"] (Some "A") ["A"; "B"; "C"].
Proof.
  refine (proj1 (capacity_example (fun _ => true) "A" "B" "C" "D" _ _
                   eq_refl eq_refl eq_refl eq_refl)).
  - discriminate.
  - repeat constructor; simpl; intuition discriminate.
Defined.

(** C4 (as stated) fails when an image lookup rejects: the refresh is
    cut short after the first added name, and the same refresh once more
    goes on where the first one stopped.  With one slot on each side and
    the names A, B, C, the first refresh tracks A alone; the second one
    adds B and creates its wrapper. *)
Lemma refresh_twice_changes_roster :
  let rejects := fun _ : string => false in
  let r1 := updateMembers_with rejects one_each ["A"; "B"; "C"] empty_roster in
  let r2 := updateMembers_with rejects one_each ["A"; "B"; "C"] (fst r1) in
  nameList (fst r1) = ["A"] /\
  nameList (fst r2) = ["A"; "B"] /\
  snd r2 = [WrapperCreated "B"] /\
  r2 <> (fst r1, []).
Proof. vm_compute. repeat split. discriminate. Qed.

(** C4 (as amended).  With capacities of at least [-1], desired names
    that are all non-empty, wrappers that mirror the name list (as they
    do in every roster the refresh builds from the empty one), and a
    first refresh in which the image lookup resolved for every added
    name, a second refresh with the same desired names and settings
    returns the roster unchanged and has no effect on the wrappers,
    whatever its lookups would do. *)
Theorem refresh_idempotent (resolves resolves' : string -> bool) (s : Settings)
  (names : list string) (st : Roster) :
  (-1 <= numLeft s)%Z -> (-1 <= numRight s)%Z ->
  Forall (fun n => n <> "") names ->
  imgs st = nameList st ->
  (forall n, In n names -> ~ In n (nameList st) -> resolves n = true) ->
  updateMembers_with resolves' s names (fst (updateMembers_with resolves s names st)) =
  (fst (updateMembers_with resolves s names st), []).
Proof.
  intros Hl Hr Hne Hw Hres.
  rewrite (updateMembers_with_resolved resolves s names st).
  2:{ apply forallb_forall. intros x Hx. apply filter_In in Hx. destruct Hx as [Hx Hn].
      apply Hres; [exact Hx | now apply includes_not_In, negb_true_iff]. }
  destruct (tracks_desired_resolved s names st Hl Hr Hw) as (_ & Hin & _).
  rewrite (updateMembers_with_resolved resolves' s names).
  2:{ rewrite (@filter_nil _ (fun it => negb (includes it
               (nameList (fst (updateMembers s names st))))) names); [reflexivity|].
      intros x Hx. apply negb_false_iff, includes_In, Hin, Hx. }
  now apply (@refresh_idempotent_resolved s names st).
Qed.

Lemma refresh_idempotent_witness :
  let st0 := fst (updateMembers one_each ["Z"; "A"] empty_roster) in
  updateMembers_with (fun _ => false) one_each ["A"; "B"; "C"; "D"]
    (fst (updateMembers_with (fun _ => true) one_each ["A"; "B"; "C"; "D"] st0)) =
  (fst (updateMembers_with (fun _ => true) one_each ["A"; "B"; "C"; "D"] st0), []).
Proof.
  refine (refresh_idempotent (fun _ => true) (fun _ => false) one_each
            ["A"; "B"; "C"; "D"]
            (fst (updateMembers one_each ["Z"; "A"] empty_roster)) _ _ _ _ _).
  - vm_compute; discriminate.
  - vm_compute; discriminate.
  - repeat constructor; discriminate.
  - vm_compute; reflexivity.
  - reflexivity.
Defined.

(** X13.  After a refresh the tracked names are the names kept from
    before, in their order, then the added names the add loop reached, in
    the order of the desired list: all of them when every image lookup
    resolves, and otherwise those up to and including the first one whose
    lookup rejects.  There is one wrapper for each tracked name, and when
    every lookup resolves a name is tracked exactly when it is desired. *)
Theorem refresh_tracks_desired_names (resolves : string -> bool) (s : Settings)
  (names : list string) (st : Roster) :
  (-1 <= numLeft s)%Z -> (-1 <= numRight s)%Z ->
  imgs st = nameList st ->
  let added := filter (fun it => negb (includes it (nameList st))) names in
  let st1 := fst (updateMembers_with resolves s names st) in
  nameList st1 =
    filter (fun it => includes it names) (nameList st) ++ attempted resolves added /\
  imgs st1 = nameList st1 /\
  (forallb resolves added = true -> forall n, In n (nameList st1) <-> In n names).
Proof.
  intros Hl Hr Hw added st1.
  destruct (updateMembers_with_lists resolves s names st Hl Hr Hw) as [H1 H2].
  split; [exact H1|]. split; [exact H2|].
  intros Hall n. unfold st1. rewrite (updateMembers_with_resolved resolves s names st Hall).
  destruct (tracks_desired_resolved s names st Hl Hr Hw) as (_ & H & _). apply H.
Qed.

Lemma refresh_tracks_desired_names_witness :
  nameList (fst (updateMembers_with (fun n => String.eqb n "D") one_each
                   ["C"; "D"; "A"; "E"; "F"]
                   (fst (updateMembers one_each ["A"; "B"; "C"] empty_roster))))
  = ["A"; "C"; "D"; "E"].
Proof.
  refine (proj1 (refresh_tracks_desired_names (fun n => String.eqb n "D") one_each
            ["C"; "D"; "A"; "E"; "F"]
            (fst (updateMembers one_each ["A"; "B"; "C"] empty_roster)) _ _ _)).
  - vm_compute; discriminate.
  - vm_compute; discriminate.
  - reflexivity.
Defined.

(** X14.  After a refresh to non-empty names in which the image lookup
    resolved for every added name, every desired name has a place, on a
    side or as the current name, unless both sides are bounded and full
    and there is a current name. *)
Theorem refresh_places_all_or_full (resolves : string -> bool) (s : Settings)
  (names : list string) (st : Roster) :
  (-1 <= numLeft s)%Z -> (-1 <= numRight s)%Z ->
  imgs st = nameList st ->
  Forall (fun n => n <> "") names ->
  forallb resolves (filter (fun it => negb (includes it (nameList st))) names) = true ->
  let st1 := fst (updateMembers_with resolves s names st) in
  (forall n, In n names -> assigned st1 n) \/
  (Z.of_nat (length (left st1)) = numLeft s /\
   Z.of_nat (length (right st1)) = numRight s /\
   truthy (current st1) = true).
Proof.
  intros Hl Hr Hw Hne Hall. cbv zeta.
  rewrite (updateMembers_with_resolved resolves s names st Hall).
  now apply places_all_or_full_resolved.
Qed.

Lemma refresh_places_all_or_full_witness :
  let st1 := fst (updateMembers_with (fun _ => true) (mkSettings (-1) 2)
                    ["A"; "B"; "C"; "D"] empty_roster) in
  (forall n, In n ["A"; "B"; "C"; "D"] -> assigned st1 n) \/
  (Z.of_nat (length (left st1)) = (-1)%Z /\
   Z.of_nat (length (right st1)) = 2%Z /\
   truthy (current st1) = true).
Proof.
  refine (refresh_places_all_or_full (fun _ => true) (mkSettings (-1) 2)
            ["A"; "B"; "C"; "D"] empty_roster _ _ _ _ _).
  - vm_compute; discriminate.
  - vm_compute; discriminate.
  - reflexivity.
  - repeat constructor; discriminate.
  - reflexivity.
Defined.

(** X15.  A refresh on a roster whose sides are within the capacities
    (as they are after any refresh with the same settings) and that has
    one wrapper per tracked name detaches exactly the wrappers of the
    removed names, then creates one wrapper for each added name the add
    loop reaches (all of them when every image lookup resolves, else
    those up to and including the first one whose lookup rejects), and
    has no other effect on the wrappers. *)
Theorem refresh_effects (resolves : string -> bool) (s : Settings)
  (names : list string) (st : Roster) :
  imgs st = nameList st ->
  (numLeft s <> (-1)%Z -> (Z.of_nat (length (left st)) <= numLeft s)%Z) ->
  (numRight s <> (-1)%Z -> (Z.of_nat (length (right st)) <= numRight s)%Z) ->
  snd (updateMembers_with resolves s names st) =
  map WrapperRemoved (filter (fun it => negb (includes it names)) (nameList st))
  ++ map WrapperCreated
       (attempted resolves (filter (fun it => negb (includes it (nameList st))) names)).
Proof.
  intros Hw Hcl Hcr.
  destruct (forallb resolves (filter (fun it => negb (includes it (nameList st))) names))
    eqn:Ef.
  - rewrite (updateMembers_with_resolved resolves s names st Ef).
    rewrite (attempted_resolved resolves _ Ef). now apply effects_resolved.
  - unfold updateMembers_with.
    destruct (remove_loop_filter (fun it => negb (includes it names)) st eq_refl Hw)
      as (Hok & _ & _).
    destruct (remove_loop_effects (fun it => negb (includes it names)) _ st eq_refl Hw)
      as (Heff & _ & _).
    destruct (remove_loop (filter (fun it => negb (includes it names)) (nameList st)) st)
      as [[stR effR] ok]; simpl in Hok, Heff; subst ok effR.
    destruct (shrink s stR) as [st2 purgatory].
    rewrite add_loop_with_spec, Ef. reflexivity.
Qed.

Lemma refresh_effects_witness :
  snd (updateMembers_with (fun n => String.eqb n "D") one_each ["C"; "D"; "A"; "E"; "F"]
         (fst (updateMembers one_each ["A"; "B"; "C"] empty_roster)))
  = [WrapperRemoved "B"; WrapperCreated "D"; WrapperCreated "E"].
Proof.
  refine (refresh_effects (fun n => String.eqb n "D") one_each ["C"; "D"; "A"; "E"; "F"]
            (fst (updateMembers one_each ["A"; "B"; "C"] empty_roster)) _ _ _).
  - reflexivity.
  - intros _. vm_compute. discriminate.
  - intros _. vm_compute. discriminate.
Defined.

Section RosterInvariant.

Variable s : Settings.

Lemma NoDup_app_disjoint (A : Type) (l l' : list A) :
  NoDup (l ++ l') -> forall a, In a l -> ~ In a l'.
Proof.
  induction l as [|x l IH]; simpl; [tauto|].
  intros Hnd a [<-|Hin] Hin'.
  - inversion Hnd; subst. apply H1. apply in_or_app. now right.
  - inversion Hnd; subst. now apply (IH H2 a).
Qed.

Lemma remove_first_split n : forall l,
  In n l -> exists l1 l2, l = l1 ++ n :: l2 /\ remove_first n l = l1 ++ l2.
Proof.
  induction l as [|a l IH]; simpl; [tauto|]. intros Hin.
  destruct (string_dec a n) as [->|Hne].
  - exists [], l. rewrite remove_first_head. auto.
  - destruct Hin as [Hin|Hin]; [contradiction|].
    destruct (IH Hin) as (l1 & l2 & H1 & H2).
    exists (a :: l1), l2. rewrite remove_first_tail by assumption.
    simpl. now rewrite H1 at 1; rewrite H2.
Qed.

(** Taking a name out of a list without duplicates. *)
Lemma remove_first_NoDup n l :
  NoDup l -> In n l ->
  NoDup (remove_first n l) /\ ~ In n (remove_first n l) /\
  (forall x, In x (remove_first n l) <-> In x l /\ x <> n).
Proof.
  intros Hnd Hin. destruct (remove_first_split n l Hin) as (l1 & l2 & H1 & H2).
  rewrite H2. rewrite H1 in Hnd. destruct (NoDup_remove _ _ _ Hnd) as [Hnd' Hn].
  repeat split; auto.
  - apply in_app_or in H. rewrite H1. apply in_or_app. simpl. tauto.
  - intros ->. contradiction.
  - intros [Hx Hne]. rewrite H1 in Hx. apply in_app_or in Hx. apply in_or_app.
    simpl in Hx. destruct Hx as [Hx|[Hx|Hx]]; auto. congruence.
Qed.

Lemma roster_ok_shrunk st nl' pl' n :
  roster_ok st ->
  In n (nameList st) -> nl' = remove_first n (nameList st) ->
  NoDup pl' -> incl pl' (placed st) -> ~ In n pl' ->
  NoDup nl' /\ NoDup pl' /\ incl pl' nl'.
Proof.
  intros (Hnl & Hpl & Hincl) Hin -> Hnd Hsub Hn.
  destruct (remove_first_NoDup n (nameList st) Hnl Hin) as (H1 & H2 & H3).
  repeat split; auto. intros x Hx. apply H3. split.
  - apply Hincl, Hsub, Hx.
  - intros ->. contradiction.
Qed.

Lemma remove_one_ok n st :
  roster_ok st -> In n (nameList st) ->
  roster_ok (fst (fst (remove_one n st))).
Proof.
  intros Hok Hin.
  destruct (remove_one_lists n st) as (Hn & _ & _).
  destruct (remove_one_frame n st) as (Fl & Fr & Fc).
  set (st' := fst (fst (remove_one n st))) in *.
  destruct Hok as (Hnl & Hpl & Hincl).
  assert (Hgoal : NoDup (placed st') /\ incl (placed st') (placed st) /\
                  ~ In n (placed st')).
  { unfold placed in *. unfold cur_list in *.
    destruct (in_dec string_dec n (left st)) as [Hl|Hl].
    - destruct (Fl Hl) as (E1 & E2 & E3). rewrite E1, E2, E3.
      destruct (remove_first_split n (left st) Hl) as (l1 & l2 & H1 & H2).
      rewrite H2. rewrite H1, <- app_assoc in Hpl. simpl in Hpl.
      destruct (NoDup_remove _ _ _ Hpl) as [Hnd' Hn'].
      rewrite <- app_assoc. repeat split; auto.
      intros x Hx. rewrite H1. rewrite !in_app_iff in *. simpl. tauto.
    - destruct (in_dec string_dec n (right st)) as [Hr|Hr].
      + destruct (Fr Hl Hr) as (E1 & E2 & E3). rewrite E1, E2, E3.
        destruct (remove_first_split n (right st) Hr) as (r1 & r2 & H1 & H2).
        rewrite H2. rewrite H1 in Hpl.
        assert (Hpl' : NoDup ((left st ++ r1) ++ n :: r2 ++
                   match current st with Some c => [c] | None => [] end)).
        { rewrite <- !app_assoc in *. simpl in *. exact Hpl. }
        destruct (NoDup_remove _ _ _ Hpl') as [Hnd' Hn'].
        rewrite <- !app_assoc in Hnd', Hn'. rewrite <- !app_assoc.
        repeat split; auto.
        intros x Hx. rewrite H1. rewrite !in_app_iff in *. simpl. tauto.
      + destruct (Fc Hl Hr) as (E1 & E2 & E3). rewrite E1, E2, E3.
        rewrite app_nil_r. rewrite app_assoc in Hpl.
        apply NoDup_app_remove_r in Hpl. repeat split; auto.
        * intros x Hx. rewrite !in_app_iff in *. tauto.
        * intros Hx. apply in_app_or in Hx. tauto. }
  destruct Hgoal as (G1 & G2 & G3).
  destruct (roster_ok_shrunk st (nameList st') (placed st') n
              (conj Hnl (conj Hpl Hincl)) Hin Hn G1 G2 G3) as (A & B & C).
  repeat split; assumption.
Qed.

Lemma remove_loop_ok (p : string -> bool) : forall r st,
  filter p (nameList st) = r -> imgs st = nameList st ->
  roster_ok st -> roster_ok (fst (fst (remove_loop r st))).
Proof.
  induction r as [|n r IH]; intros st Hf Hw Hok; simpl; [exact Hok|].
  destruct (@filter_head_remove p _ _ _ Hf) as (Hin & Hr & Hneg).
  destruct (remove_one_lists n st) as (Hn & Hi & Hokb).
  pose proof (remove_one_ok n st Hok Hin) as Hok1.
  rewrite Hw in Hi, Hokb. specialize (Hokb Hin).
  destruct (remove_one n st) as [[st1 eff] ok]; simpl in *; subst ok.
  rewrite <- Hn in Hr.
  assert (Hw1 : imgs st1 = nameList st1) by congruence.
  specialize (IH st1 Hr Hw1 Hok1).
  destruct (remove_loop r st1) as [[st2 eff2] ok2]; simpl in *. exact IH.
Qed.

End RosterInvariant.

Section RosterInvariantPlace.

Variable s : Settings.

Lemma pop_loop_split cap : forall rside p,
  exists popped,
    rside = popped ++ fst (pop_loop cap rside p) /\
    snd (pop_loop cap rside p) = p ++ popped.
Proof.
  induction rside as [|x r IH]; intros p.
  - exists []. simpl. now rewrite app_nil_r.
  - cbn [pop_loop].
    destruct (negb (Z.eqb cap (-1)) && Z.gtb (Z.of_nat (length (x :: r))) cap).
    + destruct (IH (p ++ [x])) as (popped & H1 & H2).
      exists (x :: popped). split.
      * simpl. now rewrite <- H1.
      * rewrite H2, <- app_assoc. reflexivity.
    + exists []. simpl. now rewrite app_nil_r.
Qed.

(** The shrink pass keeps the invariant; the names it moves to the
    purgatory are distinct, tracked and without a place. *)
Lemma shrink_ok st :
  roster_ok st ->
  roster_ok (fst (shrink s st)) /\
  NoDup (snd (shrink s st)) /\
  forall n, In n (snd (shrink s st)) ->
    ~ In n (placed (fst (shrink s st))) /\ In n (nameList (fst (shrink s st))).
Proof.
  intros (Hnl & Hpl & Hincl). unfold shrink.
  destruct (pop_loop_split (numLeft s) (rev (left st)) []) as (pl & L1 & L2).
  destruct (pop_loop (numLeft s) (rev (left st)) []) as [rl p1].
  simpl in L1, L2. subst p1.
  destruct (pop_loop_split (numRight s) (rev (right st)) pl) as (pr & R1 & R2).
  destruct (pop_loop (numRight s) (rev (right st)) pl) as [rr p2].
  simpl in R1, R2. subst p2. simpl fst. simpl snd.
  assert (EL : left st = rev rl ++ rev pl).
  { rewrite <- (rev_involutive (left st)), L1, rev_app_distr. reflexivity. }
  assert (ER : right st = rev rr ++ rev pr).
  { rewrite <- (rev_involutive (right st)), R1, rev_app_distr. reflexivity. }
  assert (Hperm : Permutation (placed st)
            ((rev rl ++ rev rr ++ cur_list st) ++ (pl ++ pr))).
  { assert (Hpl2 : NoDup ((rev rl ++ rev pl) ++ (rev rr ++ rev pr) ++ cur_list st)).
    { unfold placed in Hpl. rewrite EL, ER in Hpl. exact Hpl. }
    unfold placed. rewrite EL, ER.
    apply NoDup_Permutation_bis; [exact Hpl2 | |].
    - rewrite !length_app, !length_rev. lia.
    - intros x Hx. rewrite !in_app_iff in *. rewrite <- !in_rev in Hx.
      rewrite <- !in_rev. tauto. }
  pose proof (Permutation_NoDup Hperm Hpl) as Hnd.
  unfold roster_ok, placed, cur_list. simpl.
  fold (cur_list st).
  repeat split.
  - exact Hnl.
  - now apply NoDup_app_remove_r in Hnd.
  - intros x Hx. apply Hincl. apply (Permutation_in _ (Permutation_sym Hperm)).
    apply in_or_app. now left.
  - now apply NoDup_app_remove_l in Hnd.
  - intros Hn. apply (NoDup_app_disjoint _ _ _ Hnd n Hn H).
  - apply Hincl. apply (Permutation_in _ (Permutation_sym Hperm)).
    apply in_or_app. now right.
Qed.

Lemma placed_place n st x :
  In x (placed (place s n st)) -> In x (placed st) \/ x = n.
Proof.
  unfold place. destruct (side_for s st); unfold placed, cur_list; simpl;
    rewrite ?in_app_iff; simpl; intuition congruence.
Qed.

(** Placing a tracked name that has no place keeps the invariant. *)
Lemma place_ok n st :
  roster_ok st -> ~ In n (placed st) -> In n (nameList st) ->
  roster_ok (place s n st).
Proof.
  intros (Hnl & Hpl & Hincl) Hfree Hin.
  destruct (place_lists s n st) as [Enl _].
  unfold roster_ok. rewrite Enl. split; [exact Hnl|]. split.
  - unfold place. destruct (side_for s st); unfold placed, cur_list in *; simpl.
    + rewrite app_assoc. apply NoDup_app.
      * rewrite app_assoc in Hpl. now apply NoDup_app_remove_r in Hpl.
      * constructor; [intros [] | constructor].
      * intros a Ha [<-|[]]. apply Hfree. rewrite !in_app_iff in *. tauto.
    + apply Permutation_NoDup with (l := n :: left st ++ right st ++
        match current st with Some c => [c] | None => [] end).
      * rewrite <- app_assoc. simpl. apply Permutation_middle.
      * constructor; assumption.
    + apply Permutation_NoDup with (l := n :: left st ++ right st ++
        match current st with Some c => [c] | None => [] end).
      * rewrite <- app_assoc. simpl. rewrite !app_assoc. apply Permutation_middle.
      * constructor; assumption.
    + exact Hpl.
  - intros x Hx. destruct (placed_place n st x Hx) as [H| ->]; [now apply Hincl | exact Hin].
Qed.

Lemma place_free n st m :
  ~ In m (placed st) -> m <> n -> ~ In m (placed (place s n st)).
Proof.
  intros Hm Hne Hin. destruct (placed_place n st m Hin); auto.
Qed.

Lemma waiting_tail st n ns : waiting st (n :: ns) -> waiting st ns.
Proof.
  intros [Hnd H]. inversion Hnd; subst. split; [assumption|].
  intros m Hm. apply H. now right.
Qed.

Lemma waiting_after_place st n ns :
  waiting st (n :: ns) -> waiting (place s n st) ns.
Proof.
  intros [Hnd H]. inversion Hnd as [|? ? Hn Hnd']; subst. split; [assumption|].
  intros m Hm. destruct (H m (or_intror Hm)) as [H1 H2]. split.
  - apply place_free; [exact H1 | intros ->; contradiction].
  - destruct (place_lists s n st) as [E _]. now rewrite E.
Qed.

Lemma add_one_ok a st pend :
  roster_ok st -> waiting st pend -> ~ In a (nameList st) ->
  roster_ok (add_one s a st) /\ waiting (add_one s a st) pend /\
  nameList (add_one s a st) = nameList st ++ [a].
Proof.
  intros (Hnl & Hpl & Hincl) [Hpn Hp] Ha.
  set (st1 := set_nameList (nameList st ++ [a]) st).
  assert (Hok1 : roster_ok st1).
  { unfold roster_ok, st1, placed, cur_list in *; simpl. repeat split.
    - apply NoDup_app; [exact Hnl | constructor; [intros []|constructor] |].
      intros x Hx [<-|[]]. contradiction.
    - exact Hpl.
    - intros x Hx. apply in_or_app. left. now apply Hincl. }
  assert (Hfree : ~ In a (placed st1)) by (intros H; apply Ha, Hincl, H).
  assert (Hin : In a (nameList st1)) by (simpl; apply in_or_app; right; now left).
  pose proof (place_ok a st1 Hok1 Hfree Hin) as Hok2.
  destruct (place_lists s a st1) as [Enl _].
  unfold add_one. fold st1.
  repeat split.
  - destruct Hok2 as (A & B & C). exact A.
  - destruct Hok2 as (A & B & C). exact B.
  - destruct Hok2 as (A & B & C). exact C.
  - exact Hpn.
  - change (~ In n (placed (place s a st1))).
    destruct (Hp n H) as [H1 H2].
    apply place_free; [exact H1 | intros ->; contradiction].
  - change (In n (nameList (place s a st1))). rewrite Enl. simpl.
    apply in_or_app. left. now apply Hp.
  - change (nameList (place s a st1) = nameList st ++ [a]). now rewrite Enl.
Qed.

Lemma add_loop_ok : forall added st pend,
  roster_ok st -> waiting st pend ->
  NoDup added -> (forall a, In a added -> ~ In a (nameList st)) ->
  roster_ok (fst (add_loop s added st)) /\ waiting (fst (add_loop s added st)) pend.
Proof.
  unfold add_loop; simpl.
  induction added as [|a added IH]; intros st pend Hok Hw Hnd Hnew; simpl; [auto|].
  inversion Hnd as [|? ? Ha Hnd']; subst.
  destruct (add_one_ok a st pend Hok Hw (Hnew a (or_introl eq_refl)))
    as (Hok1 & Hw1 & Enl).
  apply IH; auto.
  intros b Hb. rewrite Enl, in_app_iff. simpl.
  intros [H|[<-|[]]]; [apply (Hnew b (or_intror Hb) H) | contradiction].
Qed.

Lemma replace_loop_ok : forall pend st eff,
  roster_ok st -> waiting st pend ->
  roster_ok (fst (fold_left (replace_one s) pend (st, eff))).
Proof.
  induction pend as [|n pend IH]; intros st eff Hok Hw; simpl; [exact Hok|].
  destruct (side_for s st) eqn:E.
  1-3: apply IH; [apply place_ok; auto; apply Hw; now left
                 | now apply waiting_after_place].
  apply IH; [exact Hok | eapply waiting_tail; eauto].
Qed.

Lemma backfill_loop_ok : forall rq st,
  roster_ok st -> waiting st rq -> roster_ok (backfill_loop s rq st).
Proof.
  induction rq as [|n rq IH]; intros st Hok Hw; simpl; [exact Hok|].
  destruct (room s st); [|exact Hok].
  apply IH; [apply place_ok; auto; apply Hw; now left
            | now apply waiting_after_place].
Qed.

Lemma backfill_queue_waiting st :
  roster_ok st -> waiting st (rev (backfill_queue st)).
Proof.
  intros (Hnl & _ & _). unfold backfill_queue. split.
  - apply NoDup_rev. now apply NoDup_filter.
  - intros n Hn. apply in_rev in Hn. apply filter_In in Hn.
    destruct Hn as [Hin Hp]. split; [|exact Hin].
    apply andb_true_iff in Hp. destruct Hp as [Hp H3].
    apply andb_true_iff in Hp. destruct Hp as [H1 H2].
    apply negb_true_iff in H1, H2, H3.
    apply includes_not_In in H1, H2.
    unfold placed, cur_list. rewrite !in_app_iff.
    intros [H|[H|H]]; try contradiction.
    unfold is_current in H3. destruct (current st) as [c|]; [|destruct H].
    destruct H as [<-|[]]. rewrite String.eqb_refl in H3. discriminate.
Qed.

End RosterInvariantPlace.

Lemma updateMembers_ok (s : Settings) (names : list string) (st : Roster) :
  NoDup names -> imgs st = nameList st ->
  roster_ok st -> roster_ok (fst (updateMembers s names st)).
Proof.
  intros Hnd Hw Hok. unfold updateMembers.
  set (p := fun it => negb (includes it names)).
  destruct (@remove_loop_filter p _ st eq_refl Hw) as (Hb & Hn1 & _).
  pose proof (remove_loop_ok p _ st eq_refl Hw Hok) as Hok1.
  destruct (remove_loop (filter p (nameList st)) st) as [[st1 eff1] ok].
  simpl in Hb, Hn1, Hok1. subst ok.
  destruct (shrink_ok s st1 Hok1) as (Hok2 & Hpn & Hp).
  destruct (@shrink_lists s st1) as (Hn2 & _ & _).
  destruct (shrink s st1) as [st2 purg]. simpl in Hok2, Hpn, Hp, Hn2.
  assert (Hw2 : waiting st2 purg) by (split; assumption).
  set (added := filter (fun it => negb (includes it (nameList st))) names).
  assert (Hadd : roster_ok (fst (add_loop s added st2)) /\
                 waiting (fst (add_loop s added st2)) purg).
  { apply add_loop_ok; [exact Hok2 | exact Hw2 | now apply NoDup_filter |].
    intros a Ha Hin. rewrite Hn2, Hn1 in Hin.
    apply filter_In in Ha. destruct Ha as [_ Ha].
    apply negb_true_iff, includes_not_In in Ha.
    apply filter_In in Hin. tauto. }
  destruct Hadd as (Hok3 & Hw3).
  destruct (add_loop s added st2) as [st3 eff3]. simpl in Hok3, Hw3.
  pose proof (replace_loop_ok s purg st3 [] Hok3 Hw3) as Hok4.
  destruct (fold_left (replace_one s) purg (st3, [])) as [st4 eff4].
  simpl in Hok4. simpl fst.
  apply backfill_loop_ok; [exact Hok4 | now apply backfill_queue_waiting].
Qed.

(** X16.  A refresh keeps the roster well formed: when no name is
    tracked twice, no name holds two places (left, right, current) and
    every placed name is tracked, the same holds after the refresh to a
    desired list without duplicates. *)
Theorem refresh_keeps_roster_ok (s : Settings) (names : list string) (st : Roster) :
  (-1 <= numLeft s)%Z -> (-1 <= numRight s)%Z ->
  NoDup names -> imgs st = nameList st ->
  roster_ok st -> roster_ok (fst (updateMembers s names st)).
Proof. intros _ _. apply updateMembers_ok. Qed.

Lemma refresh_keeps_roster_ok_witness :
  roster_ok (fst (updateMembers one_each ["C"; "A"; "D"]
                    (fst (updateMembers one_each ["A"; "B"; "C"] empty_roster)))).
Proof.
  refine (refresh_keeps_roster_ok one_each ["C"; "A"; "D"]
            (fst (updateMembers one_each ["A"; "B"; "C"] empty_roster)) _ _ _ _ _).
  - vm_compute; discriminate.
  - vm_compute; discriminate.
  - repeat constructor; simpl; intuition discriminate.
  - reflexivity.
  - vm_compute. split; [|split].
    + repeat constructor; simpl; intuition discriminate.
    + repeat constructor; simpl; intuition discriminate.
    + intros a Ha; tauto.
Defined.

(** ** Further properties of the order from the chat history *)

Section HistoryMore.

Variable ignoreCase : bool.

Lemma filter_first_NoDup : forall r pre,
  NoDup (filter_first (pre ++ r) r (length pre)).
Proof.
  induction r as [|x r IH]; intros pre; [constructor|].
  rewrite (@filter_first_step pre x r).
  destruct (includes x pre).
  - simpl. apply IH.
  - simpl. constructor; [|apply IH].
    intros Hin. apply (@filter_first_In x r (pre ++ [x])) in Hin.
    destruct Hin as [_ Hn]. apply Hn. apply in_or_app. right. now left.
Qed.

Lemma first_occurrences_NoDup l : NoDup (first_occurrences l).
Proof. exact (filter_first_NoDup l []). Qed.

(** The names the loop gives: no name twice, and exactly the members
    found in one of the messages. *)
Lemma order_loop_names : forall mesList members,
  NoDup (order_loop ignoreCase mesList members []) /\
  forall n, In n (order_loop ignoreCase mesList members []) <->
            In n members /\ exists m, In m mesList /\ found ignoreCase (mes m) n = true.
Proof.
  induction mesList as [|m rest IH]; intros members.
  - simpl. split; [constructor|]. intros n. split; [intros [] | intros (_ & m & [] & _)].
  - rewrite (@order_loop_cons ignoreCase m rest members).
    destruct (IH (filter (fun n => negb (found ignoreCase (mes m) n)) members))
      as [Hnd Hin].
    split.
    + apply NoDup_app; [apply first_occurrences_NoDup | exact Hnd |].
      intros a Ha Hb. apply (@contributed_found ignoreCase members (mes m) a) in Ha.
      apply Hin in Hb. destruct Hb as [Hb _]. apply filter_In in Hb.
      destruct Ha as [_ Ha]. destruct Hb as [_ Hb]. rewrite Ha in Hb. discriminate.
    + intros n. rewrite in_app_iff, Hin, filter_In.
      rewrite (@contributed_found ignoreCase members (mes m) n). split.
      * intros [[H1 H2]|[[H1 H2] (m' & H3 & H4)]].
        -- split; [exact H1|]. exists m. split; [now left | exact H2].
        -- split; [exact H1|]. exists m'. split; [now right | exact H4].
      * intros (H1 & m' & [<-|H3] & H4).
        -- left. now split.
        -- destruct (found ignoreCase (mes m) n) eqn:E.
           ++ left. now split.
           ++ right. split; [now split|]. exists m'. now split.
Qed.

Lemma before_across a b l l' : In a l -> ~ In b l -> In b l' -> before a b (l ++ l').
Proof.
  intros Ha Hb Hb'.
  destruct (@indexOf_name_In_some a l Ha) as [i Hi].
  destruct (@indexOf_name_In_some b l' Hb') as [j Hj].
  exists i, (length l + j). repeat split.
  - now apply indexOf_name_app_l.
  - rewrite (@indexOf_name_app_fresh b l l' Hb), Hj. reflexivity.
  - apply indexOf_name_lt in Hi. lia.
Qed.

(** A name found in a message comes before every name whose latest
    mention is in an older message. *)
Lemma order_loop_recency a b m post : forall pre members,
  (forall m', In m' pre -> found ignoreCase (mes m') b = false) ->
  found ignoreCase (mes m) b = false ->
  In a members -> found ignoreCase (mes m) a = true ->
  In b (order_loop ignoreCase (pre ++ m :: post) members []) ->
  before a b (order_loop ignoreCase (pre ++ m :: post) members []).
Proof.
  induction pre as [|m' pre IH]; intros members Hpre Hmb Ha Hma Hb.
  - simpl app in *. rewrite (@order_loop_cons ignoreCase m post members) in *.
    assert (Hnb : ~ In b (first_occurrences
        (map fst (sort_by_index (collect_mesmem ignoreCase members (mes m)))))).
    { intros H. apply (@contributed_found ignoreCase members (mes m) b) in H.
      destruct H as [_ H]. rewrite Hmb in H. discriminate. }
    apply before_across; [| exact Hnb |].
    + apply (@contributed_found ignoreCase members (mes m) a). now split.
    + apply in_app_or in Hb. tauto.
  - change ((m' :: pre) ++ m :: post) with (m' :: (pre ++ m :: post)) in *.
    rewrite (@order_loop_cons ignoreCase m' (pre ++ m :: post) members) in *.
    assert (Hnb : ~ In b (first_occurrences
        (map fst (sort_by_index (collect_mesmem ignoreCase members (mes m')))))).
    { intros H. apply (@contributed_found ignoreCase members (mes m') b) in H.
      destruct H as [_ H]. rewrite (Hpre m' (or_introl eq_refl)) in H. discriminate. }
    assert (Hb' : In b (order_loop ignoreCase (pre ++ m :: post)
              (filter (fun n => negb (found ignoreCase (mes m') n)) members) []))
      by (apply in_app_or in Hb; tauto).
    destruct (found ignoreCase (mes m') a) eqn:Ea.
    + apply before_across; [| exact Hnb | exact Hb'].
      apply (@contributed_found ignoreCase members (mes m') a). now split.
    + apply before_app_left; [| exact Hnb |].
      * intros H. apply (@contributed_found ignoreCase members (mes m') a) in H.
        destruct H as [_ H]. rewrite Ea in H. discriminate.
      * apply IH; auto.
        -- intros m0 H0. apply Hpre. now right.
        -- apply filter_In. split; [exact Ha | now rewrite Ea].
Qed.

End HistoryMore.

(** X17.  The order from the chat history names no member twice, and it
    holds exactly the members whose pattern matches the text of some
    message of the chat that is neither a system nor a user message. *)
Theorem order_from_text_names (chat : list Message) (members : list string) :
  NoDup (getOrderFromText chat members) /\
  forall n, In n (getOrderFromText chat members) <->
            In n members /\
            exists m, In m chat /\ is_system m = false /\ is_user m = false /\
                      found false (mes m) n = true.
Proof.
  unfold getOrderFromText, order_from_text.
  destruct (order_loop_names false (mesList_of chat) members) as [Hnd Hin].
  split; [exact Hnd|]. intros n. rewrite Hin. unfold mesList_of.
  split; intros (H1 & m & H2 & H3); (split; [exact H1|]); exists m.
  - apply in_rev, filter_In in H2. destruct H2 as [H2 H4].
    apply andb_true_iff in H4. destruct H4 as [H4 H5].
    apply negb_true_iff in H4, H5. auto.
  - destruct H3 as (H3 & H4 & H5). split; [|exact H5].
    apply in_rev. rewrite rev_involutive. apply filter_In. split; [exact H2|].
    now rewrite H3, H4.
Qed.

(** X18.  In the order from the chat history a member mentioned in a
    message comes before every listed member that neither that message
    nor any newer one mentions. *)
Theorem order_from_text_recency (chat : list Message) (members : list string)
  (a b : string) (older newer : list Message) (m : Message) :
  filter narrated chat = older ++ m :: newer ->
  In a members -> found false (mes m) a = true ->
  found false (mes m) b = false ->
  (forall m', In m' newer -> found false (mes m') b = false) ->
  In b (getOrderFromText chat members) ->
  before a b (getOrderFromText chat members).
Proof.
  intros Hf Ha Hma Hmb Hnew Hb.
  unfold getOrderFromText, order_from_text, mesList_of in *.
  change (fun it => negb (is_system it) && negb (is_user it)) with narrated in *.
  rewrite Hf, rev_app_distr in *. simpl rev in *. rewrite <- app_assoc in *.
  simpl app in *.
  apply order_loop_recency; auto.
  intros m' Hm'. apply Hnew. now apply in_rev.
Qed.

Lemma order_from_text_recency_witness :
  before "Bob" "Carol"
    (getOrderFromText
       [said "Narrator" "Carol sits."; said "Narrator" "Then Bob greets Alice."]
       ["Alice"; "Bob"; "Carol"; "Dave"]).
Proof.
  refine (order_from_text_recency
            [said "Narrator" "Carol sits."; said "Narrator" "Then Bob greets Alice."]
            ["Alice"; "Bob"; "Carol"; "Dave"] "Bob" "Carol"
            [said "Narrator" "Carol sits."] []
            (said "Narrator" "Then Bob greets Alice.") _ _ _ _ _ _).
  - reflexivity.
  - simpl; tauto.
  - vm_compute. reflexivity.
  - vm_compute. reflexivity.
  - intros m' [].
  - vm_compute. tauto.
Defined.

(** ** Properties of the desired names *)

Section DesiredNamesFacts.

Lemma unshift_new_known : forall l o, incl l o -> unshift_new l o = o.
Proof.
  induction l as [|x r IH]; intros o Hin; simpl; [reflexivity|].
  assert (Hx : includes x o = true) by (apply includes_In, Hin; now left).
  rewrite Hx. simpl. apply IH. intros y Hy. apply Hin. now right.
Qed.

Lemma unshift_new_app : forall l l' o,
  unshift_new (l ++ l') o = unshift_new l' (unshift_new l o).
Proof.
  induction l as [|x r IH]; intros l' o; simpl; [reflexivity|].
  destruct (negb (includes x o)); apply IH.
Qed.

Lemma unshift_new_nodup : forall l,
  unshift_new (rev l) [] = nodup string_dec l.
Proof.
  induction l as [|x l IH]; [reflexivity|].
  simpl rev. rewrite unshift_new_app, IH. simpl.
  destruct (in_dec string_dec x l) as [Hin|Hin].
  - assert (H : includes x (nodup string_dec l) = true)
      by (apply includes_In, nodup_In, Hin).
    now rewrite H.
  - assert (H : includes x (nodup string_dec l) = false)
      by (apply includes_not_In; rewrite nodup_In; exact Hin).
    now rewrite H.
Qed.

(** The early exit of [getOrder] is taken only when every member is
    already in [o], so it never changes the result. *)
Lemma getOrder_loop_exit members : forall mesList o,
  NoDup o -> incl o members -> incl (map msg_name mesList) members ->
  getOrder_loop members mesList o = unshift_new (map msg_name mesList) o.
Proof.
  induction mesList as [|m rest IH]; intros o Hnd Hin Hms; simpl; [reflexivity|].
  assert (Hrest : incl (map msg_name rest) members)
    by (intros y Hy; apply Hms; now right).
  destruct (includes (msg_name m) o) eqn:E; simpl.
  - now apply IH.
  - apply includes_not_In in E.
    assert (Hnd' : NoDup (msg_name m :: o)) by (now constructor).
    assert (Hin' : incl (msg_name m :: o) members).
    { intros y [<-|Hy]; [apply Hms; now left | now apply Hin]. }
    destruct (Nat.leb_spec (length members) (S (length o))) as [Hle|Hlt].
    + symmetry. apply unshift_new_known.
      intros y Hy. apply (NoDup_length_incl Hnd' Hle Hin'). now apply Hrest.
    + now apply IH.
Qed.

Lemma find_name_some m names : In m names -> find_name m names = Some m.
Proof.
  unfold find_name. induction names as [|x r IH]; simpl; [tauto|].
  destruct (String.eqb x m) eqn:E.
  - apply String.eqb_eq in E. now subst.
  - apply String.eqb_neq in E. intros [H|H]; [congruence | now apply IH].
Qed.

Lemma find_name_none m names : ~ In m names -> find_name m names = None.
Proof.
  unfold find_name. induction names as [|x r IH]; simpl; [reflexivity|].
  intros H. destruct (String.eqb x m) eqn:E.
  - apply String.eqb_eq in E. tauto.
  - apply IH. tauto.
Qed.

(** [!names.find(it => it == m)] for a non-empty name: the name is not
    in [names]. *)
Lemma not_found_iff m names :
  m <> "" -> negb (truthy (find_name m names)) = negb (includes m names).
Proof.
  intros Hm. destruct (includes m names) eqn:E.
  - apply includes_In in E. rewrite (find_name_some m names E). simpl.
    apply String.eqb_neq in Hm. now rewrite Hm.
  - apply includes_not_In in E. now rewrite (find_name_none m names E).
Qed.

(** A duplicate-free part of a duplicate-free list followed by the rest
    of the list is a permutation of it. *)
Lemma part_then_rest (o l : list string) :
  NoDup o -> NoDup l -> incl o l ->
  NoDup (o ++ filter (fun m => negb (includes m o)) l) /\
  Permutation (o ++ filter (fun m => negb (includes m o)) l) l.
Proof.
  intros Ho Hl Hin.
  assert (Hnd : NoDup (o ++ filter (fun m => negb (includes m o)) l)).
  { apply NoDup_app; [exact Ho | now apply NoDup_filter |].
    intros a Ha Hb. apply filter_In in Hb. destruct Hb as [_ Hb].
    apply negb_true_iff, includes_not_In in Hb. contradiction. }
  split; [exact Hnd|].
  apply NoDup_Permutation; [exact Hnd | exact Hl |].
  intros x. rewrite in_app_iff, filter_In, negb_true_iff, includes_not_In.
  split.
  - intros [H|[H _]]; [now apply Hin | exact H].
  - intros H. destruct (in_dec string_dec x o); tauto.
Qed.

Lemma getOrder_nodup chat members :
  getOrder chat members =
  nodup string_dec (map msg_name (filter (spoken_by members) chat)).
Proof.
  unfold getOrder, speakers_of.
  rewrite getOrder_loop_exit.
  - rewrite map_rev. apply unshift_new_nodup.
  - constructor.
  - intros x [].
  - intros x Hx. apply in_map_iff in Hx. destruct Hx as (m & <- & Hm).
    apply in_rev, filter_In in Hm. destruct Hm as [_ Hm].
    unfold spoken_by in Hm. apply andb_true_iff in Hm. destruct Hm as [_ Hm].
    now apply includes_In.
Qed.

Lemma getOrder_incl chat members x : In x (getOrder chat members) -> In x members.
Proof.
  rewrite getOrder_nodup. intros Hx. apply nodup_In, in_map_iff in Hx.
  destruct Hx as (m & <- & Hm). apply filter_In in Hm. destruct Hm as [_ Hm].
  unfold spoken_by in Hm. apply andb_true_iff in Hm. destruct Hm as [_ Hm].
  now apply includes_In.
Qed.

End DesiredNamesFacts.

(** X19.  [getOrder] returns the members who have a message in the chat
    that is neither a system nor a user message, each once, in the order
    of their latest message, the most recent speaker last; its early
    exit never drops a name. *)
Theorem getOrder_latest_speakers (chat : list Message) (members : list string) :
  getOrder chat members =
  nodup string_dec (map msg_name (filter (spoken_by members) chat)).
Proof. apply getOrder_nodup. Qed.

(** X20.  For a custom member list without duplicates and without the
    empty name, the desired names are a permutation of the members,
    without duplicates: the members mentioned in the history first, in
    the order of the history, then the others in the order of the list. *)
Theorem custom_names_permutation (chat : list Message) (members : list string) :
  NoDup members -> ~ In "" members ->
  custom_names chat members =
    getOrderFromText chat members
    ++ filter (fun m => negb (includes m (getOrderFromText chat members))) members /\
  NoDup (custom_names chat members) /\
  Permutation (custom_names chat members) members.
Proof.
  intros Hnd Hne. unfold custom_names.
  destruct (order_loop_names false (mesList_of chat) members) as [Ho Hin].
  fold (order_from_text false chat members) in Ho, Hin.
  fold (getOrderFromText chat members) in Ho, Hin.
  assert (E : filter (fun m => negb (truthy (find_name m (getOrderFromText chat members))))
                     members
              = filter (fun m => negb (includes m (getOrderFromText chat members)))
                       members).
  { apply filter_ext_in. intros m Hm. apply not_found_iff. intros ->. contradiction. }
  rewrite E. split; [reflexivity|].
  apply part_then_rest; [exact Ho | exact Hnd |].
  intros x Hx. apply Hin in Hx. tauto.
Qed.

Lemma custom_names_permutation_witness :
  custom_names
    [said "Narrator" "Carol sits."; said "Narrator" "Then Bob greets Alice."]
    ["Alice"; "Bob"; "Carol"; "Dave"]
  = getOrderFromText
      [said "Narrator" "Carol sits."; said "Narrator" "Then Bob greets Alice."]
      ["Alice"; "Bob"; "Carol"; "Dave"]
    ++ filter (fun m => negb (includes m (getOrderFromText
         [said "Narrator" "Carol sits."; said "Narrator" "Then Bob greets Alice."]
         ["Alice"; "Bob"; "Carol"; "Dave"])))
       ["Alice"; "Bob"; "Carol"; "Dave"].
Proof.
  refine (proj1 (custom_names_permutation
            [said "Narrator" "Carol sits."; said "Narrator" "Then Bob greets Alice."]
            ["Alice"; "Bob"; "Carol"; "Dave"] _ _)).
  - repeat constructor; simpl; intuition discriminate.
  - simpl; intuition discriminate.
Defined.

Section RefreshFromSettings.

Lemma group_names_In (cs : ChatSettings) (chat : list Message)
  (members : list Character) (n : string) :
  In n (group_names cs chat members) <->
  In n (map ch_name members) /\ excluded cs n = false.
Proof.
  unfold group_names.
  set (names := filter (fun it => negb (excluded cs it))
                       (getOrder chat (map ch_name members))).
  assert (Hnames : forall x, In x names -> In x (map ch_name members)).
  { intros x Hx. unfold names in Hx. apply filter_In in Hx. destruct Hx as [Hx _].
    now apply getOrder_incl in Hx. }
  rewrite in_app_iff. split.
  - intros [H|H].
    + split; [now apply Hnames|]. unfold names in H. apply filter_In in H.
      destruct H as [_ H]. now apply negb_true_iff.
    + apply filter_In in H. destruct H as [H1 H2]. apply negb_true_iff in H2.
      split; [|exact H2]. apply in_map_iff in H1. destruct H1 as (c & <- & Hc).
      apply filter_In in Hc. apply in_map. tauto.
  - intros [H1 H2]. destruct (in_dec string_dec n names) as [Hin|Hin]; [now left|].
    right. apply filter_In. split; [|now rewrite H2].
    apply in_map_iff in H1. destruct H1 as (c & <- & Hc).
    apply in_map. apply filter_In. split; [exact Hc|].
    now rewrite (find_name_none _ _ Hin).
Qed.

Lemma NoDup_map_filter (A : Type) (f : A -> string) (p : A -> bool) : forall l,
  NoDup (map f l) -> NoDup (map f (filter p l)).
Proof.
  induction l as [|x l IH]; simpl; intros Hnd; [constructor|].
  inversion Hnd as [|? ? Hx Hl]; subst.
  destruct (p x); simpl; [|now apply IH].
  constructor; [|now apply IH].
  intros Hin. apply Hx. apply in_map_iff in Hin. destruct Hin as (y & Hy & Hin).
  apply filter_In in Hin. apply in_map_iff. exists y. tauto.
Qed.

Lemma group_names_NoDup cs chat (g : list Character) :
  NoDup (map ch_name g) -> ~ In "" (map ch_name g) ->
  NoDup (group_names cs chat g).
Proof.
  intros Hnd Hne. unfold group_names.
  set (names := filter (fun it => negb (excluded cs it)) (getOrder chat (map ch_name g))).
  assert (Hn : NoDup names).
  { unfold names. apply NoDup_filter. rewrite getOrder_nodup. apply NoDup_nodup. }
  apply NoDup_app; [exact Hn | |].
  - apply NoDup_filter. now apply NoDup_map_filter.
  - intros a Ha Hb. apply filter_In in Hb. destruct Hb as [Hb _].
    apply in_map_iff in Hb. destruct Hb as (c & <- & Hc).
    apply filter_In in Hc. destruct Hc as [Hc Hf].
    rewrite (find_name_some _ _ Ha) in Hf. simpl in Hf.
    apply negb_true_iff, negb_false_iff, String.eqb_eq in Hf.
    apply Hne. rewrite <- Hf. now apply in_map.
Qed.

Lemma custom_names_In chat ms n : In n (custom_names chat ms) <-> In n ms.
Proof.
  unfold custom_names. rewrite in_app_iff, filter_In.
  destruct (order_loop_names false (mesList_of chat) ms) as [_ Hin].
  fold (order_from_text false chat ms) in Hin. fold (getOrderFromText chat ms) in Hin.
  split.
  - intros [H|[H _]]; [apply Hin in H; tauto | exact H].
  - intros H. destruct (in_dec string_dec n (getOrderFromText chat ms)) as [Ho|Ho];
      [now left|]. right. split; [exact H|]. now rewrite (find_name_none _ _ Ho).
Qed.

Lemma custom_names_NoDup chat ms :
  NoDup ms -> ~ In "" ms -> NoDup (custom_names chat ms).
Proof.
  intros Hnd Hne. unfold custom_names.
  destruct (order_loop_names false (mesList_of chat) ms) as [Ho Hin].
  fold (order_from_text false chat ms) in Ho, Hin.
  fold (getOrderFromText chat ms) in Ho, Hin.
  apply NoDup_app; [exact Ho | now apply NoDup_filter |].
  intros a Ha Hb. apply filter_In in Hb. destruct Hb as [Hb Hf].
  rewrite (find_name_some _ _ Ha) in Hf. simpl in Hf.
  apply negb_true_iff, negb_false_iff, String.eqb_eq in Hf. subst a. contradiction.
Qed.

Lemma tracked_iff_desired s names st n :
  (-1 <= numLeft s)%Z -> (-1 <= numRight s)%Z -> imgs st = nameList st ->
  In n (nameList (fst (updateMembers s names st))) <-> In n names.
Proof.
  intros Hl Hr Hw.
  destruct (@updateMembers_post s names st Hl Hr Hw) as (Hn & _).
  rewrite Hn, in_app_iff, !filter_In, negb_involutive, includes_In, negb_true_iff,
    includes_not_In.
  destruct (in_dec string_dec n (nameList st)); tauto.
Qed.

End RefreshFromSettings.

(** X21.  With a custom member list (no duplicates, no empty name) a
    refresh in which the image lookup resolves for every member not yet
    tracked leaves the roster tracking exactly the custom members,
    whatever the group or character of the chat, with one wrapper for
    each, and keeps the roster well formed. *)
Theorem refresh_tracks_custom_members (resolves : string -> bool) (cs : ChatSettings)
  (s : Settings) (chat : list Message) (characters : list Character)
  (group : option (list string)) (character : option string) (st : Roster) :
  members cs <> [] -> NoDup (members cs) -> ~ In "" (members cs) ->
  (-1 <= numLeft s)%Z -> (-1 <= numRight s)%Z ->
  imgs st = nameList st -> roster_ok st ->
  (forall n, In n (members cs) -> ~ In n (nameList st) -> resolves n = true) ->
  let st1 := fst (refresh resolves cs s chat characters group character st) in
  (forall n, In n (nameList st1) <-> In n (members cs)) /\
  imgs st1 = nameList st1 /\ roster_ok st1.
Proof.
  intros Hm Hnd Hne Hl Hr Hw Hok Hres. cbv zeta. unfold refresh, desired_names.
  destruct (members cs) as [|m0 ms] eqn:E; [congruence|].
  rewrite (updateMembers_with_resolved resolves s (custom_names chat (m0 :: ms)) st).
  2:{ apply forallb_forall. intros x Hx. apply filter_In in Hx. destruct Hx as [Hx Hn].
      apply Hres; [now apply custom_names_In in Hx
                  | now apply includes_not_In, negb_true_iff]. }
  split; [|split].
  - intros n. rewrite (tracked_iff_desired s _ st n Hl Hr Hw). apply custom_names_In.
  - destruct (@updateMembers_post s (custom_names chat (m0 :: ms)) st Hl Hr Hw)
      as (_ & Hi & _). exact Hi.
  - apply updateMembers_ok; [now apply custom_names_NoDup | exact Hw | exact Hok].
Qed.

Lemma refresh_tracks_custom_members_witness :
  let st1 := fst (refresh (fun _ => true) (mkChatSettings ["Alice"; "Bob"; "Carol"] [])
                    one_each [said "Narrator" "Bob greets Alice."] [] None None
                    empty_roster) in
  (forall n, In n (nameList st1) <-> In n ["Alice"; "Bob"; "Carol"]) /\
  imgs st1 = nameList st1 /\ roster_ok st1.
Proof.
  refine (refresh_tracks_custom_members (fun _ => true)
            (mkChatSettings ["Alice"; "Bob"; "Carol"] [])
            one_each [said "Narrator" "Bob greets Alice."] [] None None empty_roster
            _ _ _ _ _ _ _ _).
  - discriminate.
  - repeat constructor; simpl; intuition discriminate.
  - simpl; intuition discriminate.
  - vm_compute; discriminate.
  - vm_compute; discriminate.
  - reflexivity.
  - vm_compute. split; [|split]; try constructor. intros a [].
  - reflexivity.
Defined.

(** X22.  In a group chat without custom members a refresh in which the
    image lookup resolves for every name not yet tracked leaves the
    roster tracking exactly the names of the group's characters that are
    not excluded by their lower-case form (the characters found for the
    group's avatars, their names distinct and non-empty), and keeps the
    roster well formed. *)
Theorem refresh_tracks_group (resolves : string -> bool) (cs : ChatSettings)
  (s : Settings) (chat : list Message) (characters : list Character)
  (avatars : list string) (character : option string) (st : Roster) :
  let g := group_characters characters avatars in
  members cs = [] -> NoDup (map ch_name g) -> ~ In "" (map ch_name g) ->
  (-1 <= numLeft s)%Z -> (-1 <= numRight s)%Z ->
  imgs st = nameList st -> roster_ok st ->
  (forall n, In n (map ch_name g) -> ~ In n (nameList st) -> resolves n = true) ->
  let st1 := fst (refresh resolves cs s chat characters (Some avatars) character st) in
  (forall n, In n (nameList st1) <-> In n (map ch_name g) /\ excluded cs n = false) /\
  roster_ok st1.
Proof.
  intros g Hm Hnd Hne Hl Hr Hw Hok Hres. cbv zeta. unfold refresh, desired_names.
  rewrite Hm. fold g.
  rewrite (updateMembers_with_resolved resolves s (group_names cs chat g) st).
  2:{ apply forallb_forall. intros x Hx. apply filter_In in Hx. destruct Hx as [Hx Hn].
      apply Hres; [apply group_names_In in Hx; tauto
                  | now apply includes_not_In, negb_true_iff]. }
  split.
  - intros n. rewrite (tracked_iff_desired s _ st n Hl Hr Hw). apply group_names_In.
  - apply updateMembers_ok; [now apply group_names_NoDup | exact Hw | exact Hok].
Qed.

Lemma refresh_tracks_group_witness :
  let cs := mkChatSettings [] ["bob"] in
  let characters :=
    [mkCharacter "a.png" "Alice"; mkCharacter "b.png" "Bob"; mkCharacter "c.png" "Carol"] in
  let g := group_characters characters ["c.png"; "b.png"; "z.png"] in
  let st1 := fst (refresh (fun _ => true) cs one_each [said "Carol" "Hello."] characters
                    (Some ["c.png"; "b.png"; "z.png"]) None empty_roster) in
  (forall n, In n (nameList st1) <-> In n (map ch_name g) /\ excluded cs n = false) /\
  roster_ok st1.
Proof.
  refine (refresh_tracks_group (fun _ => true) (mkChatSettings [] ["bob"]) one_each
            [said "Carol" "Hello."]
            [mkCharacter "a.png" "Alice"; mkCharacter "b.png" "Bob";
             mkCharacter "c.png" "Carol"]
            ["c.png"; "b.png"; "z.png"] None empty_roster
            _ _ _ _ _ _ _ _).
  - reflexivity.
  - vm_compute. repeat constructor; simpl; intuition discriminate.
  - vm_compute. intuition discriminate.
  - vm_compute; discriminate.
  - vm_compute; discriminate.
  - reflexivity.
  - vm_compute. split; [|split]; try constructor. intros a [].
  - reflexivity.
Defined.

(** ** Further properties of the debouncer *)

Section DebounceMore.

Variables Args Result World : Type.
Variable func : Args -> World -> World * Result.
Variable timeout : nat.

Lemma invoke_all_app : forall calls calls' (st : State Args Result World),
  invoke_all func timeout (calls ++ calls') st =
  (fst (invoke_all func timeout calls' (fst (invoke_all func timeout calls st))),
   snd (invoke_all func timeout calls st)
   ++ snd (invoke_all func timeout calls' (fst (invoke_all func timeout calls st)))).
Proof.
  induction calls as [|[now args] rest IH]; intros calls' st.
  - simpl. now destruct (invoke_all func timeout calls' st).
  - cbn [app invoke_all]. destruct (invoke func timeout now args st) as [st1 p].
    rewrite IH. destruct (invoke_all func timeout rest st1) as [st2 ps].
    cbn [fst snd].
    destruct (invoke_all func timeout calls' st2) as [st3 ps']. reflexivity.
Qed.

Lemma advance_twice now (st : State Args Result World) :
  advance func now (advance func now st) = advance func now st.
Proof.
  unfold advance. destruct (timer st) as [[due args]|] eqn:Et.
  - destruct (due <=? now) eqn:Ed.
    + unfold fire. destruct (func args (world st)); reflexivity.
    + now rewrite Et, Ed.
  - now rewrite Et.
Qed.

(** A call first lets a timer that is due run. *)
Lemma invoke_all_advance now args rest (st : State Args Result World) :
  invoke_all func timeout ((now, args) :: rest) (advance func now st) =
  invoke_all func timeout ((now, args) :: rest) st.
Proof.
  cbn [invoke_all]. unfold invoke. now rewrite advance_twice.
Qed.

(** The state a burst of calls leaves an idle debouncer in. *)
Lemma burst_state t1 a1 rest (st : State Args Result World) :
  idle st -> within_window timeout t1 rest ->
  invoke_all func timeout ((t1, a1) :: rest) st =
  (mkState (Some (last (map fst rest) t1 + timeout, last (map snd rest) a1))
           (Some (created st)) (Some (created st)) (S (created st))
           (settled st) (executed st) (world st),
   repeat (created st) (S (length rest))).
Proof.
  intros [Ht Hp] Hw.
  set (st1 := mkState (Some (t1 + timeout, a1)) (Some (created st)) (Some (created st))
                      (S (created st)) (settled st) (executed st) (world st)).
  assert (Hinv : invoke func timeout t1 a1 st = (st1, created st)).
  { unfold invoke, advance. now rewrite Ht, Hp. }
  cbn [invoke_all]. rewrite Hinv.
  pose proof (@invoke_all_pending Args Result World func timeout rest t1 a1
                (created st) st1 eq_refl eq_refl Hw) as H.
  destruct (invoke_all func timeout rest st1) as [st2 ps]. simpl in H.
  destruct H as (H1 & H2 & H3 & H4 & H5 & H6 & H7 & H8).
  destruct st2 as [tm dp dr cr se ex wo]. simpl in *. subst. reflexivity.
Qed.

(** Two bursts, the second beginning once the timer of the first is
    due. *)
Lemma two_bursts t1 a1 rest1 t2 a2 rest2 (st : State Args Result World) :
  idle st ->
  within_window timeout t1 rest1 ->
  last (map fst rest1) t1 + timeout <= t2 ->
  within_window timeout t2 rest2 ->
  let args1 := last (map snd rest1) a1 in
  let args2 := last (map snd rest2) a2 in
  let w1 := fst (func args1 (world st)) in
  let r1 := snd (func args1 (world st)) in
  invoke_all func timeout (((t1, a1) :: rest1) ++ (t2, a2) :: rest2) st =
  (mkState (Some (last (map fst rest2) t2 + timeout, args2))
           (Some (S (created st))) (Some (S (created st))) (S (S (created st)))
           (settled st ++ [(created st, r1)]) (executed st ++ [args1]) w1,
   repeat (created st) (S (length rest1)) ++ repeat (S (created st)) (S (length rest2))).
Proof.
  intros Hidle Hw1 Hdue Hw2. cbv zeta.
  rewrite invoke_all_app, (burst_state t1 a1 rest1 st Hidle Hw1). cbn [fst snd].
  set (s1 := mkState (Some (last (map fst rest1) t1 + timeout, last (map snd rest1) a1))
                     (Some (created st)) (Some (created st)) (S (created st))
                     (settled st) (executed st) (world st)).
  rewrite <- (invoke_all_advance t2 a2 rest2 s1).
  assert (Hadv : advance func t2 s1 =
    mkState None None (Some (created st)) (S (created st))
            (settled st ++ [(created st, snd (func (last (map snd rest1) a1) (world st)))])
            (executed st ++ [last (map snd rest1) a1])
            (fst (func (last (map snd rest1) a1) (world st)))).
  { unfold advance, s1. cbn [timer].
    destruct (Nat.leb_spec (last (map fst rest1) t1 + timeout) t2) as [_|Hlt]; [|lia].
    unfold fire. cbn [world debounceResolver created settled executed].
    now destruct (func (last (map snd rest1) a1) (world st)). }
  rewrite Hadv.
  rewrite burst_state; [reflexivity | split; reflexivity | exact Hw2].
Qed.

End DebounceMore.

(** X23.  Two bursts of calls to a debounced function, the second
    beginning once the timer of the first is due: the callers of each
    burst share one promise, the two promises differ, and the function
    runs once for each burst, on the arguments of the last call of the
    burst, the second run after the first. *)
Theorem debounce_separate_bursts (Args Result World : Type)
  (func : Args -> World -> World * Result) (timeout : nat)
  (t1 : nat) (a1 : Args) (rest1 : list (nat * Args))
  (t2 : nat) (a2 : Args) (rest2 : list (nat * Args))
  (st : State Args Result World) :
  idle st ->
  within_window timeout t1 rest1 ->
  last (map fst rest1) t1 + timeout <= t2 ->
  within_window timeout t2 rest2 ->
  let calls := ((t1, a1) :: rest1) ++ (t2, a2) :: rest2 in
  let st' := fst (invoke_all func timeout calls st) in
  let args1 := last (map snd rest1) a1 in
  let args2 := last (map snd rest2) a2 in
  let w1 := fst (func args1 (world st)) in
  snd (invoke_all func timeout calls st) =
    repeat (created st) (S (length rest1)) ++ repeat (S (created st)) (S (length rest2)) /\
  executed st' = executed st ++ [args1] /\
  forall now, last (map fst rest2) t2 + timeout <= now ->
    executed (advance func now st') = executed st ++ [args1; args2] /\
    settled (advance func now st') =
      settled st ++ [(created st, snd (func args1 (world st)));
                     (S (created st), snd (func args2 w1))] /\
    world (advance func now st') = fst (func args2 w1) /\
    idle (advance func now st').
Proof.
  intros Hidle Hw1 Hdue Hw2. cbv zeta.
  rewrite (two_bursts Args Result World func timeout t1 a1 rest1 t2 a2 rest2 st
             Hidle Hw1 Hdue Hw2).
  cbn [fst snd executed]. split; [reflexivity|]. split; [reflexivity|].
  intros now Hnow. unfold advance. cbn [timer].
  destruct (Nat.leb_spec (last (map fst rest2) t2 + timeout) now) as [_|Hlt]; [|lia].
  unfold fire. cbn [world debounceResolver created settled executed].
  destruct (func (last (map snd rest2) a2)
                 (fst (func (last (map snd rest1) a1) (world st)))) as [w2 r2].
  cbn [fst snd executed settled world]. rewrite <- !app_assoc.
  repeat split; reflexivity.
Qed.

Lemma debounce_separate_bursts_witness :
  let st0 := mkState (Args := unit) None None None 0 [] [] (mkEngine false 0) in
  snd (invoke_all restart_body restart_timeout
         (map trigger [0; 100] ++ map trigger [500; 600; 700]) st0)
  = [0; 0; 1; 1; 1].
Proof.
  refine (proj1 (debounce_separate_bursts unit bool Engine restart_body restart_timeout
            0 tt [trigger 100] 500 tt [trigger 600; trigger 700]
            (mkState (Args := unit) None None None 0 [] [] (mkEngine false 0))
            _ _ _ _)).
  - split; reflexivity.
  - unfold restart_timeout; simpl; lia.
  - unfold restart_timeout; simpl; lia.
  - unfold restart_timeout; simpl; lia.
Defined.

(** ** Properties of the name fields *)

Section SettingsFieldFacts.

Lemma list_ascii_of_string_app a b :
  list_ascii_of_string (a ++ b) = list_ascii_of_string a ++ list_ascii_of_string b.
Proof. induction a as [|c a IH]; simpl; [reflexivity | now rewrite IH]. Qed.

Lemma isSpace_comma : isSpace comma = false.
Proof. reflexivity. Qed.

Lemma separator_at_space c l :
  isSpace c = true -> separator_at l = None -> separator_at (c :: l) = None.
Proof.
  unfold separator_at. intros Hc. cbn [spaces]. rewrite Hc. cbn [skipn].
  destruct (skipn (spaces l) l) as [|c' r]; [reflexivity|].
  destruct (Ascii.eqb c' comma); [discriminate | reflexivity].
Qed.

Lemma separator_at_plain c l :
  isSpace c = false -> c <> comma -> separator_at (c :: l) = None.
Proof.
  unfold separator_at. intros Hc Hne. cbn [spaces]. rewrite Hc. cbn [skipn].
  apply Ascii.eqb_neq in Hne. now rewrite Hne.
Qed.

(** No separator begins inside a name without a comma that does not end
    in white space. *)
Lemma separator_at_name : forall e l,
  e <> [] -> ~ In comma e -> isSpace (last e comma) = false ->
  separator_at (e ++ l) = None.
Proof.
  induction e as [|c e IH]; intros l Hne Hc Hl; [congruence|].
  assert (Hcc : c <> comma) by (intros ->; apply Hc; now left).
  destruct (isSpace c) eqn:Ec.
  - destruct e as [|c' e'].
    + simpl in Hl. congruence.
    + simpl app. apply separator_at_space; [exact Ec|].
      apply (IH l); [discriminate | intros H; apply Hc; now right | exact Hl].
  - simpl app. now apply separator_at_plain.
Qed.

Lemma split_loop_name : forall e l piece,
  ~ In comma e -> (e <> [] -> isSpace (last e comma) = false) ->
  split_loop (e ++ l) 0 piece = split_loop l 0 (piece ++ e).
Proof.
  induction e as [|c e IH]; intros l piece Hc Hl.
  - simpl. now rewrite app_nil_r.
  - assert (Hsep : separator_at ((c :: e) ++ l) = None).
    { apply separator_at_name; [discriminate | exact Hc | apply Hl; discriminate]. }
    simpl app in *. cbn [split_loop]. rewrite Hsep.
    rewrite IH.
    + now rewrite <- app_assoc.
    + intros H; apply Hc; now right.
    + intros He. destruct e as [|c' e']; [congruence|]. apply Hl. discriminate.
Qed.

Lemma split_loop_separator l piece :
  spaces l = 0 ->
  split_loop (comma :: " "%char :: l) 0 piece = piece :: split_loop l 0 [].
Proof.
  intros Hs. cbn [split_loop].
  assert (E : separator_at (comma :: " "%char :: l) = Some 2).
  { unfold separator_at. cbn [spaces]. rewrite isSpace_comma. cbn [skipn].
    rewrite Ascii.eqb_refl. cbn [spaces].
    change (isSpace " "%char) with true. cbv iota. now rewrite Hs. }
  rewrite E. reflexivity.
Qed.

Lemma spaces_name e l : e <> [] -> isSpace (hd comma e) = false -> spaces (e ++ l) = 0.
Proof.
  destruct e as [|c e]; [congruence|]. simpl. intros _ H. now rewrite H.
Qed.

Lemma concat_cons sep (n m : string) l :
  String.concat sep (n :: m :: l) = (n ++ sep ++ String.concat sep (m :: l))%string.
Proof. reflexivity. Qed.

(** Splitting the joined names gives the names back. *)
Lemma split_joined : forall l n piece,
  Forall tidy_name (n :: l) ->
  split_loop (list_ascii_of_string (String.concat ", " (n :: l))) 0 piece =
  (piece ++ list_ascii_of_string n) :: map list_ascii_of_string l.
Proof.
  induction l as [|m l IH]; intros n piece Ht.
  - inversion Ht as [|? ? (Hne & Hc & Hh & Hl) _]; subst. simpl String.concat.
    rewrite <- (app_nil_r (list_ascii_of_string n)) at 1.
    rewrite split_loop_name; [reflexivity | exact Hc | intros _; exact Hl].
  - inversion Ht as [|? ? (Hne & Hc & Hh & Hl) Ht']; subst.
    rewrite concat_cons.
    assert (Hs : spaces (list_ascii_of_string (String.concat ", " (m :: l))) = 0).
    { inversion Ht' as [|? ? (Hne' & Hc' & Hh' & Hl') _]; subst.
      destruct l as [|m' l'].
      - simpl String.concat. rewrite <- (app_nil_r (list_ascii_of_string m)).
        now apply spaces_name.
      - rewrite concat_cons, list_ascii_of_string_app. now apply spaces_name. }
    pose proof (IH m [] Ht') as IHm.
    set (tail := String.concat ", " (m :: l)) in *.
    rewrite !list_ascii_of_string_app.
    rewrite split_loop_name; [| exact Hc | intros _; exact Hl].
    change (list_ascii_of_string ", ") with [comma; " "%char]. cbn [app].
    rewrite (split_loop_separator _ _ Hs), IHm. reflexivity.
Qed.

Lemma parse_joined l : Forall tidy_name l -> parse_names (String.concat ", " l) = l.
Proof.
  intros Ht. unfold parse_names, split. destruct l as [|n l]; [reflexivity|].
  rewrite (split_joined l n [] Ht). simpl app.
  change (list_ascii_of_string n :: map list_ascii_of_string l)
    with (map list_ascii_of_string (n :: l)).
  assert (E : filter (fun it => negb (length it =? 0)) (map list_ascii_of_string (n :: l))
              = map list_ascii_of_string (n :: l)).
  { apply forallb_filter_id. apply forallb_forall. intros x Hx.
    apply in_map_iff in Hx. destruct Hx as (y & <- & Hy).
    rewrite Forall_forall in Ht. destruct (Ht y Hy) as (Hne & _).
    destruct (list_ascii_of_string y); [congruence | reflexivity]. }
  rewrite E, map_map. rewrite <- (map_id (n :: l)) at 2.
  apply map_ext. intros a. apply string_of_list_ascii_of_string.
Qed.

Lemma string_of_list_ascii_app l l' :
  string_of_list_ascii (l ++ l') = (string_of_list_ascii l ++ string_of_list_ascii l')%string.
Proof. induction l as [|c l IH]; simpl; [reflexivity | now rewrite IH]. Qed.

Lemma strip_newlines_app a b :
  strip_newlines (a ++ b) = (strip_newlines a ++ strip_newlines b)%string.
Proof.
  unfold strip_newlines.
  now rewrite list_ascii_of_string_app, filter_app, string_of_list_ascii_app.
Qed.

(** Stripping the joined names is joining the stripped names. *)
Lemma strip_newlines_concat : forall l,
  strip_newlines (String.concat ", " l) = String.concat ", " (map strip_newlines l).
Proof.
  induction l as [|n l IH]; [reflexivity|].
  destruct l as [|m l]; [reflexivity|].
  change (map strip_newlines (n :: m :: l))
    with (strip_newlines n :: strip_newlines m :: map strip_newlines l).
  rewrite !concat_cons, !strip_newlines_app.
  change (map strip_newlines (m :: l))
    with (strip_newlines m :: map strip_newlines l) in IH.
  rewrite IH. reflexivity.
Qed.

Lemma parse_field_value l :
  Forall tidy_name (map strip_newlines l) ->
  parse_names (field_value l) = map strip_newlines l.
Proof.
  intros Ht. unfold field_value. rewrite strip_newlines_concat. now apply parse_joined.
Qed.

(** A piece never takes a comma in. *)
Lemma split_loop_no_comma : forall l skip piece,
  ~ In comma piece ->
  Forall (fun it => ~ In comma it) (split_loop l skip piece).
Proof.
  induction l as [|c r IH]; intros skip piece Hp.
  - simpl. constructor; [exact Hp | constructor].
  - cbn [split_loop]. destruct skip as [|k]; [|now apply IH].
    destruct (separator_at (c :: r)) as [n|] eqn:E.
    + constructor; [exact Hp|]. apply IH. intros [].
    + apply IH. intros H. apply in_app_or in H. destruct H as [H|[->|[]]]; [tauto|].
      unfold separator_at in E. cbn [spaces] in E. rewrite isSpace_comma in E.
      cbn [skipn] in E. rewrite Ascii.eqb_refl in E. discriminate.
Qed.

End SettingsFieldFacts.

(** X24.  The value [chatChanged] shows in a name field parses back to
    the names it was made from, with their line feeds and carriage
    returns removed, which a text input strips from its value: the list
    itself when no name holds one.  This holds when every name, so
    stripped, is not empty, holds no comma and has no white space at
    either end. *)
Theorem parse_names_round_trip (l : list string) :
  Forall tidy_name (map strip_newlines l) ->
  parse_names (field_value l) = map strip_newlines l /\
  (map strip_newlines l = l -> parse_names (field_value l) = l).
Proof.
  intros Ht. rewrite (parse_field_value l Ht). split; [reflexivity | auto].
Qed.

Lemma parse_names_round_trip_witness :
  parse_names (field_value ["Alice"; String "B" (String (ascii_of_nat 10) "ob"); "Carol"])
  = ["Alice"; "Bob"; "Carol"].
Proof.
  refine (proj1 (parse_names_round_trip
            ["Alice"; String "B" (String (ascii_of_nat 10) "ob"); "Carol"] _)).
  repeat constructor; try discriminate; vm_compute; intuition discriminate.
Defined.

(** X25.  Whatever is typed in a name field, no parsed name is empty and
    none holds a comma. *)
Theorem parse_names_no_empty_no_comma (value : string) (n : string) :
  In n (parse_names value) -> n <> "" /\ ~ In comma (list_ascii_of_string n).
Proof.
  unfold parse_names. intros Hin. apply in_map_iff in Hin.
  destruct Hin as (it & <- & Hit). apply filter_In in Hit. destruct Hit as [Hit Hlen].
  split.
  - destruct it; [discriminate Hlen | discriminate].
  - rewrite list_ascii_of_string_of_list_ascii.
    pose proof (split_loop_no_comma (list_ascii_of_string value) 0 [] (fun H => H)) as Hf.
    rewrite Forall_forall in Hf. now apply Hf.
Qed.

Lemma parse_names_no_empty_no_comma_witness :
  "Bob" <> "" /\ ~ In comma (list_ascii_of_string "Bob").
Proof.
  refine (parse_names_no_empty_no_comma " Alice ,,  Bob,Carol , " "Bob" _).
  vm_compute. tauto.
Defined.

Section ExcludeFieldFacts.

Lemma lower_app a b : lower (a ++ b) = (lower a ++ lower b)%string.
Proof.
  unfold lower, toLowerCase.
  now rewrite list_ascii_of_string_app, map_app, string_of_list_ascii_app.
Qed.

Lemma lower_concat : forall l,
  lower (String.concat ", " l) = String.concat ", " (map lower l).
Proof.
  induction l as [|n l IH]; [reflexivity|].
  destruct l as [|m l]; [reflexivity|].
  change (map lower (n :: m :: l)) with (lower n :: lower m :: map lower l).
  rewrite !concat_cons, !lower_app.
  change (map lower (m :: l)) with (lower m :: map lower l) in IH.
  rewrite IH. reflexivity.
Qed.

Lemma toLowerCase_char_comma c : toLowerCase_char c = comma -> c = comma.
Proof.
  destruct c as [[] [] [] [] [] [] [] []]; vm_compute; intros H;
    first [reflexivity | discriminate H].
Qed.

Lemma toLowerCase_char_space c : isSpace (toLowerCase_char c) = isSpace c.
Proof. destruct c as [[] [] [] [] [] [] [] []]; reflexivity. Qed.

Lemma last_map (A B : Type) (f : A -> B) d : forall l,
  last (map f l) (f d) = f (last l d).
Proof.
  induction l as [|x l IH]; [reflexivity|].
  destruct l as [|y l]; [reflexivity|]. exact IH.
Qed.

Lemma tidy_lower n : tidy_name n -> tidy_name (lower n).
Proof.
  unfold tidy_name, tidy, lower, toLowerCase.
  rewrite list_ascii_of_string_of_list_ascii.
  intros (Hne & Hc & Hh & Hl). repeat split.
  - destruct (list_ascii_of_string n); [congruence | discriminate].
  - intros H. apply in_map_iff in H. destruct H as (c & E & Hin).
    apply toLowerCase_char_comma in E. subst c. contradiction.
  - destruct (list_ascii_of_string n) as [|c r]; [congruence|]. simpl in *.
    now rewrite toLowerCase_char_space.
  - change comma with (toLowerCase_char comma) at 1.
    now rewrite last_map, toLowerCase_char_space.
Qed.

Lemma parse_exclude_field_value l :
  Forall tidy_name (map strip_newlines l) ->
  parse_exclude (field_value l) = map lower (map strip_newlines l).
Proof.
  intros Ht. unfold parse_exclude, field_value.
  rewrite strip_newlines_concat, lower_concat. apply parse_joined.
  rewrite Forall_forall in *. intros x Hx. apply in_map_iff in Hx.
  destruct Hx as (y & <- & Hy). apply tidy_lower. now apply Ht.
Qed.

End ExcludeFieldFacts.

(** X26.  Exclusion ignores case: with the exclude field showing a list
    of names (none of them, once its line feeds and carriage returns are
    stripped, empty, with a comma or with white space at an end), a name
    is excluded exactly when its lower-case form is that of one of them. *)
Theorem exclude_field_ignores_case (entries ms : list string) (n : string) :
  Forall tidy_name (map strip_newlines entries) ->
  excluded (mkChatSettings ms (parse_exclude (field_value entries))) n = true <->
  exists e, In e entries /\ lower (strip_newlines e) = lower n.
Proof.
  intros Ht. unfold excluded. cbn [exclude].
  rewrite (parse_exclude_field_value entries Ht), existsb_exists. split.
  - intros (x & Hx & E). apply in_map_iff in Hx. destruct Hx as (y & <- & Hy).
    apply in_map_iff in Hy. destruct Hy as (e & <- & He).
    apply String.eqb_eq in E. exists e. split; [exact He | now symmetry].
  - intros (e & He & E). exists (lower (strip_newlines e)).
    split; [apply in_map, in_map, He|].
    apply String.eqb_eq. now symmetry.
Qed.

Lemma exclude_field_ignores_case_witness :
  excluded (mkChatSettings []
              (parse_exclude (field_value ["Narrator"; String (ascii_of_nat 233) "lodie"])))
           (String (ascii_of_nat 201) "lodie")
  = true.
Proof.
  refine (proj2 (exclude_field_ignores_case
                   ["Narrator"; String (ascii_of_nat 233) "lodie"] []
                   (String (ascii_of_nat 201) "lodie") _) _).
  - repeat constructor; try discriminate; vm_compute; intuition discriminate.
  - exists (String (ascii_of_nat 233) "lodie"). split; [simpl; tauto | reflexivity].
Defined.

(** ** Properties of the render pass *)

Section RenderPassFacts.

Lemma add_last_same primary : forall ws,
  Forall2 same_but_last ws (add_last primary ws).
Proof.
  induction ws as [|w r IH]; simpl; [constructor|].
  destruct (String.eqb (w_name w) primary && attached w).
  - constructor; [repeat split | clear IH; induction r; constructor; [repeat split | assumption]].
  - constructor; [repeat split | exact IH].
Qed.

Lemma mark_last_same chat nameList sl ws :
  Forall2 same_but_last ws (mark_last chat nameList sl ws).
Proof.
  assert (Hrefl : forall l, Forall2 same_but_last l l)
    by (induction l; constructor; [repeat split | assumption]).
  unfold mark_last. destruct (lastMes chat) as [m|]; [|apply Hrefl].
  destruct (negb (is_user m)); [|apply Hrefl].
  destruct sl as [|primary sl']; [apply Hrefl|].
  destruct (lastCharMes chat nameList) as [c|]; [|apply Hrefl].
  destruct (truthy (Some primary) && String.eqb primary (msg_name c));
    [apply add_last_same | apply Hrefl].
Qed.

Lemma Forall2_same_In ws ws' w' :
  Forall2 same_but_last ws ws' -> In w' ws' ->
  exists w, In w ws /\ same_but_last w w'.
Proof.
  induction 1 as [|x y l l' Hxy Hl IH]; simpl; [tauto|].
  intros [<-|Hin].
  - exists x. split; [now left | exact Hxy].
  - destruct (IH Hin) as (w & Hw & Hs). exists w. split; [now right | exact Hs].
Qed.

Lemma Forall2_same_names ws ws' :
  Forall2 same_but_last ws ws' -> map w_name ws' = map w_name ws.
Proof.
  induction 1 as [|x y l l' (H1 & _) Hl IH]; simpl; [reflexivity|]. now rewrite H1, IH.
Qed.

Lemma Forall2_same_attached ws ws' :
  Forall2 same_but_last ws ws' ->
  map w_name (filter attached ws') = map w_name (filter attached ws).
Proof.
  induction 1 as [|x y l l' (H1 & H2 & _) Hl IH]; simpl; [reflexivity|].
  unfold attached at 1 3. rewrite H2. fold (attached x).
  destruct (attached x); simpl; [now rewrite H1, IH | exact IH].
Qed.

(** What the show-or-hide step makes of one wrapper when the side areas
    exist. *)
Lemma show_or_hide_spec sl w :
  let w' := show_or_hide true sl w in
  w_name w' = w_name w /\ w_last w' = w_last w /\
  (attached w' = true <-> In (w_name w) sl) /\
  (attached w' = true ->
     w_hidden w' = false /\
     exists i, w_order w' = Some i /\ nth_error sl i = Some (w_name w)) /\
  (attached w' = false -> w_order w' = None) /\
  (attached w = true -> attached w' = true -> w_parent w' = w_parent w).
Proof.
  cbv zeta. unfold show_or_hide.
  destruct (indexOf_name (w_name w) sl) as [i|] eqn:E.
  - pose proof (indexOf_name_some _ _ E) as Hin.
    pose proof (@indexOf_name_nth (w_name w) sl i E) as Hnth.
    destruct (attached w) eqn:Ea; unfold attached in *; simpl.
    + rewrite Ea. repeat split; auto; try discriminate. now exists i.
    + repeat split; auto; try discriminate. now exists i.
  - pose proof (indexOf_name_none _ _ E) as Hnin.
    destruct (attached w) eqn:Ea; unfold attached in *; simpl;
      repeat split; auto; try discriminate; tauto.
Qed.

Lemma add_last_marks primary : forall ws,
  Forall (fun w => w_last w = false) ws ->
  length (filter w_last (add_last primary ws)) <= 1 /\
  forall w, In w (add_last primary ws) -> w_last w = true ->
            w_name w = primary /\ attached w = true.
Proof.
  induction ws as [|w r IH]; intros Hf; simpl; [split; [lia | tauto]|].
  inversion Hf as [|? ? Hw Hr]; subst.
  assert (Hnone : filter w_last r = []).
  { clear IH Hf. induction r as [|x r IHr]; [reflexivity|].
    inversion Hr; subst. simpl. rewrite H1. now apply IHr. }
  destruct (String.eqb (w_name w) primary && attached w) eqn:E.
  - apply andb_true_iff in E. destruct E as [E1 E2]. apply String.eqb_eq in E1.
    simpl. rewrite Hnone. split; [simpl; lia|].
    intros w' [<-|Hin] Hl; [simpl; auto|].
    rewrite Forall_forall in Hr. rewrite (Hr w' Hin) in Hl. discriminate.
  - destruct (IH Hr) as [H1 H2]. simpl. rewrite Hw. split; [exact H1|].
    intros w' [<-|Hin] Hl; [congruence | now apply H2].
Qed.

Lemma find_skips (A : Type) (p : A -> bool) : forall l l',
  Forall (fun x => p x = false) l -> find p (l ++ l') = find p l'.
Proof.
  induction l as [|x l IH]; intros l' Hf; [reflexivity|].
  inversion Hf; subst. simpl. rewrite H1. now apply IH.
Qed.

Lemma Forall2_map_same (g : Wrapper -> Wrapper) (P : Wrapper -> Wrapper -> Prop) :
  (forall w w', same_but_last (g w) w' -> P w w') ->
  forall ws ws', Forall2 same_but_last (map g ws) ws' -> Forall2 P ws ws'.
Proof.
  intros Hg. induction ws as [|w ws IH]; intros ws' H; simpl in H.
  - inversion H; subst. constructor.
  - inversion H as [|? y ? l' Hxy Hl]; subst. constructor; [now apply Hg | now apply IH].
Qed.

End RenderPassFacts.

(** X27.  After a render pass (side areas present, one wrapper per
    name) the wrappers in the document are exactly those whose name is
    one of the visible slots, so there are never more than four; each of
    them is not hidden and carries the index of its slot as its order,
    and a wrapper that was in the document before keeps its area. *)
Theorem render_pass_shows_slots (cs : ChatSettings) (chat : list Message)
  (nameList : list string) (ws : list Wrapper) :
  NoDup (map w_name ws) ->
  let sl := slots cs chat nameList in
  let ws' := render_pass cs true chat nameList ws in
  map w_name ws' = map w_name ws /\
  (forall w, In w ws' -> (attached w = true <-> In (w_name w) sl)) /\
  (forall w, In w ws' -> attached w = true ->
     w_hidden w = false /\
     exists i, w_order w = Some i /\ nth_error sl i = Some (w_name w)) /\
  length (filter attached ws') <= 4 /\
  Forall2 (fun w w' => attached w = true -> attached w' = true ->
                       w_parent w' = w_parent w) ws ws'.
Proof.
  intros Hnd. cbv zeta. unfold render_pass.
  set (sl := slots cs chat nameList).
  set (shown := map (show_or_hide true sl) (map clear_last ws)).
  pose proof (mark_last_same chat nameList sl shown) as Hsame.
  assert (Hkept : Forall2 (fun w w' => attached w = true -> attached w' = true ->
                             w_parent w' = w_parent w)
                          ws (mark_last chat nameList sl shown)).
  { apply (Forall2_map_same (fun w => show_or_hide true sl (clear_last w))).
    - intros w w' (_ & E2 & _) Ha Ha'.
      destruct (show_or_hide_spec sl (clear_last w)) as (_ & _ & _ & _ & _ & H6).
      rewrite E2. unfold attached in Ha'. rewrite E2 in Ha'.
      apply (H6 Ha Ha').
    - replace (map (fun w => show_or_hide true sl (clear_last w)) ws) with shown
        by (unfold shown; now rewrite map_map).
      exact Hsame. }
  assert (Hnames : map w_name shown = map w_name ws).
  { unfold shown. rewrite !map_map. apply map_ext. intros w.
    destruct (show_or_hide_spec sl (clear_last w)) as (H & _). exact H. }
  assert (Hshown : forall w0, In w0 shown ->
            (attached w0 = true <-> In (w_name w0) sl) /\
            (attached w0 = true -> w_hidden w0 = false /\
               exists i, w_order w0 = Some i /\ nth_error sl i = Some (w_name w0))).
  { intros w0 Hw0. unfold shown in Hw0. apply in_map_iff in Hw0.
    destruct Hw0 as (w1 & <- & _).
    destruct (show_or_hide_spec sl w1) as (H1 & _ & H3 & H4 & _).
    rewrite H1. split; assumption. }
  split; [|split; [|split; [|split; [|exact Hkept]]]].
  - rewrite (Forall2_same_names _ _ Hsame). exact Hnames.
  - intros w Hw. destruct (Forall2_same_In _ _ w Hsame Hw) as (w0 & Hw0 & E1 & E2 & _).
    destruct (Hshown w0 Hw0) as [H _]. unfold attached in *. now rewrite E1, E2.
  - intros w Hw Ha.
    destruct (Forall2_same_In _ _ w Hsame Hw) as (w0 & Hw0 & E1 & E2 & E3 & _ & E5).
    destruct (Hshown w0 Hw0) as [_ H]. unfold attached in *.
    rewrite E1, E3, E5. apply H. now rewrite <- E2.
  - assert (Hlen : length (filter attached (mark_last chat nameList sl shown))
                   <= length sl).
    { rewrite <- (length_map w_name), (Forall2_same_attached _ _ Hsame).
      apply NoDup_incl_length.
      - apply NoDup_map_filter. now rewrite Hnames.
      - intros n Hn. apply in_map_iff in Hn. destruct Hn as (w0 & <- & Hw0).
        apply filter_In in Hw0. destruct Hw0 as [Hw0 Ha].
        now apply (Hshown w0 Hw0). }
    assert (H4 : length sl <= 4).
    { unfold sl, slots. rewrite length_firstn. lia. }
    lia.
Qed.

Lemma render_pass_shows_slots_witness :
  let ws := [mkWrapper "Alice" None None false false false;
             mkWrapper "Bob" (Some RightArea) (Some 0) false false true;
             mkWrapper "Carol" None None false true false] in
  length (filter attached
            (render_pass no_settings true [said "Narrator" "Carol greets Alice."]
               ["Alice"; "Bob"; "Carol"] ws)) <= 4.
Proof.
  refine (proj1 (proj2 (proj2 (proj2 (render_pass_shows_slots no_settings
            [said "Narrator" "Carol greets Alice."] ["Alice"; "Bob"; "Carol"]
            [mkWrapper "Alice" None None false false false;
             mkWrapper "Bob" (Some RightArea) (Some 0) false false true;
             mkWrapper "Carol" None None false true false] _))))).
  repeat constructor; simpl; intuition discriminate.
Defined.

(** X28.  After a render pass at most one wrapper carries the mark of
    the last speaker; it is in the document, its name is the first slot
    and the name of the last character message, and the last message
    that is not a system message is not from the user. *)
Theorem render_pass_last_mark (cs : ChatSettings) (areas : bool)
  (chat : list Message) (nameList : list string) (ws : list Wrapper) :
  let sl := slots cs chat nameList in
  let ws' := render_pass cs areas chat nameList ws in
  length (filter w_last ws') <= 1 /\
  forall w, In w ws' -> w_last w = true ->
    attached w = true /\ hd_error sl = Some (w_name w) /\
    (exists m, lastMes chat = Some m /\ is_user m = false) /\
    (exists c, lastCharMes chat nameList = Some c /\ msg_name c = w_name w).
Proof.
  cbv zeta. unfold render_pass.
  set (sl := slots cs chat nameList).
  set (shown := map (show_or_hide areas sl) (map clear_last ws)).
  assert (Hclear : Forall (fun w => w_last w = false) shown).
  { apply Forall_forall. intros w Hw. unfold shown in Hw.
    apply in_map_iff in Hw. destruct Hw as (w1 & <- & Hw1).
    apply in_map_iff in Hw1. destruct Hw1 as (w2 & <- & _).
    unfold show_or_hide.
    destruct (indexOf_name (w_name (clear_last w2)) sl);
      destruct (attached (clear_last w2)); reflexivity. }
  assert (Hnone : forall l, Forall (fun w => w_last w = false) l ->
            length (filter w_last l) <= 1 /\
            forall w, In w l -> w_last w = true -> False).
  { intros l Hl. split.
    - induction Hl as [|x l Hx Hl IH]; simpl; [lia|]. now rewrite Hx.
    - intros w Hw E. rewrite Forall_forall in Hl. rewrite (Hl w Hw) in E. discriminate. }
  unfold mark_last.
  destruct (lastMes chat) as [m|] eqn:Em.
  2:{ destruct (Hnone shown Hclear) as [H1 H2]. split; [exact H1|].
      intros w Hw E. destruct (H2 w Hw E). }
  destruct (is_user m) eqn:Eu; cbn [negb].
  { destruct (Hnone shown Hclear) as [H1 H2]. split; [exact H1|].
    intros w Hw E. destruct (H2 w Hw E). }
  destruct sl as [|primary sl'] eqn:Es.
  { destruct (Hnone shown Hclear) as [H1 H2]. split; [exact H1|].
    intros w Hw E. destruct (H2 w Hw E). }
  destruct (lastCharMes chat nameList) as [c|] eqn:Ec.
  2:{ destruct (Hnone shown Hclear) as [H1 H2]. split; [exact H1|].
      intros w Hw E. destruct (H2 w Hw E). }
  destruct (truthy (Some primary) && String.eqb primary (msg_name c)) eqn:Ep.
  2:{ destruct (Hnone shown Hclear) as [H1 H2]. split; [exact H1|].
      intros w Hw E. destruct (H2 w Hw E). }
  apply andb_true_iff in Ep. destruct Ep as [_ Ep]. apply String.eqb_eq in Ep.
  destruct (add_last_marks primary shown Hclear) as [H1 H2].
  split; [exact H1|]. intros w Hw E. destruct (H2 w Hw E) as [Hn Ha].
  split; [exact Ha|]. split; [simpl; now rewrite Hn|].
  split; [exists m; now split | exists c; split; [reflexivity | congruence]].
Qed.

(** X29.  System messages at the end of the chat do not change what a
    render pass shows: the pass reads the last message that is not a
    system message. *)
Theorem render_pass_skips_system (cs : ChatSettings) (areas : bool)
  (chat tail : list Message) (nameList : list string) (ws : list Wrapper) :
  Forall (fun it => is_system it = true) tail ->
  lastMes (chat ++ tail) = lastMes chat /\
  slots cs (chat ++ tail) nameList = slots cs chat nameList /\
  render_pass cs areas (chat ++ tail) nameList ws = render_pass cs areas chat nameList ws.
Proof.
  intros Ht.
  assert (Hrev : Forall (fun it => is_system it = true) (rev tail)).
  { apply Forall_forall. intros x Hx. apply in_rev in Hx.
    rewrite Forall_forall in Ht. now apply Ht. }
  assert (H1 : lastMes (chat ++ tail) = lastMes chat).
  { unfold lastMes. rewrite rev_app_distr. apply find_skips.
    eapply Forall_impl; [|exact Hrev]. intros a Ha. simpl in Ha. now rewrite Ha. }
  assert (H2 : lastCharMes (chat ++ tail) nameList = lastCharMes chat nameList).
  { unfold lastCharMes. rewrite rev_app_distr. apply find_skips.
    eapply Forall_impl; [|exact Hrev]. intros a Ha. simpl in Ha.
    rewrite Ha. simpl. now rewrite andb_false_r. }
  assert (H3 : slots cs (chat ++ tail) nameList = slots cs chat nameList)
    by (unfold slots; now rewrite H1).
  split; [exact H1|]. split; [exact H3|].
  unfold render_pass, mark_last. now rewrite H1, H2, H3.
Qed.

Lemma render_pass_skips_system_witness :
  lastMes ([said "Narrator" "Carol greets Alice."]
           ++ [mkMessage "Bob joined." "System" false true])
  = lastMes [said "Narrator" "Carol greets Alice."].
Proof.
  refine (proj1 (render_pass_skips_system no_settings true
            [said "Narrator" "Carol greets Alice."]
            [mkMessage "Bob joined." "System" false true] [] [] _)).
  repeat constructor.
Defined.

(** ** The balance of the two sides *)

Section Balance.

Variable s : Settings.

Lemma place_fair n st : fair s st -> fair s (place s n st).
Proof.
  unfold fair, balanced, left_full, right_full, place, side_for.
  intros ((B1 & B2) & B3).
  destruct (negb (truthy (current st))); [simpl; tauto|].
  destruct ((Z.of_nat (length (left st)) <? numLeft s)%Z || (numLeft s =? -1)%Z) eqn:E1;
    cbn [andb].
  - assert (H1 : (Z.of_nat (length (left st)) < numLeft s)%Z \/ numLeft s = (-1)%Z).
    { apply orb_true_iff in E1. destruct E1 as [E|E];
        [left; now apply Z.ltb_lt | right; now apply Z.eqb_eq]. }
    destruct ((Z.of_nat (length (left st)) <=? Z.of_nat (length (right st)))%Z
              || (Z.of_nat (length (right st)) >=? numRight s)%Z) eqn:E2.
    + assert (H2 : length (left st) <= length (right st) \/
                   (numRight s <= Z.of_nat (length (right st)))%Z).
      { apply orb_true_iff in E2. destruct E2 as [E|E].
        - left. apply Z.leb_le in E. lia.
        - right. apply Z.geb_le in E. lia. }
      simpl. rewrite length_app. simpl. repeat split.
      * destruct H2; [left; lia | now right].
      * left. destruct B2 as [B2|B2]; [lia | tauto].
      * intros Hr. destruct (B3 Hr) as [B|B]; [now left | tauto].
    + assert (H2 : length (right st) < length (left st) /\
                   (Z.of_nat (length (right st)) < numRight s)%Z).
      { apply orb_false_iff in E2. destruct E2 as [Ea Eb].
        apply Z.leb_gt in Ea. rewrite Z.geb_leb in Eb. apply Z.leb_gt in Eb. lia. }
      destruct ((Z.of_nat (length (right st)) <? numRight s)%Z || (numRight s =? -1)%Z);
        [|simpl; tauto].
      simpl. rewrite length_app. simpl. repeat split.
      * left. destruct B1 as [B1|B1]; lia.
      * left. lia.
      * intros Hr. lia.
  - assert (H1 : ~ ((Z.of_nat (length (left st)) < numLeft s)%Z \/ numLeft s = (-1)%Z)).
    { apply orb_false_iff in E1. destruct E1 as [Ea Eb].
      apply Z.ltb_ge in Ea. apply Z.eqb_neq in Eb. lia. }
    destruct ((Z.of_nat (length (right st)) <? numRight s)%Z || (numRight s =? -1)%Z);
      [|simpl; tauto].
    simpl. rewrite length_app. simpl. repeat split.
    + destruct B1 as [B1|B1]; [left; lia | right; lia].
    + now right.
    + intros _. now right.
Qed.

Lemma fair_sides st st' :
  left st' = left st -> right st' = right st -> fair s st -> fair s st'.
Proof.
  unfold fair, balanced, left_full, right_full. intros -> ->. tauto.
Qed.

Lemma add_loop_fair : forall added st,
  fair s st -> fair s (fst (add_loop s added st)).
Proof.
  unfold add_loop; simpl.
  induction added as [|n added IH]; intros st Hf; simpl; [exact Hf|].
  apply IH. unfold add_one.
  apply (fair_sides (place s n (set_nameList (nameList st ++ [n]) st)));
    [reflexivity | reflexivity |].
  apply place_fair. now apply (fair_sides st).
Qed.

Lemma replace_loop_fair : forall pend st eff,
  fair s st -> fair s (fst (fold_left (replace_one s) pend (st, eff))).
Proof.
  induction pend as [|n pend IH]; intros st eff Hf; simpl; [exact Hf|].
  destruct (side_for s st) eqn:E; apply IH; try exact Hf; now apply place_fair.
Qed.

Lemma backfill_loop_fair : forall rq st, fair s st -> fair s (backfill_loop s rq st).
Proof.
  induction rq as [|n rq IH]; intros st Hf; simpl; [exact Hf|].
  destruct (room s st); [|exact Hf]. apply IH. now apply place_fair.
Qed.

Lemma fresh_refresh_fair names : fair s (fst (updateMembers s names empty_roster)).
Proof.
  unfold updateMembers. cbn [nameList empty_roster filter remove_loop].
  assert (Hs : shrink s empty_roster = (empty_roster, [])) by reflexivity.
  rewrite Hs.
  assert (H0 : fair s empty_roster).
  { unfold fair, balanced; simpl. repeat split; try (left; lia); auto. }
  pose proof (add_loop_fair (filter (fun it => negb (includes it [])) names)
                empty_roster H0) as H1.
  destruct (add_loop s (filter (fun it => negb (includes it [])) names) empty_roster)
    as [st3 eff3]. simpl in H1.
  pose proof (replace_loop_fair [] st3 [] H1) as H2.
  cbn [fold_left] in *. cbn [fst]. now apply backfill_loop_fair.
Qed.

End Balance.

(** X30.  A refresh on the empty roster leaves the two sides in balance:
    the left is at most one name longer than the right unless the right
    is at its capacity, and the right is no longer than the left unless
    the left is full.  An unbounded right side counts as being at its
    capacity: it gets a name only once the left side is full. *)
Theorem fresh_refresh_balanced (s : Settings) (names : list string) :
  (-1 <= numLeft s)%Z -> (-1 <= numRight s)%Z ->
  let st := fst (updateMembers s names empty_roster) in
  balanced s st /\ (numRight s = (-1)%Z -> right st = [] \/ left_full s st).
Proof. intros _ _. apply fresh_refresh_fair. Qed.

Lemma fresh_refresh_balanced_witness :
  let s := mkSettings 3 (-1) in
  let st := fst (updateMembers s ["A"; "B"; "C"; "D"; "E"; "F"] empty_roster) in
  balanced s st /\ (numRight s = (-1)%Z -> right st = [] \/ left_full s st).
Proof.
  refine (fresh_refresh_balanced (mkSettings 3 (-1)) ["A"; "B"; "C"; "D"; "E"; "F"] _ _).
  - vm_compute; discriminate.
  - vm_compute; discriminate.
Defined.
